(** * LocalMarkerGraph2: a shallow embedding of [src/src/LocalMarkerGraph2.cpp]

    The local marker graph of the shasta assembler: vertex registration
    ([findVertex], [addVertex]), sequence aggregation on an edge (the two
    overloads of [storeEdgeInfo]), the maximum coverage spanning tree
    ([computeOptimalSpanningTree]) and the longest path in that tree
    ([computeOptimalSpanningTreeBestPath]).

    Conventions.  Fixed-width unsigned integers of the C++ code are values
    of [N] and every place where the C++ arithmetic wraps around is written
    out ([add32], [sub32], [succ64], [to_uint8]).  Vertex and edge
    descriptors are positions in the vertex list and in the edge list of the
    graph, both kept in insertion order, which is the order in which
    [BGL_FORALL_VERTICES], [BGL_FORALL_EDGES] and the per-vertex edge lists
    enumerate them.  A call that can throw has a [result]. *)

From stdpp Require Import base numbers option list sorting gmap.
From Stdlib Require Import NArith ZArith Lia.

(** ** Machine arithmetic *)

Module Uint.
Local Open Scope N_scope.

Definition two32 : N := 2 ^ 32.
Definition two64 : N := 2 ^ 64.

(** [uint32_t] addition and subtraction. *)
Definition add32 (a b : N) : N := (a + b) mod two32.
Definition sub32 (a b : N) : N := (a + two32 - b mod two32) mod two32.

(** [MarkerId] is a [uint64_t]; [markerId++]. *)
Definition succ64 (a : N) : N := (a + 1) mod two64.
Definition sub64 (a b : N) : N := (a + two64 - b mod two64) mod two64.

(** The conversion [uint8_t(x)]. *)
Definition to_uint8 (x : N) : N := x mod 256.

(** What a saturating conversion would give instead. *)
Definition clamp_uint8 (x : N) : N := N.min x 255.

Lemma two32_pos : 0 < two32.
Proof. reflexivity. Qed.

Lemma two64_pos : 0 < two64.
Proof. reflexivity. Qed.

Lemma add32_small a b : a + b < two32 → add32 a b = a + b.
Proof. intros H. unfold add32. by apply N.mod_small. Qed.

Lemma sub32_small a b : b ≤ a → a < two32 → sub32 a b = a - b.
Proof.
  intros Hba Ha. unfold sub32.
  assert (Hb : b mod two32 = b) by (apply N.mod_small; lia).
  rewrite Hb.
  replace (a + two32 - b) with ((a - b) + 1 * two32) by lia.
  rewrite N.Div0.mod_add. apply N.mod_small. lia.
Qed.

Lemma sub32_lt a b : sub32 a b < two32.
Proof. unfold sub32. apply N.mod_lt. discriminate. Qed.

Lemma add32_lt a b : add32 a b < two32.
Proof. unfold add32. apply N.mod_lt. discriminate. Qed.

Lemma succ64_small a : a + 1 < two64 → succ64 a = a + 1.
Proof. intros H. unfold succ64. by apply N.mod_small. Qed.

Lemma sub64_small a b : b ≤ a → a < two64 → sub64 a b = a - b.
Proof.
  intros Hba Ha. unfold sub64.
  assert (Hb : b mod two64 = b) by (apply N.mod_small; lia).
  rewrite Hb.
  replace (a + two64 - b) with ((a - b) + 1 * two64) by lia.
  rewrite N.Div0.mod_add. apply N.mod_small. lia.
Qed.

Lemma to_uint8_lt x : to_uint8 x < 256.
Proof. unfold to_uint8. apply N.mod_lt. discriminate. Qed.

Lemma to_uint8_small x : x < 256 → to_uint8 x = x.
Proof. intros H. unfold to_uint8. by apply N.mod_small. Qed.

Lemma two32_eq : two32 = 4294967296.
Proof. reflexivity. Qed.

Lemma two64_eq : two64 = 18446744073709551616.
Proof. reflexivity. Qed.

Global Opaque two32 two64.
End Uint.
Import Uint.

(** ** Bases, oriented reads, markers *)

(** [shasta::Base]: one of the four nucleotides. *)
Inductive Base := BaseA | BaseC | BaseG | BaseT.

Global Instance Base_eq_dec : EqDecision Base.
Proof. solve_decision. Defined.

(** [Base::complementInPlace]. *)
Definition complement (b : Base) : Base :=
  match b with BaseA => BaseT | BaseC => BaseG | BaseG => BaseC | BaseT => BaseA end.

Definition Base_value (b : Base) : N :=
  match b with BaseA => 0 | BaseC => 1 | BaseG => 2 | BaseT => 3 end%N.

(** Modelled from the spec: [ReadId.hpp] is not among the sources.  An
    oriented read is a read paired with a strand; it is held as one integer,
    twice the read id plus the strand, and oriented reads are compared and
    ordered by that integer. *)
Definition OrientedReadId := N.
Definition getValue (o : OrientedReadId) : N := o.
Definition getReadId (o : OrientedReadId) : N := (o / 2)%N.
Definition getStrand (o : OrientedReadId) : N := (o mod 2)%N.
Definition mkOrientedReadId (readId strand : N) : OrientedReadId :=
  (2 * readId + strand)%N.

(** [CompressedMarker]: the k-mer of a marker and its position in the
    oriented read ([uint32_t] arithmetic is used on [position]). *)
Record CompressedMarker := mkCompressedMarker {
  kmerId : N;
  position : N
}.

(** A read as [reads[readId]] gives it: its length and its bases. *)
Record LongBaseSequence := mkLongBaseSequence {
  baseCount : N;
  get : N → Base
}.

(** ** The data model of the graph *)

Abbreviation vertex_descriptor := nat (only parsing).
Abbreviation edge_descriptor := nat (only parsing).

(** [LocalMarkerGraph2Vertex::MarkerInfo]. *)
Record MarkerInfo := mkMarkerInfo {
  markerId : N;
  orientedReadId : OrientedReadId;
  ordinal : N
}.

Record LocalMarkerGraph2Vertex := mkVertex {
  vertexId : N;
  distance : Z;
  markerInfos : list MarkerInfo
}.

(** [LocalMarkerGraph2Edge::Sequence]: the bases between two markers, or
    the number of bases the two markers share. *)
Record Sequence := mkSequence {
  sequence : list Base;
  overlappingBaseCount : N
}.

(** [LocalMarkerGraph2Edge::Info]: an oriented read and the ordinals of its
    two markers. *)
Record Info := mkInfo {
  info_orientedReadId : OrientedReadId;
  ordinals0 : N;
  ordinals1 : N
}.

Record LocalMarkerGraph2Edge := mkEdge {
  infos : list (Sequence * list Info);
  isSpanningTreeEdge : bool;
  isSpanningTreeBestPathEdge : bool
}.

(** An edge as the adjacency list stores it: its end points and its
    property bundle. *)
Record StoredEdge := mkStoredEdge {
  source : vertex_descriptor;
  target : vertex_descriptor;
  property : LocalMarkerGraph2Edge
}.

Record LocalMarkerGraph2 := mkGraph {
  vertices : list LocalMarkerGraph2Vertex;
  edges : list StoredEdge;
  vertexMap : gmap N vertex_descriptor
}.

Definition num_vertices (g : LocalMarkerGraph2) : nat := length (vertices g).
Definition num_edges (g : LocalMarkerGraph2) : nat := length (edges g).

(** The graph without vertices, and [boost::add_edge] with a default
    constructed edge: no observations, both flags false. *)
Definition emptyGraph : LocalMarkerGraph2 :=
  {| vertices := []; edges := []; vertexMap := ∅ |}.

Definition defaultEdge : LocalMarkerGraph2Edge :=
  {| infos := []; isSpanningTreeEdge := false;
     isSpanningTreeBestPathEdge := false |}.

Definition add_edge (v0 v1 : vertex_descriptor) (graph : LocalMarkerGraph2)
  : LocalMarkerGraph2 :=
  {| vertices := vertices graph;
     edges := edges graph ++ [mkStoredEdge v0 v1 defaultEdge];
     vertexMap := vertexMap graph |}.

(** What a call comes to: it returns, it throws ([CZI_ASSERT] throws when
    its condition is false, [boost::topological_sort] throws [not_a_dag]),
    or, for a loop that is given fuel, it uses the fuel up. *)
Inductive exception := assertion_failed | not_a_dag.

Inductive result (X : Type) : Type :=
| returned (x : X)
| thrown (ex : exception)
| out_of_fuel.
Arguments returned {X} x.
Arguments thrown {X} ex.
Arguments out_of_fuel {X}.

Global Instance result_ret : MRet result := λ X x, returned x.

Global Instance result_bind : MBind result := λ X Y f r,
  match r with
  | returned x => f x
  | thrown ex => thrown ex
  | out_of_fuel => out_of_fuel
  end.

Global Instance result_fmap : FMap result := λ X Y f r,
  match r with
  | returned x => returned (f x)
  | thrown ex => thrown ex
  | out_of_fuel => out_of_fuel
  end.

(** [CZI_ASSERT(it != table.end())] and the like: the value that was
    found, or the exception. *)
Definition assertFound {X} (o : option X) : result X :=
  match o with
  | Some x => returned x
  | None => thrown assertion_failed
  end.

(** Operations on the graph: the graph is a state that is passed along. *)
Definition GraphM (X : Type) : Type :=
  LocalMarkerGraph2 → result (X * LocalMarkerGraph2).

(** [findVertex]: whether a vertex with the given global vertex id exists,
    and its descriptor ([None] is [null_vertex()]). *)
Definition findVertex (vertexId : N)
  : GraphM (bool * option vertex_descriptor) :=
  λ graph,
    match vertexMap graph !! vertexId with
    | None => returned ((false, None), graph)
    | Some v => returned ((true, Some v), graph)
    end.

Global Instance Sequence_eq_dec : EqDecision Sequence.
Proof. solve_decision. Defined.

Global Instance Info_eq_dec : EqDecision Info.
Proof. solve_decision. Defined.

(** ** Ordering of sequences and the sequence table *)

(** Modelled from the spec: the comparison operator of [Sequence] is
    declared in [LocalMarkerGraph2.hpp], which is not among the sources.
    The spec asks for a total order on [Sequence] under which the two
    representations are distinct values; this is the lexicographic order on
    the overlap count followed by the bases. *)
Fixpoint Bases_lt (x y : list Base) : bool :=
  match x, y with
  | [], [] => false
  | [], _ :: _ => true
  | _ :: _, [] => false
  | a :: x', b :: y' =>
      if (Base_value a <? Base_value b)%N then true
      else if (Base_value b <? Base_value a)%N then false
      else Bases_lt x' y'
  end.

Definition Sequence_lt (x y : Sequence) : bool :=
  if (overlappingBaseCount x <? overlappingBaseCount y)%N then true
  else if (overlappingBaseCount y <? overlappingBaseCount x)%N then false
  else Bases_lt (sequence x) (sequence y).

(** [std::map<Sequence, vector<Info>>]: the entries in increasing key
    order, which is the order in which the map is iterated. *)
Definition SequenceTable := list (Sequence * list Info).

(** [sequenceTable[sequence].push_back(info)]. *)
Fixpoint tablePushBack (s : Sequence) (i : Info) (t : SequenceTable)
  : SequenceTable :=
  match t with
  | [] => [(s, [i])]
  | (s', l) :: t' =>
      if Sequence_lt s s' then (s, [i]) :: t
      else if Sequence_lt s' s then (s', l) :: tablePushBack s i t'
      else (s', l ++ [i]) :: t'
  end.

(** [OrderPairsBySizeOfSecondGreater]: [x] goes before [y] when its
    second component is the longer one. *)
Definition OrderPairsBySizeOfSecondGreater {X Y} (x y : X * list Y) : bool :=
  bool_decide (length (snd y) < length (snd x)).

(** [OrderPairsBySecondOnlyGreater]. *)
Definition OrderPairsBySecondOnlyGreater {X} (x y : X * nat) : bool :=
  bool_decide (snd y < snd x).

(** [std::sort(first, last, comp)].  The result is ordered so that no
    element compares before one that precedes it; the order of elements
    that compare equal is left open by the C++ library and is the one of
    a merge sort here. *)
Definition notAfter {X} (comp : X → X → bool) (x y : X) : Prop :=
  comp y x = false.

Global Instance notAfter_dec {X} (comp : X → X → bool) x y :
  Decision (notAfter comp x y).
Proof. unfold notAfter. apply _. Defined.

Definition sort {X} (comp : X → X → bool) (l : list X) : list X :=
  merge_sort (notAfter comp) l.

Lemma sort_Permutation {X} (comp : X → X → bool) (l : list X) :
  sort comp l ≡ₚ l.
Proof. apply merge_sort_Permutation. Qed.

Lemma elem_of_sort {X} (comp : X → X → bool) (l : list X) x :
  x ∈ sort comp l ↔ x ∈ l.
Proof. by rewrite sort_Permutation. Qed.

Example sort_example :
  sort OrderPairsBySecondOnlyGreater [(0, 1); (1, 5); (2, 3); (3, 5)]
  = [(1, 5); (3, 5); (2, 3); (0, 1)].
Proof. vm_compute. reflexivity. Qed.

(** The value two markers that exactly abut give. *)
Definition abutting : Sequence := {| sequence := []; overlappingBaseCount := 0 |}.

(** Two sequences are the same key of the sequence table exactly when
    neither is ordered before the other. *)
Definition sameKey (x y : Sequence) : Prop :=
  Sequence_lt x y = false ∧ Sequence_lt y x = false.

(** [graph[v].vertexId]. *)
Definition vertexIdAt (graph : LocalMarkerGraph2) (v : vertex_descriptor)
  : option N :=
  vertexId <$> vertices graph !! v.

(** *** The order on sequences *)

Lemma Base_value_inj a b : Base_value a = Base_value b → a = b.
Proof. by destruct a, b. Qed.

Lemma Bases_lt_irrefl x : Bases_lt x x = false.
Proof.
induction x as [|a x IH]; [done|]. simpl.
by rewrite N.ltb_irrefl.
Qed.

Lemma Bases_lt_total x y :
  Bases_lt x y = false → Bases_lt y x = false → x = y.
Proof.
revert y. induction x as [|a x IH]; intros [|b y]; simpl; try done.
destruct (N.ltb_spec (Base_value a) (Base_value b));
  destruct (N.ltb_spec (Base_value b) (Base_value a)); try done; try lia.
intros Hxy Hyx. f_equal; [apply Base_value_inj; lia | by apply IH].
Qed.

Lemma Sequence_lt_irrefl x : Sequence_lt x x = false.
Proof.
unfold Sequence_lt. rewrite N.ltb_irrefl. apply Bases_lt_irrefl.
Qed.

Lemma Sequence_lt_total x y :
  Sequence_lt x y = false → Sequence_lt y x = false → x = y.
Proof.
destruct x as [bx nx], y as [by' ny]. unfold Sequence_lt. simpl.
destruct (N.ltb_spec nx ny); destruct (N.ltb_spec ny nx); try done; try lia.
intros Hxy Hyx. f_equal; [by apply Bases_lt_total | lia].
Qed.

Lemma sameKey_eq x y : sameKey x y ↔ x = y.
Proof.
split.
- intros [? ?]. by apply Sequence_lt_total.
- intros ->. split; apply Sequence_lt_irrefl.
Qed.

(** *** What the sequence table holds *)

(** Observation [i] is stored under sequence [s]. *)
Definition contributes (t : SequenceTable) (s : Sequence) (i : Info) : Prop :=
  ∃ l, (s, l) ∈ t ∧ i ∈ l.

Lemma contributes_nil s i : ¬ contributes [] s i.
Proof. intros (l & Hl & _). by apply elem_of_nil in Hl. Qed.

Lemma contributes_cons s' l' t s i :
  contributes ((s', l') :: t) s i ↔ (s = s' ∧ i ∈ l') ∨ contributes t s i.
Proof.
unfold contributes. split.
- intros (l & Hl & Hi). apply elem_of_cons in Hl as [Heq | Hl].
  + injection Heq as -> ->. by left.
  + right. eauto.
- intros [[-> Hi] | (l & Hl & Hi)].
  + exists l'. split; [apply elem_of_cons; by left | done].
  + exists l. split; [apply elem_of_cons; by right | done].
Qed.

Lemma contributes_tablePushBack s i t s' i' :
  contributes (tablePushBack s i t) s' i'
  ↔ contributes t s' i' ∨ (s' = s ∧ i' = i).
Proof.
induction t as [|[s0 l0] t IH]; simpl.
- rewrite contributes_cons, list_elem_of_singleton. tauto.
- destruct (Sequence_lt s s0) eqn:Hlt.
  + rewrite !contributes_cons, list_elem_of_singleton. tauto.
  + destruct (Sequence_lt s0 s) eqn:Hgt.
    * rewrite !contributes_cons, IH. tauto.
    * assert (s0 = s) as -> by by apply Sequence_lt_total.
      rewrite !contributes_cons, elem_of_app, list_elem_of_singleton. tauto.
Qed.

Lemma contributes_sort comp (t : SequenceTable) s i :
  contributes (sort comp t) s i ↔ contributes t s i.
Proof.
unfold contributes. split; intros (l & Hl & Hi); exists l;
  (split; [by apply elem_of_sort in Hl || by apply elem_of_sort | done]).
Qed.

Lemma contributes_foldl {X} (f : SequenceTable → X → SequenceTable)
    (key : X → Sequence) (val : X → Info) :
  (∀ t x, f t x = tablePushBack (key x) (val x) t) →
  ∀ (xs : list X) t s i,
    contributes (foldl f t xs) s i
    ↔ contributes t s i ∨ ∃ x, x ∈ xs ∧ s = key x ∧ i = val x.
Proof.
intros Hf xs. induction xs as [|x xs IH]; intros t s i; simpl.
- split; [by left|]. intros [?|(x & Hx & _)]; [done|]. by apply elem_of_nil in Hx.
- rewrite IH, Hf, contributes_tablePushBack. split.
  + intros [[?|[-> ->]]|(y & Hy & ? & ?)].
    * by left.
    * right. exists x. split; [apply elem_of_cons; by left | done].
    * right. exists y. split; [apply elem_of_cons; by right | done].
  + intros [?|(y & Hy & -> & ->)]; [by left; left|].
    apply elem_of_cons in Hy as [->|Hy]; [left; by right|].
    right. by exists y.
Qed.

(** ** Vertex registration *)

Section Registration.

(** [findMarkerId(markerId, markers)], of [findMarkerId.hpp], which is not
    among the sources: the oriented read and the ordinal of a marker. *)
Variable findMarkerId : N → OrientedReadId * N.

(** [addVertex]: the assertion that the vertex does not exist yet, the new
    vertex at the end of the vertex list, its entry in the vertex map, and
    its marker information. *)
Definition addVertex (vertexId : N) (distance : Z) (vertexMarkers : list N)
  : GraphM vertex_descriptor :=
  λ graph,
    match vertexMap graph !! vertexId with
    | Some _ => thrown assertion_failed
    | None =>
        let v := length (vertices graph) in
        let markerInfos :=
          (λ markerId,
             {| markerId := markerId;
                orientedReadId := fst (findMarkerId markerId);
                ordinal := snd (findMarkerId markerId) |}) <$> vertexMarkers in
        returned (v, {| vertices :=
                      vertices graph ++ [mkVertex vertexId distance markerInfos];
                    edges := edges graph;
                    vertexMap := <[vertexId := v]> (vertexMap graph) |})
    end.


(** [findVertex] never fails and leaves the graph as it is. *)
Lemma findVertex_pure vertexId graph :
  ∃ r, findVertex vertexId graph = returned (r, graph).
Proof. unfold findVertex. destruct (vertexMap graph !! vertexId); eauto. Qed.

(** C9.  [addVertex] with a vertex id that [findVertex] finds throws; with a
    vertex id that [findVertex] does not find it succeeds, and in the graph
    it leaves [findVertex] finds that id, at the descriptor [addVertex]
    returned, which designates a vertex with that id, and leaves the graph
    as it is. *)
Theorem addVertex_findVertex graph vertexId distance vertexMarkers :
  (∀ r, findVertex vertexId graph = returned ((true, r), graph) →
        addVertex vertexId distance vertexMarkers graph
        = thrown assertion_failed)
  ∧ (findVertex vertexId graph = returned ((false, None), graph) →
     ∃ v graph',
       addVertex vertexId distance vertexMarkers graph = returned (v, graph')
       ∧ findVertex vertexId graph' = returned ((true, Some v), graph')
       ∧ vertexIdAt graph' v = Some vertexId
       ∧ num_vertices graph' = S (num_vertices graph)
       ∧ ∀ other, other ≠ vertexId →
           findVertex other graph' = 
           (λ p, (fst p, graph')) <$> findVertex other graph).
Proof.
unfold findVertex, addVertex. split.
- intros r H. destruct (vertexMap graph !! vertexId); [done|]. by injection H.
- intros H. destruct (vertexMap graph !! vertexId) eqn:Hmap; [by injection H|].
  eexists _, _. split; [done|]. simpl. rewrite lookup_insert_eq.
  split; [done|]. split; [|split].
  + unfold vertexIdAt. simpl.
    rewrite lookup_app_r by done. by rewrite Nat.sub_diag.
  + unfold num_vertices. simpl. rewrite length_app. simpl. lia.
  + intros other Hne. rewrite lookup_insert_ne by done.
    by destruct (vertexMap graph !! other).
Qed.

End Registration.
(** *** The order of the keys and the groups of the table *)

Lemma Bases_lt_trans x y z :
  Bases_lt x y = true → Bases_lt y z = true → Bases_lt x z = true.
Proof.
revert y z. induction x as [|a x IH]; intros [|b y] [|c z]; simpl; try done.
destruct (N.ltb_spec (Base_value a) (Base_value b)),
  (N.ltb_spec (Base_value b) (Base_value a)),
  (N.ltb_spec (Base_value b) (Base_value c)),
  (N.ltb_spec (Base_value c) (Base_value b)),
  (N.ltb_spec (Base_value a) (Base_value c)),
  (N.ltb_spec (Base_value c) (Base_value a));
  try done; try lia; eauto.
Qed.

Lemma Sequence_lt_trans x y z :
  Sequence_lt x y = true → Sequence_lt y z = true → Sequence_lt x z = true.
Proof.
unfold Sequence_lt.
destruct (N.ltb_spec (overlappingBaseCount x) (overlappingBaseCount y)),
  (N.ltb_spec (overlappingBaseCount y) (overlappingBaseCount x)),
  (N.ltb_spec (overlappingBaseCount y) (overlappingBaseCount z)),
  (N.ltb_spec (overlappingBaseCount z) (overlappingBaseCount y)),
  (N.ltb_spec (overlappingBaseCount x) (overlappingBaseCount z)),
  (N.ltb_spec (overlappingBaseCount z) (overlappingBaseCount x));
  try done; try lia; eauto using Bases_lt_trans.
Qed.

(** The keys of a [std::map] increase along the map. *)
Definition keyBefore (x y : Sequence * list Info) : Prop :=
  Sequence_lt (fst x) (fst y) = true.

Definition tableSorted (t : SequenceTable) : Prop :=
  StronglySorted keyBefore t.

Lemma tableSorted_NoDup t : tableSorted t → NoDup (fst <$> t).
Proof.
induction 1 as [|p t Hsorted IH Hall]; simpl; constructor; [|done].
intros Hin. apply list_elem_of_fmap in Hin as (q & Heq & Hq).
rewrite Forall_forall in Hall. specialize (Hall q Hq).
unfold keyBefore in Hall. rewrite Heq, Sequence_lt_irrefl in Hall. done.
Qed.

Lemma tablePushBack_Forall (P : Sequence → Prop) s i t :
  P s → Forall (λ p, P (fst p)) t →
  Forall (λ p, P (fst p)) (tablePushBack s i t).
Proof.
intros Hs. induction 1 as [|[s0 l0] t Hp Hall IH]; simpl.
- by repeat constructor.
- destruct (Sequence_lt s s0); [by repeat constructor|].
  destruct (Sequence_lt s0 s); by constructor.
Qed.

Lemma tablePushBack_sorted s i t :
  tableSorted t → tableSorted (tablePushBack s i t).
Proof.
induction 1 as [|[s0 l0] t Hsorted IH Hall]; simpl.
- by repeat constructor.
- destruct (Sequence_lt s s0) eqn:Hlt.
  + constructor; [by constructor|]. constructor; [done|].
    eapply Forall_impl; [exact Hall|]. intros q Hq.
    unfold keyBefore in *. simpl in *. by eapply Sequence_lt_trans.
  + destruct (Sequence_lt s0 s) eqn:Hgt.
    * constructor; [done|].
      by apply (tablePushBack_Forall (λ s', Sequence_lt s0 s' = true)).
    * by constructor.
Qed.

(** [sequenceTable[s].push_back(i)]: the group of [s] gets [i] at its
    end, a new group if there was none, and the other groups stay. *)
Lemma elem_of_tablePushBack s i t s' l' :
  tableSorted t →
  (s', l') ∈ tablePushBack s i t
  ↔ (s' ≠ s ∧ (s', l') ∈ t)
    ∨ (s' = s ∧ ((∃ l, (s, l) ∈ t ∧ l' = l ++ [i])
                 ∨ ((∀ l, (s, l) ∉ t) ∧ l' = [i]))).
Proof.
induction 1 as [|[s0 l0] t Hsorted IH Hall]; simpl.
- rewrite list_elem_of_singleton.
  split.
  + intros [= -> ->]. right. split; [done|]. right. split; [|done].
    intros l. apply not_elem_of_nil.
  + intros [[_ Hin]|[-> [(l & Hin & _)|[_ ->]]]];
      [by apply elem_of_nil in Hin|by apply elem_of_nil in Hin|done].
- assert (Hnotin : ∀ s1 l1, (s1, l1) ∈ t → Sequence_lt s0 s1 = true).
  { intros s1 l1 Hin. rewrite Forall_forall in Hall. apply (Hall _ Hin). }
  pose proof (Sequence_lt_irrefl s0) as Hirr0.
  pose proof (Sequence_lt_irrefl s) as Hirr.
  destruct (Sequence_lt s s0) eqn:Hlt.
  + assert (∀ l1, (s, l1) ∉ t) as Hfresh.
    { intros l1 Hin. apply Hnotin in Hin.
      pose proof (Sequence_lt_trans _ _ _ Hlt Hin). congruence. }
    assert (s ≠ s0) as Hne by congruence.
    rewrite !elem_of_cons. split.
    * intros [[= -> ->]|[[= -> ->]|Hin]].
      -- right. split; [done|]. right. split; [|done].
         intros l Hin. apply elem_of_cons in Hin as [[= ? ?]|Hin]; [done|].
         by eapply Hfresh.
      -- left. split; [done|]. by left.
      -- left. split; [|by right]. intros ->. by eapply Hfresh.
    * intros [[Hne' [[= -> ->]|Hin]]|[-> [(l & Hin & ->)|[_ ->]]]].
      -- right. by left.
      -- right. by right.
      -- apply elem_of_cons in Hin as [[= ? ?]|Hin]; [done|].
         by eapply Hfresh in Hin.
      -- by left.
  + destruct (Sequence_lt s0 s) eqn:Hgt.
    * assert (s ≠ s0) as Hne by congruence.
      rewrite !elem_of_cons, IH. split.
      -- intros [[= -> ->]|[[Hne' Hin]|[-> [(l & Hin & ->)|[Hnot ->]]]]].
         ++ left. split; [done|]. by left.
         ++ left. split; [done|]. by right.
         ++ right. split; [done|]. left. exists l. split; [by right|done].
         ++ right. split; [done|]. right. split; [|done].
            intros l Hin. apply elem_of_cons in Hin as [[= ? ?]|Hin]; [done|].
            by eapply Hnot.
      -- intros [[Hne' [[= -> ->]|Hin]]|[-> [(l & Hin & ->)|[Hnot ->]]]].
         ++ by left.
         ++ right. by left.
         ++ apply elem_of_cons in Hin as [[= ? ?]|Hin]; [done|].
            right. right. split; [done|]. left. by exists l.
         ++ right. right. split; [done|]. right. split; [|done].
            intros l Hin. apply (Hnot l). by right.
    * assert (s0 = s) as -> by by apply Sequence_lt_total.
      assert (∀ l1, (s, l1) ∉ t) as Hfresh.
      { intros l1 Hin. apply Hnotin in Hin. congruence. }
      rewrite !elem_of_cons. split.
      -- intros [[= -> ->]|Hin].
         ++ right. split; [done|]. left. exists l0. split; [by left|done].
         ++ left. split; [|by right]. intros ->. by eapply Hfresh.
      -- intros [[Hne' [[= -> ->]|Hin]]|[-> [(l & Hin & ->)|[Hnot ->]]]].
         ++ done.
         ++ by right.
         ++ apply elem_of_cons in Hin as [[= ->]|Hin]; [by left|].
            by eapply Hfresh in Hin.
         ++ exfalso. apply (Hnot l0). by left.
Qed.

(** The table after the observations [xs] have been stored one by one:
    [key x] is the sequence and [val x] the observation of [x]. *)
Definition groupOf {X} (key : X → Sequence) (val : X → Info) (xs : list X)
    (s : Sequence) : list Info :=
  val <$> filter (λ x, key x = s) xs.

Definition groupsOf {X} (key : X → Sequence) (val : X → Info) (xs : list X)
    (t : SequenceTable) : Prop :=
  ∀ s l, (s, l) ∈ t ↔ l = groupOf key val xs s ∧ l ≠ [].

Lemma groupOf_snoc {X} (key : X → Sequence) (val : X → Info) xs x s :
  groupOf key val (xs ++ [x]) s
  = groupOf key val xs s ++ (if decide (key x = s) then [val x] else []).
Proof.
unfold groupOf. rewrite filter_app, fmap_app. f_equal.
rewrite filter_cons, filter_nil. by destruct (decide (key x = s)).
Qed.

Lemma groupsOf_tablePushBack {X} (key : X → Sequence) (val : X → Info) xs x t :
  tableSorted t → groupsOf key val xs t →
  groupsOf key val (xs ++ [x]) (tablePushBack (key x) (val x) t).
Proof.
intros Hsorted Hgroups s l.
rewrite elem_of_tablePushBack, groupOf_snoc by done.
destruct (decide (key x = s)) as [Heq|Hne].
- subst s. split.
  + intros [[? _]|[_ [(l0 & Hin & ->)|[Hnot ->]]]]; [done| |].
    * apply Hgroups in Hin as [-> _]. split; [done|].
      by destruct (groupOf key val xs (key x)).
    * split; [|done].
      destruct (groupOf key val xs (key x)) as [|i0 l0] eqn:Hgroup; [done|].
      exfalso. apply (Hnot (i0 :: l0)). apply Hgroups. by rewrite Hgroup.
  + intros [-> _]. right. split; [done|].
    destruct (groupOf key val xs (key x)) as [|i0 l0] eqn:Hgroup.
    * right. split; [|done]. intros l1 Hin.
      apply Hgroups in Hin as [-> Hne]. by rewrite Hgroup in Hne.
    * left. exists (i0 :: l0). split; [|done].
      apply Hgroups. by rewrite Hgroup.
- rewrite app_nil_r. split.
  + intros [[_ Hin]|[-> _]]; [by apply Hgroups|done].
  + intros Hin. left. split; [congruence|]. by apply Hgroups.
Qed.

Lemma groupsOf_foldl {X} (f : SequenceTable → X → SequenceTable)
    (key : X → Sequence) (val : X → Info) :
  (∀ t x, f t x = tablePushBack (key x) (val x) t) →
  ∀ (xs : list X),
    tableSorted (foldl f [] xs) ∧ groupsOf key val xs (foldl f [] xs).
Proof.
intros Hf xs. induction xs as [|x xs IH] using rev_ind.
- split; [constructor|]. intros s l. simpl. split.
  + intros Hin. by apply elem_of_nil in Hin.
  + by intros [-> ?].
- destruct IH as [Hsorted Hgroups]. rewrite foldl_app. simpl. rewrite Hf.
  split; [by apply tablePushBack_sorted|by apply groupsOf_tablePushBack].
Qed.

(** No observation is lost and none is stored twice. *)
Lemma tablePushBack_concat s i t :
  concat (snd <$> tablePushBack s i t) ≡ₚ concat (snd <$> t) ++ [i].
Proof.
induction t as [|[s0 l0] t IH]; simpl; [done|].
destruct (Sequence_lt s s0); simpl.
- by rewrite (Permutation_app_comm _ [i]).
- destruct (Sequence_lt s0 s); simpl.
  + by rewrite IH, (assoc_L (++)).
  + rewrite <- !(assoc_L (++)). f_equiv. apply Permutation_app_comm.
Qed.

Lemma foldl_tablePushBack_concat {X} (f : SequenceTable → X → SequenceTable)
    (key : X → Sequence) (val : X → Info) :
  (∀ t x, f t x = tablePushBack (key x) (val x) t) →
  ∀ (xs : list X), concat (snd <$> foldl f [] xs) ≡ₚ val <$> xs.
Proof.
intros Hf xs. induction xs as [|x xs IH] using rev_ind; [done|].
rewrite foldl_app. simpl.
by rewrite Hf, tablePushBack_concat, IH, fmap_app.
Qed.

(** The groups after [std::sort] with [OrderPairsBySizeOfSecondGreater]:
    no group is longer than one before it. *)
Definition notShorter {X Y} (x y : X * list Y) : Prop :=
  length (snd y) ≤ length (snd x).

Lemma sort_bySize {X Y} (t : list (X * list Y)) :
  StronglySorted notShorter (sort OrderPairsBySizeOfSecondGreater t).
Proof.
unfold sort.
assert (Heq : ∀ x y : X * list Y,
          notAfter OrderPairsBySizeOfSecondGreater x y ↔ notShorter x y).
{ intros x y. unfold notAfter, OrderPairsBySizeOfSecondGreater, notShorter.
  rewrite bool_decide_eq_false. lia. }
assert (Hsorted : StronglySorted (notAfter OrderPairsBySizeOfSecondGreater)
          (merge_sort (notAfter (@OrderPairsBySizeOfSecondGreater X Y)) t)).
{ apply StronglySorted_merge_sort.
  - intros x y z. rewrite !Heq. unfold notShorter. lia.
  - intros x y. rewrite !Heq. unfold notShorter. lia. }
induction Hsorted as [|x l Hl IH Hall]; constructor; [done|].
eapply Forall_impl; [exact Hall|]. intros y. by rewrite Heq.
Qed.

(** *** The vertex map and the vertices *)

(** [findVertex] finds a vertex id exactly at the vertex that carries
    it. *)
Definition registered (graph : LocalMarkerGraph2) : Prop :=
  ∀ vertexId v,
    findVertex vertexId graph = returned ((true, Some v), graph)
    ↔ vertexIdAt graph v = Some vertexId.

Lemma findVertex_found vertexId graph v :
  findVertex vertexId graph = returned ((true, Some v), graph)
  ↔ vertexMap graph !! vertexId = Some v.
Proof.
unfold findVertex. destruct (vertexMap graph !! vertexId); split; congruence.
Qed.

Lemma registered_emptyGraph : registered emptyGraph.
Proof.
intros vertexId v. rewrite findVertex_found. unfold vertexIdAt. simpl.
by rewrite lookup_empty.
Qed.

(** X5.  [addVertex] keeps the vertex map and the vertices in step: if
    [findVertex] finds each vertex id exactly at the vertex that carries
    it, it does so after a successful [addVertex] too.  The new vertex is
    the last one, the vertices that were there keep their descriptors and
    their contents, and the edges are as before. *)
Theorem addVertex_registered findMarkerId graph vertexId distance
    vertexMarkers v graph' :
  registered graph →
  addVertex findMarkerId vertexId distance vertexMarkers graph
  = returned (v, graph') →
  registered graph'
  ∧ v = num_vertices graph
  ∧ (∀ u, u < num_vertices graph → vertices graph' !! u = vertices graph !! u)
  ∧ edges graph' = edges graph.
Proof.
intros Hreg. unfold addVertex.
destruct (vertexMap graph !! vertexId) as [old|] eqn:Hmap; [done|].
intros [= <- <-]. split; [|split; [done|split; [|done]]].
- intros vertexId' v. rewrite findVertex_found.
  specialize (Hreg vertexId' v). rewrite findVertex_found in Hreg.
  unfold vertexIdAt in *. simpl.
  destruct (decide (vertexId' = vertexId)) as [->|Hne].
  + rewrite lookup_insert_eq. split.
    * intros [= <-]. rewrite lookup_app_r by done.
      by rewrite Nat.sub_diag.
    * intros Hv.
      destruct (decide (v < length (vertices graph))) as [Hlt|Hge].
      -- rewrite lookup_app_l in Hv by done.
         apply Hreg in Hv. congruence.
      -- rewrite lookup_app_r in Hv by lia.
         destruct (v - length (vertices graph)) as [|d] eqn:Hd; [|done].
         f_equal. lia.
  + rewrite lookup_insert_ne by done. rewrite Hreg. split.
    * intros Hv.
      assert (v < length (vertices graph)).
      { apply lookup_lt_is_Some. destruct (vertices graph !! v); [eauto|done]. }
      by rewrite lookup_app_l.
    * intros Hv.
      destruct (decide (v < length (vertices graph))) as [Hlt|Hge].
      -- by rewrite lookup_app_l in Hv.
      -- rewrite lookup_app_r in Hv by lia.
         destruct (v - length (vertices graph)) as [|d]; simpl in Hv;
           [congruence|done].
- intros u Hu. simpl. by rewrite lookup_app_l.
Qed.

(** ** Sequence aggregation: [storeEdgeInfo] *)

Section Aggregation.
Local Open Scope N_scope.

(** What the graph holds references to: the marker length [k], the reads,
    the markers of all oriented reads ([markers m] is
    [markers.begin()[m]], and [markersBegin o] is the global index of the
    first marker of the oriented read with value [o], so that
    [markers.begin(o)[i]] is [markers (markersBegin o + i)]), and the
    global marker graph vertex of each marker, with the value that stands
    for no vertex. *)
Variable k : N.
Variable reads : N → LongBaseSequence.
Variable markers : N → CompressedMarker.
Variable markersBegin : N → N.
Variable globalMarkerGraphVertex : N → N.
Variable invalidCompressedGlobalMarkerGraphVertexId : N.

Set Default Proof Using "Type".

(** The loop [for(position = ...; position != marker1.position;
    position++)] that collects the bases; [fuel] bounds the number of
    iterations. *)
Fixpoint gapLoop (o : OrientedReadId) (read : LongBaseSequence)
    (readLength : N) (fuel : nat) (position stop : N) : list Base :=
  match fuel with
  | O => []
  | S fuel' =>
      if position =? stop then []
      else
        let base :=
          if getStrand o =? 0 then get read position
          else complement (get read (sub32 (sub32 readLength 1) position)) in
        base :: gapLoop o read readLength fuel' (add32 position 1) stop
  end.

(** "Fill in the sequence information": the block shared, word for word,
    by the two overloads (lines 192-210 and 288-306). *)
Definition fillSequence (o : OrientedReadId)
    (marker0 marker1 : CompressedMarker) : Sequence :=
  let end0 := add32 (position marker0) k in
  if position marker1 <=? end0 then
    {| sequence := [];
       overlappingBaseCount := to_uint8 (sub32 end0 (position marker1)) |}
  else
    let read := reads (getReadId o) in
    let readLength := baseCount read mod two32 in
    {| sequence :=
         gapLoop o read readLength
           (N.to_nat (sub32 (position marker1) end0)) end0 (position marker1);
       overlappingBaseCount := 0 |}.

(** The search for an intervening marker that belongs to a vertex of the
    global marker graph, from [markerId0 + 1] up to [markerId1]. *)
Fixpoint interveningLoop (fuel : nat) (markerId markerId1 : N) : bool :=
  match fuel with
  | O => false
  | S fuel' =>
      if markerId =? markerId1 then false
      else if negb (globalMarkerGraphVertex markerId
                    =? invalidCompressedGlobalMarkerGraphVertexId) then true
      else interveningLoop fuel' (succ64 markerId) markerId1
  end.

Definition interveningVertexFound (markerId0 markerId1 : N) : bool :=
  let first := succ64 markerId0 in
  interveningLoop (N.to_nat (sub64 markerId1 first)) first markerId1.

(** The end of the streak of markers of oriented read [o] that starts at
    the iterator [it] (an iterator is the list of the elements from it
    on). *)
Fixpoint streakEnd (o : OrientedReadId) (it : list MarkerInfo)
  : list MarkerInfo :=
  match it with
  | [] => []
  | m :: it' => if orientedReadId m =? o then streakEnd o it' else it
  end.

(** The joint scan of the marker lists of the two vertices.  [accept] is
    what is done with a pair of markers that passes the three tests. *)
Fixpoint scan {St : Type}
    (accept : OrientedReadId → MarkerInfo → MarkerInfo → St → St)
    (fuel : nat) (it0 it1 : list MarkerInfo) (st : St) : St :=
  match fuel with
  | O => st
  | S fuel' =>
      match it0, it1 with
      | m0 :: rest0, m1 :: rest1 =>
          let orientedReadId0 := orientedReadId m0 in
          let orientedReadId1 := orientedReadId m1 in
          if orientedReadId0 <? orientedReadId1 then
            scan accept fuel' rest0 it1 st
          else if orientedReadId1 <? orientedReadId0 then
            scan accept fuel' it0 rest1 st
          else
            let it0StreakEnd := streakEnd orientedReadId0 it0 in
            let it1StreakEnd := streakEnd orientedReadId0 it1 in
            let st' :=
              if bool_decide (length it0 - length it0StreakEnd = 1)%nat
                 && bool_decide (length it1 - length it1StreakEnd = 1)%nat
                 && (ordinal m0 <? ordinal m1)
              then
                if interveningVertexFound (markerId m0) (markerId m1)
                then st
                else accept orientedReadId0 m0 m1 st
              else st in
            scan accept fuel' it0StreakEnd it1StreakEnd st'
      | _, _ => st
      end
  end.

(** "Store it" of the first overload. *)
Definition storeScanned (o : OrientedReadId) (m0 m1 : MarkerInfo)
    (sequenceTable : SequenceTable) : SequenceTable :=
  let marker0 := markers (markerId m0) in
  let marker1 := markers (markerId m1) in
  tablePushBack (fillSequence o marker0 marker1)
    (mkInfo o (ordinal m0) (ordinal m1)) sequenceTable.

(** The value the first overload leaves in [edge.infos]. *)
Definition scannedInfos (vertex0 vertex1 : LocalMarkerGraph2Vertex)
  : list (Sequence * list Info) :=
  let sequenceTable :=
    scan storeScanned
      (length (markerInfos vertex0) + length (markerInfos vertex1))
      (markerInfos vertex0) (markerInfos vertex1) [] in
  sort OrderPairsBySizeOfSecondGreater sequenceTable.

(** The loop body of the second overload. *)
Definition storeGiven (sequenceTable : SequenceTable) (info : Info)
  : SequenceTable :=
  let o := info_orientedReadId info in
  let marker0 := markers (markersBegin (getValue o) + ordinals0 info) in
  let marker1 := markers (markersBegin (getValue o) + ordinals1 info) in
  tablePushBack (fillSequence o marker0 marker1) info sequenceTable.

(** The value the second overload leaves in [edge.infos]. *)
Definition givenInfos (infoVector : list Info) : list (Sequence * list Info) :=
  sort OrderPairsBySizeOfSecondGreater (foldl storeGiven [] infoVector).

(** [graph[e].infos = newInfos]. *)
Definition setInfos (newInfos : list (Sequence * list Info)) (se : StoredEdge)
  : StoredEdge :=
  {| source := source se; target := target se;
     property :=
       {| infos := newInfos;
          isSpanningTreeEdge := isSpanningTreeEdge (property se);
          isSpanningTreeBestPathEdge :=
            isSpanningTreeBestPathEdge (property se) |} |}.

(** [storeEdgeInfo(e)].  The descriptor [e] has to be an edge of the
    graph; the result is [None] when it is not. *)
Definition storeEdgeInfo (e : edge_descriptor) (graph : LocalMarkerGraph2)
  : option LocalMarkerGraph2 :=
  se ← edges graph !! e;
  vertex0 ← vertices graph !! source se;
  vertex1 ← vertices graph !! target se;
  Some {| vertices := vertices graph;
          edges := <[e := setInfos (scannedInfos vertex0 vertex1) se]>
                     (edges graph);
          vertexMap := vertexMap graph |}.

(** [storeEdgeInfo(e, infoVector)]. *)
Definition storeEdgeInfoFrom (e : edge_descriptor) (infoVector : list Info)
    (graph : LocalMarkerGraph2) : option LocalMarkerGraph2 :=
  se ← edges graph !! e;
  Some {| vertices := vertices graph;
          edges := <[e := setInfos (givenInfos infoVector) se]> (edges graph);
          vertexMap := vertexMap graph |}.

(** The observations the first overload accepts, in the order in which
    it accepts them: the same scan, collecting the pairs of markers. *)
Definition collect (o : OrientedReadId) (m0 m1 : MarkerInfo)
    (acc : list (MarkerInfo * MarkerInfo)) : list (MarkerInfo * MarkerInfo) :=
  acc ++ [(m0, m1)].

Definition acceptedPairs (l0 l1 : list MarkerInfo)
  : list (MarkerInfo * MarkerInfo) :=
  scan collect (length l0 + length l1) l0 l1 [].

Definition infoOfPair (p : MarkerInfo * MarkerInfo) : Info :=
  mkInfo (orientedReadId (fst p)) (ordinal (fst p)) (ordinal (snd p)).

Definition acceptedInfos (vertex0 vertex1 : LocalMarkerGraph2Vertex)
  : list Info :=
  infoOfPair <$> acceptedPairs (markerInfos vertex0) (markerInfos vertex1).


(** The two vertices an edge joins, and the value of [graph[e].infos]. *)
Definition endVertices (graph : LocalMarkerGraph2) (e : edge_descriptor)
  : option (LocalMarkerGraph2Vertex * LocalMarkerGraph2Vertex) :=
  se ← edges graph !! e;
  vertex0 ← vertices graph !! source se;
  vertex1 ← vertices graph !! target se;
  Some (vertex0, vertex1).

Definition edgeInfos (graph : LocalMarkerGraph2) (e : edge_descriptor)
  : list (Sequence * list Info) :=
  match edges graph !! e with
  | Some se => infos (property se)
  | None => []
  end.

(** The positions [from], [from + 1], ... up to and excluding [to]. *)
Definition positionsBetween (from to : N) : list N :=
  (λ i, from + N.of_nat i) <$> seq 0 (N.to_nat (to - from)).

(** The bases between two markers in the words of the spec: the run of
    bases from the end of the first marker to the start of the second one,
    as stored when the oriented read is on strand 0, and otherwise each
    taken from the mirrored position of the stored read and complemented. *)
Definition spec_basesBetween (read : LongBaseSequence) (strand : N)
    (from to : N) : list Base :=
  (λ position,
     if strand =? 0 then get read position
     else complement (get read (baseCount read - 1 - position)))
  <$> positionsBetween from to.

(** The reverse complement of a run of bases. *)
Definition reverseComplement (l : list Base) : list Base :=
  complement <$> reverse l.

(** An observation [i] stored by the first overload comes from a marker of
    each of the two vertices, and [marker0] and [marker1] are the markers
    the overload looks up for it. *)
Definition scannedFrom (vertex0 vertex1 : LocalMarkerGraph2Vertex) (i : Info)
    (marker0 marker1 : CompressedMarker) : Prop :=
  ∃ m0 m1,
    m0 ∈ markerInfos vertex0 ∧ m1 ∈ markerInfos vertex1
    ∧ orientedReadId m0 = info_orientedReadId i
    ∧ orientedReadId m1 = info_orientedReadId i
    ∧ ordinal m0 = ordinals0 i ∧ ordinal m1 = ordinals1 i
    ∧ marker0 = markers (markerId m0) ∧ marker1 = markers (markerId m1).

(** The markers the second overload looks up for an observation. *)
Definition givenFrom (i : Info) (marker0 marker1 : CompressedMarker) : Prop :=
  marker0 = markers (markersBegin (getValue (info_orientedReadId i)) + ordinals0 i)
  ∧ marker1 = markers (markersBegin (getValue (info_orientedReadId i)) + ordinals1 i).

(** A marker list entry as [addVertex] fills it in: the global marker id
    is the position of the marker [ordinal] of the oriented read in the
    table of all markers. *)
Definition consistentMarkerInfo (m : MarkerInfo) : Prop :=
  markerId m = markersBegin (getValue (orientedReadId m)) + ordinal m
  ∧ markerId m < two64.

Definition consistentVertex (vertex : LocalMarkerGraph2Vertex) : Prop :=
  Forall consistentMarkerInfo (markerInfos vertex).

(** The two representations of a sequence exclude each other, markers that
    abut give [abutting], and markers with bases between them give another
    key of the table. *)
Definition exclusiveRepresentation (s : Sequence)
    (marker0 marker1 : CompressedMarker) : Prop :=
  (sequence s = [] ∨ (sequence s ≠ [] ∧ overlappingBaseCount s = 0))
  ∧ (position marker0 + k < two32 →
     position marker1 = position marker0 + k → s = abutting)
  ∧ (position marker0 + k < position marker1 →
     sequence s ≠ [] ∧ overlappingBaseCount s = 0 ∧ ¬ sameKey s abutting).

(** [marker0.position + k] as the code computes it: the position and [k]
    are 32 bit values, and so is their sum. *)
Definition markerEnd (marker0 : CompressedMarker) : N :=
  add32 (position marker0) k.

(** What the spec says of the overlap count, and what the code stores:
    [uint8_t(marker0.position + k - marker1.position)]. *)
Definition spec_clampedOverlap (marker0 marker1 : CompressedMarker) : N :=
  clamp_uint8 (position marker0 + k - position marker1).

Definition truncatedOverlap (marker0 marker1 : CompressedMarker) : N :=
  (markerEnd marker0 - position marker1) mod 256.

(** The sequence [s] is the run of bases of the oriented read [o] from
    the end of [marker0] up to, and excluding, the start of [marker1]:
    as stored on strand 0, and on strand 1 each base taken from position
    [readLength - 1 - position] and complemented, which is the reverse
    complement of the mirrored stretch of the stored read. *)
Definition basesBetweenMarkers (o : OrientedReadId)
    (marker0 marker1 : CompressedMarker) (s : Sequence) : Prop :=
  let read := reads (getReadId o) in
  let from := markerEnd marker0 in
  let to := position marker1 in
  overlappingBaseCount s = 0
  ∧ (getStrand o = 0 →
     sequence s = get read <$> positionsBetween from to
     ∧ sequence s = spec_basesBetween read 0 from to)
  ∧ (getStrand o = 1 →
     to ≤ baseCount read → baseCount read < two32 →
     sequence s = spec_basesBetween read 1 from to
     ∧ sequence s
       = reverseComplement
           (get read <$> positionsBetween (baseCount read - to)
                           (baseCount read - from))).

(** *** The scan as a fold over the pairs it accepts *)

Lemma scan_collect_app fuel it0 it1 (acc : list (MarkerInfo * MarkerInfo)) :
  scan collect fuel it0 it1 acc = acc ++ scan collect fuel it0 it1 [].
Proof.
revert it0 it1 acc. induction fuel as [|fuel IH]; intros it0 it1 acc; simpl.
- by rewrite app_nil_r.
- destruct it0 as [|m0 rest0]; [by rewrite app_nil_r|].
  destruct it1 as [|m1 rest1]; [by rewrite app_nil_r|].
  repeat case_match; try apply IH.
  rewrite IH, (IH _ _ (collect _ _ _ [])). unfold collect.
  by rewrite app_assoc.
Qed.

Lemma scan_fold {St} (accept : OrientedReadId → MarkerInfo → MarkerInfo → St → St)
    fuel it0 it1 (st : St) :
  scan accept fuel it0 it1 st
  = foldl (λ st p, accept (orientedReadId (fst p)) (fst p) (snd p) st) st
      (scan collect fuel it0 it1 []).
Proof.
revert it0 it1 st. induction fuel as [|fuel IH]; intros it0 it1 st; simpl.
- done.
- destruct it0 as [|m0 rest0]; [done|].
  destruct it1 as [|m1 rest1]; [done|].
  repeat case_match; try apply IH.
  rewrite scan_collect_app. unfold collect at 1. rewrite foldl_app. simpl.
  apply IH.
Qed.



(** The fuel of the scan is enough: each turn of the loop moves at least
    one of the two iterators, and more fuel changes nothing. *)
Lemma length_streakEnd_cons m it :
  (length (streakEnd (orientedReadId m) (m :: it)) ≤ length it)%nat.
Proof.
simpl. rewrite N.eqb_refl.
induction it as [|m' it IH]; simpl; [done|].
case_match; simpl; lia.
Qed.

Lemma scan_fuel {St} (accept : OrientedReadId → MarkerInfo → MarkerInfo → St → St)
    fuel fuel' it0 it1 (st : St) :
  (length it0 + length it1 ≤ fuel)%nat →
  (length it0 + length it1 ≤ fuel')%nat →
  scan accept fuel it0 it1 st = scan accept fuel' it0 it1 st.
Proof.
revert fuel' it0 it1 st.
induction fuel as [|fuel IH]; intros fuel' it0 it1 st H H'.
- destruct it0; [|simpl in H; lia]. destruct fuel'; [done|]. done.
- destruct fuel' as [|fuel'].
  { destruct it0; [done|simpl in H'; lia]. }
  destruct it0 as [|m0 rest0]; [done|]. destruct it1 as [|m1 rest1]; [done|].
  cbn [scan]. simpl in H, H'.
  pose proof (length_streakEnd_cons m0 rest0) as L0.
  destruct (N.ltb_spec (orientedReadId m0) (orientedReadId m1)).
  { apply IH; simpl; lia. }
  destruct (N.ltb_spec (orientedReadId m1) (orientedReadId m0)).
  { apply IH; simpl; lia. }
  assert (Heq : orientedReadId m0 = orientedReadId m1) by lia.
  pose proof (length_streakEnd_cons m1 rest1) as L1. rewrite <- Heq in L1.
  apply IH; lia.
Qed.

(** *** Which pairs of markers the scan accepts *)

(** The marker lists are ordered by oriented read. *)
Definition byRead (a b : MarkerInfo) : Prop :=
  (orientedReadId a ≤ orientedReadId b)%N.

(** The markers of oriented read [o] in a marker list. *)
Definition occurrences (o : OrientedReadId) (l : list MarkerInfo)
  : list MarkerInfo :=
  filter (λ m, orientedReadId m = o) l.

(** The three tests of the scan, stated on the whole lists. *)
Definition accepted (l0 l1 : list MarkerInfo) (m0 m1 : MarkerInfo) : Prop :=
  orientedReadId m1 = orientedReadId m0
  ∧ occurrences (orientedReadId m0) l0 = [m0]
  ∧ occurrences (orientedReadId m0) l1 = [m1]
  ∧ (ordinal m0 < ordinal m1)%N
  ∧ interveningVertexFound (markerId m0) (markerId m1) = false.

Lemma occurrences_cons_eq m l : 
  occurrences (orientedReadId m) (m :: l) = m :: occurrences (orientedReadId m) l.
Proof. unfold occurrences. by rewrite filter_cons_True. Qed.

Lemma occurrences_cons_ne o m l :
  orientedReadId m ≠ o → occurrences o (m :: l) = occurrences o l.
Proof. intros H. unfold occurrences. by rewrite filter_cons_False. Qed.

Lemma occurrences_none o l :
  Forall (λ m, orientedReadId m ≠ o) l → occurrences o l = [].
Proof.
induction 1 as [|m l Hm Hl IH]; [done|].
by rewrite occurrences_cons_ne.
Qed.

Lemma elem_of_occurrences o l m :
  m ∈ occurrences o l ↔ orientedReadId m = o ∧ m ∈ l.
Proof. unfold occurrences. by rewrite list_elem_of_filter. Qed.

(** In an ordered list whose reads are all at least [o], the streak of [o]
    is all there is of [o], and what follows has larger reads. *)
Lemma streakEnd_sorted o l :
  StronglySorted byRead l →
  Forall (λ m, (o ≤ orientedReadId m)%N) l →
  StronglySorted byRead (streakEnd o l)
  ∧ Forall (λ m, (o < orientedReadId m)%N) (streakEnd o l)
  ∧ (length l - length (streakEnd o l))%nat = length (occurrences o l)
  ∧ (length (streakEnd o l) ≤ length l)%nat
  ∧ ∀ o', o' ≠ o → occurrences o' (streakEnd o l) = occurrences o' l.
Proof.
induction 1 as [|m l Hl IH Hm]; intros Hge; simpl.
- repeat split; try done. constructor.
- apply Forall_cons in Hge as [Hom Hge].
  destruct (N.eqb_spec (orientedReadId m) o) as [Heq|Hne].
  + destruct (IH Hge) as (IH1 & IH2 & IH3 & IH4 & IH5).
    repeat split; try done.
    * subst o. rewrite occurrences_cons_eq. simpl. lia.
    * lia.
    * intros o' Ho'. rewrite occurrences_cons_ne by congruence. by apply IH5.
  + repeat split; try done.
    * by constructor.
    * constructor; [lia|]. eapply Forall_impl; [exact Hm|].
      unfold byRead. simpl. intros x Hx. lia.
    * rewrite occurrences_cons_ne by done.
      rewrite occurrences_none; [simpl; lia|].
      eapply Forall_impl; [exact Hm|]. unfold byRead. simpl. intros x Hx. lia.
Qed.

Lemma sorted_head_least m l :
  StronglySorted byRead (m :: l) →
  Forall (λ x, (orientedReadId m ≤ orientedReadId x)%N) (m :: l).
Proof.
intros H. apply StronglySorted_inv in H as [_ H].
constructor; [lia | exact H].
Qed.

Lemma accepted_elem_l l0 l1 a b : accepted l0 l1 a b → a ∈ l0.
Proof.
intros (_ & H & _).
assert (Ha : a ∈ occurrences (orientedReadId a) l0)
  by (rewrite H; apply list_elem_of_singleton; done).
by apply elem_of_occurrences in Ha as [_ ?].
Qed.

Lemma accepted_elem_r l0 l1 a b : accepted l0 l1 a b → b ∈ l1.
Proof.
intros (_ & _ & H & _).
assert (Hb : b ∈ occurrences (orientedReadId a) l1)
  by (rewrite H; apply list_elem_of_singleton; done).
by apply elem_of_occurrences in Hb as [_ ?].
Qed.

Lemma accepted_skip_l m l0 l1 a b :
  Forall (λ x, (orientedReadId m < orientedReadId x)%N) l1 →
  accepted (m :: l0) l1 a b ↔ accepted l0 l1 a b.
Proof.
intros Hlt.
assert (Hne : ∀ a b l, accepted l l1 a b → orientedReadId m ≠ orientedReadId a).
{ intros a' b' l H. pose proof (accepted_elem_r _ _ _ _ H) as Hb.
  destruct H as (Heq & _). rewrite <- Heq.
  rewrite Forall_forall in Hlt. specialize (Hlt _ Hb). lia. }
split; intros H; pose proof (Hne _ _ _ H) as Hm;
  destruct H as (H1 & H2 & H3 & H4 & H5); repeat split; try done.
- by rewrite occurrences_cons_ne in H2.
- by rewrite occurrences_cons_ne.
Qed.

Lemma accepted_skip_r m l0 l1 a b :
  Forall (λ x, (orientedReadId m < orientedReadId x)%N) l0 →
  accepted l0 (m :: l1) a b ↔ accepted l0 l1 a b.
Proof.
intros Hlt.
assert (Hne : ∀ a b l, accepted l0 l a b → orientedReadId m ≠ orientedReadId a).
{ intros a' b' l H. pose proof (accepted_elem_l _ _ _ _ H) as Ha.
  rewrite Forall_forall in Hlt. specialize (Hlt _ Ha). lia. }
split; intros H; pose proof (Hne _ _ _ H) as Hm;
  destruct H as (H1 & H2 & H3 & H4 & H5); repeat split; try done.
- by rewrite occurrences_cons_ne in H3.
- by rewrite occurrences_cons_ne.
Qed.


Lemma accepted_nil_l l1 a b : ¬ accepted [] l1 a b.
Proof. intros H. apply accepted_elem_l in H. by apply elem_of_nil in H. Qed.

Lemma accepted_nil_r l0 a b : ¬ accepted l0 [] a b.
Proof. intros H. apply accepted_elem_r in H. by apply elem_of_nil in H. Qed.

(** When the two lists start with the same oriented read [o], a pair is
    accepted either for [o] itself, and then it is the pair of the two
    heads, each alone in its list, or after the two streaks. *)
Lemma accepted_streak m0 rest0 m1 rest1 a b :
  let o := orientedReadId m0 in
  orientedReadId m1 = o →
  StronglySorted byRead (m0 :: rest0) →
  StronglySorted byRead (m1 :: rest1) →
  accepted (m0 :: rest0) (m1 :: rest1) a b
  ↔ (a = m0 ∧ b = m1
      ∧ length (occurrences o (m0 :: rest0)) = 1%nat
      ∧ length (occurrences o (m1 :: rest1)) = 1%nat
      ∧ (ordinal m0 < ordinal m1)%N
      ∧ interveningVertexFound (markerId m0) (markerId m1) = false)
    ∨ accepted (streakEnd o (m0 :: rest0)) (streakEnd o (m1 :: rest1)) a b.
Proof.
intros o Ho1 Hs0 Hs1.
destruct (streakEnd_sorted o _ Hs0 (sorted_head_least _ _ Hs0))
  as (_ & E0 & _ & _ & O0).
assert (Hge1 : Forall (λ m, (o ≤ orientedReadId m)%N) (m1 :: rest1)).
{ rewrite <- Ho1. by apply sorted_head_least. }
destruct (streakEnd_sorted o _ Hs1 Hge1) as (_ & E1 & _ & _ & O1).
assert (Hocc0 : occurrences o (m0 :: rest0) = m0 :: occurrences o rest0)
  by apply occurrences_cons_eq.
assert (Hocc1 : occurrences o (m1 :: rest1) = m1 :: occurrences o rest1)
  by (rewrite <- Ho1; apply occurrences_cons_eq).
split.
- intros H. destruct (decide (orientedReadId a = o)) as [Ha|Ha].
  + left. destruct H as (H1 & H2 & H3 & H4 & H5).
    rewrite Ha in H2, H3. rewrite Hocc0 in H2. rewrite Hocc1 in H3.
    injection H2 as -> H2. injection H3 as -> H3.
    rewrite Hocc0, Hocc1, H2, H3. done.
  + right. destruct H as (H1 & H2 & H3 & H4 & H5).
    repeat split; try done.
    * by rewrite O0.
    * by rewrite O1.
- intros [(-> & -> & L0 & L1 & Hord & Hint) | H].
  + fold o. rewrite Hocc0 in L0. rewrite Hocc1 in L1.
    repeat split; try done.
    * fold o. rewrite Hocc0. f_equal. apply nil_length_inv. simpl in L0. lia.
    * fold o. rewrite Hocc1. f_equal. apply nil_length_inv. simpl in L1. lia.
  + pose proof (accepted_elem_l _ _ _ _ H) as Ha.
    rewrite Forall_forall in E0. specialize (E0 _ Ha).
    assert (Hne : orientedReadId a ≠ o) by lia.
    destruct H as (H1 & H2 & H3 & H4 & H5).
    repeat split; try done.
    * by rewrite <- O0.
    * by rewrite <- O1.
Qed.

Lemma scan_collect_spec fuel l0 l1 a b :
  StronglySorted byRead l0 → StronglySorted byRead l1 →
  (length l0 + length l1 ≤ fuel)%nat →
  (a, b) ∈ scan collect fuel l0 l1 [] ↔ accepted l0 l1 a b.
Proof.
revert l0 l1. induction fuel as [|fuel IH]; intros l0 l1 Hs0 Hs1 Hfuel.
- destruct l0; [|simpl in Hfuel; lia]. simpl. split.
  + intros H. by apply elem_of_nil in H.
  + intros H. by apply accepted_nil_l in H.
- destruct l0 as [|m0 rest0].
  { simpl. split; intros H; [by apply elem_of_nil in H | by apply accepted_nil_l in H]. }
  destruct l1 as [|m1 rest1].
  { simpl. split; intros H; [by apply elem_of_nil in H | by apply accepted_nil_r in H]. }
  cbn [scan]. simpl in Hfuel.
  destruct (N.ltb_spec (orientedReadId m0) (orientedReadId m1)) as [Hlt|Hge].
  { rewrite IH; [|by apply StronglySorted_inv in Hs0 as [? _]|done|simpl; lia].
    symmetry. apply accepted_skip_l.
    eapply Forall_impl; [apply (sorted_head_least _ _ Hs1)|].
    simpl. intros x Hx. lia. }
  destruct (N.ltb_spec (orientedReadId m1) (orientedReadId m0)) as [Hlt|Hge'].
  { rewrite IH; [|done|by apply StronglySorted_inv in Hs1 as [? _]|simpl; lia].
    symmetry. apply accepted_skip_r.
    eapply Forall_impl; [apply (sorted_head_least _ _ Hs0)|].
    simpl. intros x Hx. lia. }
  assert (Ho1 : orientedReadId m1 = orientedReadId m0) by lia.
  set (o := orientedReadId m0) in *.
  destruct (streakEnd_sorted o _ Hs0 (sorted_head_least _ _ Hs0))
    as (S0 & _ & L0 & B0 & _).
  assert (Hge1 : Forall (λ m, (o ≤ orientedReadId m)%N) (m1 :: rest1)).
  { rewrite <- Ho1. by apply sorted_head_least. }
  destruct (streakEnd_sorted o _ Hs1 Hge1) as (S1 & _ & L1 & B1 & _).
  assert (P0 : (1 ≤ length (occurrences o (m0 :: rest0)))%nat).
  { unfold o. rewrite occurrences_cons_eq. simpl. lia. }
  assert (P1 : (1 ≤ length (occurrences o (m1 :: rest1)))%nat).
  { rewrite <- Ho1. rewrite occurrences_cons_eq. simpl. lia. }
  rewrite scan_collect_app, elem_of_app.
  rewrite IH; [|done|done|simpl in *; lia].
  rewrite (accepted_streak m0 rest0 m1 rest1 a b Ho1 Hs0 Hs1). fold o.
  rewrite L0, L1.
  assert (Hhead :
    (a, b) ∈ (if bool_decide (length (occurrences o (m0 :: rest0)) = 1%nat)
                 && bool_decide (length (occurrences o (m1 :: rest1)) = 1%nat)
                 && (ordinal m0 <? ordinal m1)%N
              then if interveningVertexFound (markerId m0) (markerId m1)
                   then [] else collect o m0 m1 []
              else [])
    ↔ (a = m0 ∧ b = m1
       ∧ length (occurrences o (m0 :: rest0)) = 1%nat
       ∧ length (occurrences o (m1 :: rest1)) = 1%nat
       ∧ (ordinal m0 < ordinal m1)%N
       ∧ interveningVertexFound (markerId m0) (markerId m1) = false)).
  { repeat case_bool_decide; simpl;
      destruct (N.ltb_spec (ordinal m0) (ordinal m1)); simpl;
      try (split; [intros H'; by apply elem_of_nil in H' | intros (?&?&?&?&?&?); lia]).
    destruct (interveningVertexFound (markerId m0) (markerId m1)).
    - split; [intros H'; by apply elem_of_nil in H' | intros (?&?&?&?&?&?); done].
    - unfold collect. simpl. rewrite list_elem_of_singleton. split.
      + intros [= -> ->]. done.
      + intros (-> & -> & _). done. }
  rewrite Hhead. done.
Qed.

Lemma acceptedPairs_spec l0 l1 a b :
  Sorted byRead l0 → Sorted byRead l1 →
  (a, b) ∈ acceptedPairs l0 l1 ↔ accepted l0 l1 a b.
Proof.
intros Hs0 Hs1. unfold acceptedPairs.
assert (Htrans : Transitive byRead).
{ intros x y z. unfold byRead. lia. }
apply scan_collect_spec; [by apply Sorted_StronglySorted..|done].
Qed.


(** Without any assumption on the order of the lists, an accepted pair is
    made of a marker of each list, of the same oriented read, with
    increasing ordinals and no vertex in between. *)
Lemma elem_of_streakEnd o l x : x ∈ streakEnd o l → x ∈ l.
Proof.
induction l as [|m l IH]; simpl; [done|].
case_match; [|done]. intros Hx. apply elem_of_cons. right. by apply IH.
Qed.

Lemma length_streakEnd o l : (length (streakEnd o l) ≤ length l)%nat.
Proof.
induction l as [|m l IH]; simpl; [done|].
case_match; simpl; lia.
Qed.

Lemma scan_collect_elem fuel l0 l1 a b :
  (a, b) ∈ scan collect fuel l0 l1 [] →
  a ∈ l0 ∧ b ∈ l1 ∧ orientedReadId b = orientedReadId a
  ∧ (ordinal a < ordinal b)%N
  ∧ interveningVertexFound (markerId a) (markerId b) = false.
Proof.
revert l0 l1. induction fuel as [|fuel IH]; intros l0 l1; simpl.
{ intros H. by apply elem_of_nil in H. }
destruct l0 as [|m0 rest0]; [intros H; by apply elem_of_nil in H|].
destruct l1 as [|m1 rest1]; [intros H; by apply elem_of_nil in H|].
destruct (N.ltb_spec (orientedReadId m0) (orientedReadId m1)) as [Hlt|Hge].
{ intros H. apply IH in H as (? & ? & ?). split; [|done].
  apply elem_of_cons. by right. }
destruct (N.ltb_spec (orientedReadId m1) (orientedReadId m0)) as [Hlt|Hge'].
{ intros H. apply IH in H as (? & ? & ?). split; [done|]. split; [|done].
  apply elem_of_cons. by right. }
rewrite scan_collect_app, elem_of_app. intros [Hab|Hab].
- repeat case_match; try by apply elem_of_nil in Hab.
  unfold collect in Hab. simpl in Hab. apply list_elem_of_singleton in Hab.
  injection Hab as -> ->.
  repeat (match goal with
          | Hc : _ && _ = true |- _ => apply andb_prop in Hc as [? ?]
          end).
  repeat split.
  + apply elem_of_cons. by left.
  + apply elem_of_cons. by left.
  + lia.
  + by apply N.ltb_lt.
  + done.
- apply IH in Hab as (H0 & H1 & ?). split; [|split; [|done]].
  + eapply elem_of_streakEnd, H0.
  + eapply elem_of_streakEnd, H1.
Qed.

(** *** The loops as list expressions *)

Lemma positionsBetween_nil from to : (to ≤ from)%N → positionsBetween from to = [].
Proof.
intros H. unfold positionsBetween.
replace (to - from)%N with 0%N by lia. done.
Qed.

Lemma positionsBetween_cons from to :
  (from < to)%N →
  positionsBetween from to = from :: positionsBetween (from + 1) to.
Proof.
intros H. unfold positionsBetween.
replace (N.to_nat (to - from)) with (S (N.to_nat (to - (from + 1)))) by lia.
rewrite <- cons_seq, fmap_cons. f_equal; [lia|].
rewrite <- fmap_S_seq, <- list_fmap_compose.
apply list_fmap_ext. intros _ i _. simpl. lia.
Qed.

Lemma length_positionsBetween from to :
  length (positionsBetween from to) = N.to_nat (to - from).
Proof. unfold positionsBetween. by rewrite length_fmap, length_seq. Qed.

Lemma lookup_positionsBetween from to (i : nat) :
  (i < N.to_nat (to - from))%nat →
  positionsBetween from to !! i = Some (from + N.of_nat i)%N.
Proof.
intros H. unfold positionsBetween.
rewrite list_lookup_fmap, lookup_seq_lt by done. done.
Qed.

Lemma gapLoop_map o read readLength fuel position stop :
  (position ≤ stop)%N → (stop < two32)%N →
  fuel = N.to_nat (stop - position) →
  gapLoop o read readLength fuel position stop
  = (λ position,
       if (getStrand o =? 0)%N then get read position
       else complement (get read (sub32 (sub32 readLength 1) position)))
    <$> positionsBetween position stop.
Proof.
revert position. induction fuel as [|fuel IH]; intros position Hle Hstop Hfuel.
- rewrite positionsBetween_nil by lia. done.
- assert (Hlt : (position < stop)%N) by lia.
  simpl. destruct (N.eqb_spec position stop) as [->|_]; [lia|].
  rewrite positionsBetween_cons, fmap_cons by done.
  rewrite add32_small by lia.
  f_equal. apply IH; lia.
Qed.

Lemma interveningLoop_false fuel markerId markerId1 :
  (markerId ≤ markerId1)%N → (markerId1 < two64)%N →
  (N.to_nat (markerId1 - markerId) ≤ fuel)%nat →
  interveningLoop fuel markerId markerId1 = false
  ↔ ∀ m, (markerId ≤ m < markerId1)%N →
         globalMarkerGraphVertex m = invalidCompressedGlobalMarkerGraphVertexId.
Proof.
revert markerId. induction fuel as [|fuel IH]; intros markerId Hle Hlt Hfuel.
- simpl. split; [|done]. intros _ m Hm. lia.
- simpl. destruct (N.eqb_spec markerId markerId1) as [->|Hne].
  { split; [|done]. intros _ m Hm. lia. }
  destruct (N.eqb_spec (globalMarkerGraphVertex markerId)
              invalidCompressedGlobalMarkerGraphVertexId) as [Heq|Hneq]; simpl.
  + rewrite succ64_small by lia. rewrite IH by lia. split.
    * intros H m Hm. destruct (decide (m = markerId)) as [->|?]; [done|].
      apply H. lia.
    * intros H m Hm. apply H. lia.
  + split; [done|]. intros H. exfalso. apply Hneq, H. lia.
Qed.

Lemma interveningVertexFound_false markerId0 markerId1 :
  (markerId0 < markerId1)%N → (markerId1 < two64)%N →
  interveningVertexFound markerId0 markerId1 = false
  ↔ ∀ m, (markerId0 < m < markerId1)%N →
         globalMarkerGraphVertex m = invalidCompressedGlobalMarkerGraphVertexId.
Proof.
intros Hlt H64. unfold interveningVertexFound.
rewrite succ64_small by lia. rewrite sub64_small by lia.
rewrite interveningLoop_false by lia.
split; intros H m Hm; apply H; lia.
Qed.


(** *** The sequence of one observation *)

Lemma fillSequence_overlap o marker0 marker1 :
  (position marker0 + k < two32)%N →
  (position marker1 ≤ position marker0 + k)%N →
  fillSequence o marker0 marker1
  = {| sequence := [];
       overlappingBaseCount :=
         to_uint8 (position marker0 + k - position marker1) |}.
Proof.
intros H32 Hle. unfold fillSequence.
rewrite add32_small by done.
destruct (N.leb_spec (position marker1) (position marker0 + k)); [|lia].
rewrite sub32_small by done. done.
Qed.

Lemma fillSequence_gap o marker0 marker1 :
  (position marker0 + k < position marker1)%N →
  (position marker1 < two32)%N →
  fillSequence o marker0 marker1
  = {| sequence :=
         (λ position,
            if (getStrand o =? 0)%N then get (reads (getReadId o)) position
            else complement
                   (get (reads (getReadId o))
                      (sub32 (sub32 (baseCount (reads (getReadId o)) mod two32) 1)
                         position)))
         <$> positionsBetween (position marker0 + k) (position marker1);
       overlappingBaseCount := 0 |}.
Proof.
intros Hlt H32. unfold fillSequence.
rewrite add32_small by lia.
destruct (N.leb_spec (position marker1) (position marker0 + k)); [lia|].
f_equal. apply gapLoop_map; [lia|done|].
rewrite sub32_small by lia. done.
Qed.

(** The same with the sum [position0 + k] as the code computes it. *)
Lemma fillSequence_overlap_end o marker0 marker1 :
  (position marker1 ≤ markerEnd marker0)%N →
  fillSequence o marker0 marker1
  = {| sequence := [];
       overlappingBaseCount := truncatedOverlap marker0 marker1 |}.
Proof.
intros Hle. unfold fillSequence, truncatedOverlap, markerEnd in *.
destruct (N.leb_spec (position marker1) (add32 (position marker0) k)); [|lia].
rewrite sub32_small by (done || apply add32_lt). done.
Qed.

Lemma fillSequence_gap_end o marker0 marker1 :
  (markerEnd marker0 < position marker1)%N →
  (position marker1 < two32)%N →
  fillSequence o marker0 marker1
  = {| sequence :=
         (λ position,
            if (getStrand o =? 0)%N then get (reads (getReadId o)) position
            else complement
                   (get (reads (getReadId o))
                      (sub32 (sub32 (baseCount (reads (getReadId o)) mod two32) 1)
                         position)))
         <$> positionsBetween (markerEnd marker0) (position marker1);
       overlappingBaseCount := 0 |}.
Proof.
intros Hlt H32. unfold fillSequence, markerEnd in *.
destruct (N.leb_spec (position marker1) (add32 (position marker0) k)); [lia|].
f_equal. apply gapLoop_map; [lia|done|].
rewrite sub32_small by lia. done.
Qed.

(** Which of the two representations [fillSequence] builds. *)
Lemma fillSequence_cases o marker0 marker1 :
  (position marker1 < two32)%N →
  let s := fillSequence o marker0 marker1 in
  if (position marker1 <=? add32 (position marker0) k)%N
  then sequence s = []
  else sequence s ≠ [] ∧ overlappingBaseCount s = 0%N.
Proof.
intros H32. unfold fillSequence. simpl.
destruct (N.leb_spec (position marker1) (add32 (position marker0) k)) as [Hle|Hgt];
  simpl; [done|].
split; [|done].
pose proof (add32_lt (position marker0) k) as Hend.
rewrite sub32_small by lia.
destruct (N.to_nat (position marker1 - add32 (position marker0) k)) eqn:Hn; [lia|].
simpl. destruct (N.eqb_spec (add32 (position marker0) k) (position marker1)); [lia|done].
Qed.

Lemma reverseComplement_positions read L from to :
  (from ≤ to)%N → (to ≤ L)%N →
  (λ position, complement (get read (L - 1 - position))) <$> positionsBetween from to
  = reverseComplement (get read <$> positionsBetween (L - to) (L - from)).
Proof.
intros Hft HtL. unfold reverseComplement. apply list_eq. intros i.
rewrite !list_lookup_fmap.
destruct (decide (i < N.to_nat (to - from))%nat) as [Hi|Hi].
- rewrite lookup_positionsBetween by done.
  rewrite reverse_lookup
    by (rewrite length_fmap, length_positionsBetween; lia).
  rewrite list_lookup_fmap, length_fmap, length_positionsBetween.
  rewrite lookup_positionsBetween by lia.
  simpl. do 3 f_equal. lia.
- rewrite !lookup_ge_None_2; [done| |].
  + rewrite length_reverse, length_fmap, length_positionsBetween. lia.
  + rewrite length_positionsBetween. lia.
Qed.

Lemma fillSequence_basesBetween o marker0 marker1 :
  (markerEnd marker0 < position marker1)%N →
  (position marker1 < two32)%N →
  basesBetweenMarkers o marker0 marker1 (fillSequence o marker0 marker1).
Proof.
intros Hlt H32. unfold basesBetweenMarkers.
rewrite fillSequence_gap_end by done. simpl.
split; [done|]. split.
- intros Hstrand. rewrite Hstrand. simpl. done.
- intros Hstrand HtoL HL. rewrite Hstrand. simpl.
  set (read := reads (getReadId o)) in *.
  assert (Hmap :
    (λ position,
       complement (get read (sub32 (sub32 (baseCount read mod two32) 1) position)))
    <$> positionsBetween (markerEnd marker0) (position marker1)
    = (λ position, complement (get read (baseCount read - 1 - position)))
    <$> positionsBetween (markerEnd marker0) (position marker1)).
  { apply list_eq. intros j. rewrite !list_lookup_fmap.
    destruct (decide (j < N.to_nat (position marker1 - markerEnd marker0))%nat)
      as [Hj|Hj].
    - rewrite lookup_positionsBetween by done. simpl. do 3 f_equal.
      rewrite N.mod_small by done.
      rewrite (sub32_small (baseCount read) 1) by lia.
      rewrite sub32_small by lia. done.
    - rewrite lookup_ge_None_2; [done|]. rewrite length_positionsBetween. lia. }
  rewrite Hmap. split; [done|].
  apply reverseComplement_positions; lia.
Qed.

(** *** What the two overloads leave in the edge *)

Lemma scannedInfos_contributes vertex0 vertex1 s i :
  contributes (scannedInfos vertex0 vertex1) s i
  ↔ ∃ m0 m1,
      (m0, m1) ∈ acceptedPairs (markerInfos vertex0) (markerInfos vertex1)
      ∧ i = infoOfPair (m0, m1)
      ∧ s = fillSequence (orientedReadId m0)
              (markers (markerId m0)) (markers (markerId m1)).
Proof.
unfold scannedInfos. rewrite contributes_sort, scan_fold.
rewrite (contributes_foldl _
  (λ p, fillSequence (orientedReadId (fst p))
          (markers (markerId (fst p))) (markers (markerId (snd p))))
  infoOfPair) by done.
split.
- intros [H|([m0 m1] & Hin & -> & ->)]; [by apply contributes_nil in H|].
  by exists m0, m1.
- intros (m0 & m1 & Hin & -> & ->). right. by exists (m0, m1).
Qed.

Lemma givenInfos_contributes infoVector s i :
  contributes (givenInfos infoVector) s i
  ↔ i ∈ infoVector
    ∧ s = fillSequence (info_orientedReadId i)
            (markers (markersBegin (getValue (info_orientedReadId i)) + ordinals0 i))
            (markers (markersBegin (getValue (info_orientedReadId i)) + ordinals1 i)).
Proof.
unfold givenInfos. rewrite contributes_sort.
rewrite (contributes_foldl _
  (λ i, fillSequence (info_orientedReadId i)
          (markers (markersBegin (getValue (info_orientedReadId i)) + ordinals0 i))
          (markers (markersBegin (getValue (info_orientedReadId i)) + ordinals1 i)))
  id) by done.
split.
- intros [H|(x & Hin & -> & ->)]; [by apply contributes_nil in H|]. done.
- intros [Hin ->]. right. by exists i.
Qed.

Lemma scannedInfos_scannedFrom vertex0 vertex1 s i :
  contributes (scannedInfos vertex0 vertex1) s i →
  ∃ marker0 marker1,
    scannedFrom vertex0 vertex1 i marker0 marker1
    ∧ s = fillSequence (info_orientedReadId i) marker0 marker1.
Proof.
rewrite scannedInfos_contributes. intros (m0 & m1 & Hin & -> & ->).
apply scan_collect_elem in Hin as (H0 & H1 & Heq & _).
exists (markers (markerId m0)), (markers (markerId m1)).
split; [|done]. by exists m0, m1.
Qed.

Lemma storeEdgeInfo_edgeInfos graph e vertex0 vertex1 :
  endVertices graph e = Some (vertex0, vertex1) →
  ∃ graph', storeEdgeInfo e graph = Some graph'
            ∧ edgeInfos graph' e = scannedInfos vertex0 vertex1.
Proof.
unfold endVertices, storeEdgeInfo, edgeInfos. intros H.
destruct (edges graph !! e) as [se|] eqn:He; simpl in *; [|done].
destruct (vertices graph !! source se) as [v0|]; simpl in *; [|done].
destruct (vertices graph !! target se) as [v1|]; simpl in *; [|done].
injection H as -> ->. eexists. split; [done|]. simpl.
rewrite list_lookup_insert_eq by (by eapply lookup_lt_Some). done.
Qed.

Lemma storeEdgeInfoFrom_edgeInfos graph e infoVector :
  is_Some (edges graph !! e) →
  ∃ graph', storeEdgeInfoFrom e infoVector graph = Some graph'
            ∧ edgeInfos graph' e = givenInfos infoVector.
Proof.
unfold storeEdgeInfoFrom, edgeInfos. intros [se He]. rewrite He. simpl.
eexists. split; [done|]. simpl.
rewrite list_lookup_insert_eq by (by eapply lookup_lt_Some). done.
Qed.


Lemma fillSequence_exclusive o marker0 marker1 :
  (position marker1 < two32)%N →
  exclusiveRepresentation (fillSequence o marker0 marker1) marker0 marker1.
Proof.
intros H32. split; [|split].
- pose proof (fillSequence_cases o marker0 marker1 H32) as H. simpl in H.
  destruct (position marker1 <=? add32 (position marker0) k)%N; [by left|by right].
- intros Hk Heq. rewrite fillSequence_overlap by lia.
  unfold abutting. f_equal. replace (_ - _)%N with 0%N by lia. done.
- intros Hlt. rewrite fillSequence_gap by done. simpl.
  assert (Hne : positionsBetween (position marker0 + k) (position marker1) ≠ []).
  { rewrite positionsBetween_cons by done. done. }
  split; [|split; [done|]].
  + intros Hnil. apply fmap_nil_inv in Hnil. done.
  + rewrite sameKey_eq. unfold abutting. intros [= Hnil].
    apply fmap_nil_inv in Hnil. done.
Qed.

Lemma foldl_ext_in {X Y} (f g : Y → X → Y) (l : list X) (y : Y) :
  (∀ x y, x ∈ l → f y x = g y x) → foldl f y l = foldl g y l.
Proof.
revert y. induction l as [|x l IH]; intros y H; simpl; [done|].
rewrite H by (apply elem_of_cons; by left).
apply IH. intros x' y' Hx'. apply H. apply elem_of_cons. by right.
Qed.

Lemma givenInfos_acceptedInfos vertex0 vertex1 :
  consistentVertex vertex0 → consistentVertex vertex1 →
  givenInfos (acceptedInfos vertex0 vertex1) = scannedInfos vertex0 vertex1.
Proof.
intros Hc0 Hc1. unfold givenInfos, scannedInfos, acceptedInfos. f_equal.
rewrite scan_fold, foldl_fmap. fold (acceptedPairs (markerInfos vertex0) (markerInfos vertex1)).
apply foldl_ext_in. intros [m0 m1] t Hin.
apply scan_collect_elem in Hin as (H0 & H1 & Heq & _).
unfold consistentVertex in *. rewrite Forall_forall in Hc0, Hc1.
destruct (Hc0 _ H0) as [E0 _]. destruct (Hc1 _ H1) as [E1 _].
unfold storeGiven, storeScanned, infoOfPair. simpl.
rewrite <- E0. rewrite <- Heq, <- E1. done.
Qed.

(** *** The claims on sequence aggregation *)

(** C3.  The first overload of [storeEdgeInfo] stores an observation of an
    oriented read exactly when that read has one marker in each of the two
    vertices, the ordinal of the one in the source vertex is smaller than
    the ordinal of the one in the target vertex, and no marker id strictly
    between the two belongs to a vertex of the global marker graph.  The
    marker lists are ordered by oriented read and filled in as [addVertex]
    does. *)
Theorem storeEdgeInfo_accepts_iff graph e vertex0 vertex1 :
  endVertices graph e = Some (vertex0, vertex1) →
  Sorted byRead (markerInfos vertex0) →
  Sorted byRead (markerInfos vertex1) →
  consistentVertex vertex0 → consistentVertex vertex1 →
  ∃ graph', storeEdgeInfo e graph = Some graph' ∧
    ∀ o : OrientedReadId,
      (∃ s i, contributes (edgeInfos graph' e) s i ∧ info_orientedReadId i = o)
      ↔ (∃ m0 m1,
           occurrences o (markerInfos vertex0) = [m0]
           ∧ occurrences o (markerInfos vertex1) = [m1]
           ∧ (ordinal m0 < ordinal m1)%N
           ∧ ∀ m, (markerId m0 < m < markerId m1)%N →
                  globalMarkerGraphVertex m
                  = invalidCompressedGlobalMarkerGraphVertexId).
Proof.
intros Hends Hs0 Hs1 Hc0 Hc1.
destruct (storeEdgeInfo_edgeInfos _ _ _ _ Hends) as (graph' & Hstore & Hinfos).
exists graph'. split; [done|]. intros o. rewrite Hinfos.
unfold consistentVertex in *. rewrite Forall_forall in Hc0, Hc1.
assert (Hids : ∀ m0 m1, m0 ∈ markerInfos vertex0 → m1 ∈ markerInfos vertex1 →
  orientedReadId m1 = orientedReadId m0 → (ordinal m0 < ordinal m1)%N →
  (markerId m0 < markerId m1)%N ∧ (markerId m1 < two64)%N).
{ intros m0 m1 H0 H1 Heq Hord.
  destruct (Hc0 _ H0) as [E0 _]. destruct (Hc1 _ H1) as [E1 B1].
  rewrite E0, E1, Heq. split; [lia|]. rewrite <- Heq, <- E1. done. }
split.
- intros (s & i & Hcontr & Ho).
  apply scannedInfos_contributes in Hcontr as (m0 & m1 & Hin & -> & _).
  simpl in Ho. subst o.
  pose proof Hin as Hacc. apply acceptedPairs_spec in Hacc; [|done..].
  pose proof Hacc as (Heq & O0 & O1 & Hord & Hint).
  exists m0, m1. repeat split; try done.
  apply interveningVertexFound_false; [| |done].
  + eapply Hids; eauto using accepted_elem_l, accepted_elem_r.
  + eapply Hids; eauto using accepted_elem_l, accepted_elem_r.
- intros (m0 & m1 & O0 & O1 & Hord & Hint).
  assert (H0 : m0 ∈ occurrences o (markerInfos vertex0))
    by (rewrite O0; by apply list_elem_of_singleton).
  assert (H1 : m1 ∈ occurrences o (markerInfos vertex1))
    by (rewrite O1; by apply list_elem_of_singleton).
  apply elem_of_occurrences in H0 as [R0 H0].
  apply elem_of_occurrences in H1 as [R1 H1].
  destruct (Hids m0 m1 H0 H1 ltac:(congruence) Hord) as [Hlt H64].
  exists (fillSequence (orientedReadId m0)
            (markers (markerId m0)) (markers (markerId m1))),
         (infoOfPair (m0, m1)).
  split; [|done].
  apply scannedInfos_contributes. exists m0, m1. split; [|done].
  apply acceptedPairs_spec; [done..|].
  repeat split; try congruence; try done.
  by apply interveningVertexFound_false.
Qed.

(** C4.  The first overload stores the observation of every read it
    accepts, and stores nothing else.  When the markers of an accepted
    read neither overlap nor abut, the sequence the observation is stored
    under has overlap count 0 and its bases are those of the read at the
    positions from the end of the first marker up to, and excluding, the
    start of the second: as stored on strand 0, and on strand 1 taken from
    position [readLength - 1 - position] and complemented, which is the
    reverse complement of the mirrored stretch of the stored read.  The
    accepted reads are the pairs of markers that pass the three tests of
    the scan, which C3 characterises, and the end of the first marker is
    the 32 bit sum [position0 + k] of the code. *)
Theorem storeEdgeInfo_gap_sequence graph e vertex0 vertex1 :
  endVertices graph e = Some (vertex0, vertex1) →
  ∃ graph', storeEdgeInfo e graph = Some graph'
    ∧ (∀ m0 m1,
         (m0, m1) ∈ acceptedPairs (markerInfos vertex0) (markerInfos vertex1) →
         let marker0 := markers (markerId m0) in
         let marker1 := markers (markerId m1) in
         (markerEnd marker0 < position marker1)%N →
         (position marker1 < two32)%N →
         ∃ s, contributes (edgeInfos graph' e) s (infoOfPair (m0, m1))
              ∧ basesBetweenMarkers (orientedReadId m0) marker0 marker1 s)
    ∧ (∀ s i, contributes (edgeInfos graph' e) s i →
         ∃ m0 m1,
           (m0, m1) ∈ acceptedPairs (markerInfos vertex0) (markerInfos vertex1)
           ∧ i = infoOfPair (m0, m1)
           ∧ let marker0 := markers (markerId m0) in
             let marker1 := markers (markerId m1) in
             ((markerEnd marker0 < position marker1)%N →
              (position marker1 < two32)%N →
              basesBetweenMarkers (orientedReadId m0) marker0 marker1 s))
    ∧ (∀ marker0,
         (position marker0 + k < two32)%N →
         markerEnd marker0 = (position marker0 + k)%N).
Proof.
intros Hends.
destruct (storeEdgeInfo_edgeInfos _ _ _ _ Hends) as (graph' & Hstore & Hinfos).
exists graph'. split; [done|]. rewrite Hinfos. split; [|split].
- intros m0 m1 Hacc marker0 marker1 Hlt H32.
  exists (fillSequence (orientedReadId m0) marker0 marker1). split.
  + apply scannedInfos_contributes. by exists m0, m1.
  + by apply fillSequence_basesBetween.
- intros s i Hcontr.
  apply scannedInfos_contributes in Hcontr as (m0 & m1 & Hacc & -> & ->).
  exists m0, m1. split; [done|]. split; [done|].
  intros marker0 marker1 Hlt H32. by apply fillSequence_basesBetween.
- intros marker0 H32. unfold markerEnd. by rewrite add32_small.
Qed.

(** C5, as amended.  Either overload stores the observation of every read
    it accepts (the second one: of every read it is given), and stores
    nothing else.  When the markers of such a read overlap or abut, the
    sequence the observation is stored under has no bases and its overlap
    count is [position0 + k - position1] reduced modulo 256, which is what
    the conversion to [uint8_t] does: a count above 255 is truncated, not
    clamped.  The sum [position0 + k] is the 32 bit sum of the code; it is
    the sum of the two numbers when that is less than [2^32]. *)
Theorem storeEdgeInfo_overlap_truncated graph e vertex0 vertex1 infoVector :
  endVertices graph e = Some (vertex0, vertex1) →
  (∃ graph', storeEdgeInfo e graph = Some graph'
     ∧ (∀ m0 m1,
          (m0, m1) ∈ acceptedPairs (markerInfos vertex0) (markerInfos vertex1) →
          let marker0 := markers (markerId m0) in
          let marker1 := markers (markerId m1) in
          (position marker1 ≤ markerEnd marker0)%N →
          contributes (edgeInfos graph' e)
            {| sequence := [];
               overlappingBaseCount := truncatedOverlap marker0 marker1 |}
            (infoOfPair (m0, m1)))
     ∧ (∀ s i, contributes (edgeInfos graph' e) s i →
          ∃ m0 m1,
            (m0, m1) ∈ acceptedPairs (markerInfos vertex0) (markerInfos vertex1)
            ∧ i = infoOfPair (m0, m1)
            ∧ let marker0 := markers (markerId m0) in
              let marker1 := markers (markerId m1) in
              ((position marker1 ≤ markerEnd marker0)%N →
               overlappingBaseCount s = truncatedOverlap marker0 marker1
               ∧ sequence s = [])))
  ∧ (∃ graph', storeEdgeInfoFrom e infoVector graph = Some graph'
     ∧ (∀ i marker0 marker1,
          i ∈ infoVector → givenFrom i marker0 marker1 →
          (position marker1 ≤ markerEnd marker0)%N →
          contributes (edgeInfos graph' e)
            {| sequence := [];
               overlappingBaseCount := truncatedOverlap marker0 marker1 |}
            i)
     ∧ (∀ s i, contributes (edgeInfos graph' e) s i →
          i ∈ infoVector
          ∧ ∀ marker0 marker1,
              givenFrom i marker0 marker1 →
              (position marker1 ≤ markerEnd marker0)%N →
              overlappingBaseCount s = truncatedOverlap marker0 marker1
              ∧ sequence s = []))
  ∧ (∀ marker0 marker1,
       (position marker0 + k < two32)%N →
       markerEnd marker0 = (position marker0 + k)%N
       ∧ truncatedOverlap marker0 marker1
         = ((position marker0 + k - position marker1) mod 256)%N).
Proof.
intros Hends. split; [|split].
- destruct (storeEdgeInfo_edgeInfos _ _ _ _ Hends) as (graph' & Hstore & Hinfos).
  exists graph'. split; [done|]. rewrite Hinfos. split.
  + intros m0 m1 Hacc marker0 marker1 Hle.
    rewrite <- (fillSequence_overlap_end (orientedReadId m0)) by done.
    apply scannedInfos_contributes. by exists m0, m1.
  + intros s i Hcontr.
    apply scannedInfos_contributes in Hcontr as (m0 & m1 & Hacc & -> & ->).
    exists m0, m1. split; [done|]. split; [done|].
    intros marker0 marker1 Hle. by rewrite fillSequence_overlap_end.
- assert (He : is_Some (edges graph !! e)).
  { unfold endVertices in Hends. destruct (edges graph !! e); [by eexists|done]. }
  destruct (storeEdgeInfoFrom_edgeInfos graph e infoVector He)
    as (graph' & Hstore & Hinfos).
  exists graph'. split; [done|]. rewrite Hinfos. split.
  + intros i marker0 marker1 Hin [-> ->] Hle.
    rewrite <- (fillSequence_overlap_end (info_orientedReadId i)) by done.
    by apply givenInfos_contributes.
  + intros s i Hcontr.
    apply givenInfos_contributes in Hcontr as [Hin ->].
    split; [done|]. intros marker0 marker1 [-> ->] Hle.
    by rewrite fillSequence_overlap_end.
- intros marker0 marker1 H32. unfold truncatedOverlap, markerEnd.
  by rewrite add32_small.
Qed.

(** C7.  Every sequence stored by either overload is in exactly one of the
    two representations: no bases (an overlap count, possibly zero), or at
    least one base and overlap count zero.  Markers that exactly abut give
    overlap count zero and no bases, and an observation with bases between
    its markers is stored under a different key of the sequence table.
    ([position] is a 32 bit field.) *)
Theorem storeEdgeInfo_representations graph e vertex0 vertex1 infoVector :
  (∀ m, (position (markers m) < two32)%N) →
  endVertices graph e = Some (vertex0, vertex1) →
  (∃ graph', storeEdgeInfo e graph = Some graph' ∧
     ∀ s i, contributes (edgeInfos graph' e) s i →
       ∃ marker0 marker1,
         scannedFrom vertex0 vertex1 i marker0 marker1
         ∧ exclusiveRepresentation s marker0 marker1)
  ∧ (∃ graph', storeEdgeInfoFrom e infoVector graph = Some graph' ∧
     ∀ s i, contributes (edgeInfos graph' e) s i →
       ∃ marker0 marker1,
         givenFrom i marker0 marker1
         ∧ exclusiveRepresentation s marker0 marker1).
Proof.
intros H32 Hends. split.
- destruct (storeEdgeInfo_edgeInfos _ _ _ _ Hends) as (graph' & Hstore & Hinfos).
  exists graph'. split; [done|]. intros s i Hcontr. rewrite Hinfos in Hcontr.
  apply scannedInfos_scannedFrom in Hcontr as (marker0 & marker1 & Hfrom & ->).
  exists marker0, marker1. split; [done|].
  apply fillSequence_exclusive.
  destruct Hfrom as (m0 & m1 & _ & _ & _ & _ & _ & _ & _ & ->). apply H32.
- assert (He : is_Some (edges graph !! e)).
  { unfold endVertices in Hends. destruct (edges graph !! e); [by eexists|done]. }
  destruct (storeEdgeInfoFrom_edgeInfos graph e infoVector He)
    as (graph' & Hstore & Hinfos).
  exists graph'. split; [done|]. intros s i Hcontr. rewrite Hinfos in Hcontr.
  apply givenInfos_contributes in Hcontr as [Hin ->].
  eexists _, _. split; [split; reflexivity|].
  apply fillSequence_exclusive, H32.
Qed.

(** C8.  When the second overload is given exactly the observations the
    first overload accepts for the edge, in the order in which it accepts
    them, the two overloads leave the same graph: the same groups with the
    same contents in the same order.  The marker lists are filled in as
    [addVertex] does. *)
Theorem storeEdgeInfo_overloads_agree graph e vertex0 vertex1 :
  endVertices graph e = Some (vertex0, vertex1) →
  consistentVertex vertex0 → consistentVertex vertex1 →
  ∃ graph',
    storeEdgeInfo e graph = Some graph'
    ∧ storeEdgeInfoFrom e (acceptedInfos vertex0 vertex1) graph = Some graph'
    ∧ edgeInfos graph' e = scannedInfos vertex0 vertex1.
Proof.
intros Hends Hc0 Hc1.
destruct (storeEdgeInfo_edgeInfos _ _ _ _ Hends) as (graph' & Hstore & Hinfos).
exists graph'. split; [done|]. split; [|done].
rewrite <- Hstore. unfold storeEdgeInfoFrom, storeEdgeInfo, endVertices in *.
destruct (edges graph !! e) as [se|]; simpl in *; [|done].
destruct (vertices graph !! source se) as [v0|]; simpl in *; [|done].
destruct (vertices graph !! target se) as [v1|]; simpl in *; [|done].
injection Hends as -> ->.
by rewrite givenInfos_acceptedInfos.
Qed.


(** *** The marker lists that [addVertex] builds *)

(** When [findMarkerId] returns the oriented read and the ordinal of a
    marker, as the table of markers has them, the vertex that [addVertex]
    appends is consistent. *)
Lemma addVertex_consistent findMarkerId vertexId distance vertexMarkers
    graph v graph' :
  (∀ m, markersBegin (getValue (fst (findMarkerId m))) + snd (findMarkerId m)
        = m)%N →
  Forall (λ m, (m < two64)%N) vertexMarkers →
  Forall consistentVertex (vertices graph) →
  addVertex findMarkerId vertexId distance vertexMarkers graph
  = returned (v, graph') →
  Forall consistentVertex (vertices graph').
Proof.
intros Hfind Hsmall Hall. unfold addVertex.
destruct (vertexMap graph !! vertexId); [done|]. intros [= <- <-]. simpl.
apply Forall_app. split; [done|]. constructor; [|constructor].
unfold consistentVertex. simpl. apply Forall_fmap.
eapply Forall_impl; [exact Hsmall|]. intros m Hm.
split; simpl; [by rewrite Hfind|done].
Qed.

(** *** The groups that [storeEdgeInfo] leaves in the edge *)

(** The sequence the second overload computes for an observation, and the
    one the first overload computes for a pair of markers. *)
Definition sequenceOfInfo (i : Info) : Sequence :=
  let o := info_orientedReadId i in
  fillSequence o (markers (markersBegin (getValue o) + ordinals0 i))
    (markers (markersBegin (getValue o) + ordinals1 i)).

Definition sequenceOfPair (p : MarkerInfo * MarkerInfo) : Sequence :=
  fillSequence (orientedReadId (fst p)) (markers (markerId (fst p)))
    (markers (markerId (snd p))).

Lemma givenInfos_groups infoVector :
  NoDup (fst <$> givenInfos infoVector)
  ∧ (∀ s l, (s, l) ∈ givenInfos infoVector
            ↔ l = filter (λ i, sequenceOfInfo i = s) infoVector ∧ l ≠ [])
  ∧ StronglySorted notShorter (givenInfos infoVector)
  ∧ concat (snd <$> givenInfos infoVector) ≡ₚ infoVector.
Proof.
unfold givenInfos.
destruct (groupsOf_foldl storeGiven sequenceOfInfo id (λ _ _, eq_refl)
            infoVector) as [Hsorted Hgroups].
split; [|split; [|split]].
- rewrite sort_Permutation. by apply tableSorted_NoDup.
- intros s l. rewrite elem_of_sort, (Hgroups s l).
  unfold groupOf. by rewrite list_fmap_id.
- apply sort_bySize.
- rewrite sort_Permutation.
  rewrite (foldl_tablePushBack_concat storeGiven sequenceOfInfo id
             (λ _ _, eq_refl)).
  by rewrite list_fmap_id.
Qed.

Lemma scannedInfos_groups vertex0 vertex1 :
  let pairs := acceptedPairs (markerInfos vertex0) (markerInfos vertex1) in
  NoDup (fst <$> scannedInfos vertex0 vertex1)
  ∧ (∀ s l, (s, l) ∈ scannedInfos vertex0 vertex1
            ↔ l = infoOfPair <$> filter (λ p, sequenceOfPair p = s) pairs
              ∧ l ≠ [])
  ∧ StronglySorted notShorter (scannedInfos vertex0 vertex1)
  ∧ concat (snd <$> scannedInfos vertex0 vertex1)
    ≡ₚ acceptedInfos vertex0 vertex1.
Proof.
intros pairs. unfold scannedInfos, acceptedInfos. rewrite scan_fold.
fold (acceptedPairs (markerInfos vertex0) (markerInfos vertex1)).
fold pairs.
set (f := λ (st : SequenceTable) (p : MarkerInfo * MarkerInfo),
            storeScanned (orientedReadId (fst p)) (fst p) (snd p) st).
destruct (groupsOf_foldl f sequenceOfPair infoOfPair (λ _ _, eq_refl) pairs)
  as [Hsorted Hgroups].
split; [|split; [|split]].
- rewrite sort_Permutation. by apply tableSorted_NoDup.
- intros s l. by rewrite elem_of_sort, (Hgroups s l).
- apply sort_bySize.
- rewrite sort_Permutation.
  by rewrite (foldl_tablePushBack_concat f sequenceOfPair infoOfPair
                (λ _ _, eq_refl)).
Qed.

(** X1.  After [storeEdgeInfo(e, infoVector)] the edge holds one group for
    each sequence that some observation of [infoVector] gives, no sequence
    twice; the group of a sequence lists the observations with that
    sequence in the order of [infoVector]; no group is longer than a group
    before it; and the groups together hold each observation of
    [infoVector] once. *)
Theorem storeEdgeInfoFrom_groups graph e infoVector :
  is_Some (edges graph !! e) →
  ∃ graph', storeEdgeInfoFrom e infoVector graph = Some graph'
    ∧ NoDup (fst <$> edgeInfos graph' e)
    ∧ (∀ s l, (s, l) ∈ edgeInfos graph' e
              ↔ l = filter (λ i, sequenceOfInfo i = s) infoVector ∧ l ≠ [])
    ∧ StronglySorted notShorter (edgeInfos graph' e)
    ∧ concat (snd <$> edgeInfos graph' e) ≡ₚ infoVector.
Proof.
intros He.
destruct (storeEdgeInfoFrom_edgeInfos graph e infoVector He)
  as (graph' & Hstore & Hinfos).
exists graph'. split; [done|]. rewrite Hinfos. apply givenInfos_groups.
Qed.

(** X2.  After [storeEdgeInfo(e)] the edge holds one group for each
    sequence that some accepted pair of markers gives, no sequence twice;
    the group of a sequence lists the observations of the accepted pairs
    with that sequence in the order in which the scan accepts them; no
    group is longer than a group before it; and the groups together hold
    each accepted observation once. *)
Theorem storeEdgeInfo_groups graph e vertex0 vertex1 :
  endVertices graph e = Some (vertex0, vertex1) →
  ∃ graph', storeEdgeInfo e graph = Some graph'
    ∧ NoDup (fst <$> edgeInfos graph' e)
    ∧ (∀ s l, (s, l) ∈ edgeInfos graph' e
              ↔ l = infoOfPair <$>
                      filter (λ p, sequenceOfPair p = s)
                        (acceptedPairs (markerInfos vertex0)
                           (markerInfos vertex1))
                ∧ l ≠ [])
    ∧ StronglySorted notShorter (edgeInfos graph' e)
    ∧ concat (snd <$> edgeInfos graph' e) ≡ₚ acceptedInfos vertex0 vertex1.
Proof.
intros Hends.
destruct (storeEdgeInfo_edgeInfos graph e vertex0 vertex1 Hends)
  as (graph' & Hstore & Hinfos).
exists graph'. split; [done|]. rewrite Hinfos. apply scannedInfos_groups.
Qed.

(** *** The order in which the scan accepts *)

Definition readBefore (p q : MarkerInfo * MarkerInfo) : Prop :=
  (orientedReadId (fst p) < orientedReadId (fst q))%N.

Lemma scan_collect_increasing fuel l0 l1 :
  StronglySorted byRead l0 → StronglySorted byRead l1 →
  StronglySorted readBefore (scan collect fuel l0 l1 []).
Proof.
revert l0 l1. induction fuel as [|fuel IH]; intros l0 l1 Hs0 Hs1.
{ constructor. }
destruct l0 as [|m0 rest0]; [constructor|].
destruct l1 as [|m1 rest1]; [constructor|].
cbn [scan].
destruct (N.ltb_spec (orientedReadId m0) (orientedReadId m1)) as [Hlt|Hge].
{ apply IH; [by apply StronglySorted_inv in Hs0 as [? _]|done]. }
destruct (N.ltb_spec (orientedReadId m1) (orientedReadId m0)) as [Hlt|Hge'].
{ apply IH; [done|by apply StronglySorted_inv in Hs1 as [? _]]. }
assert (Ho1 : orientedReadId m1 = orientedReadId m0) by lia.
set (o := orientedReadId m0) in *.
destruct (streakEnd_sorted o _ Hs0 (sorted_head_least _ _ Hs0))
  as (S0 & A0 & _).
assert (Hge1 : Forall (λ m, (o ≤ orientedReadId m)%N) (m1 :: rest1)).
{ rewrite <- Ho1. by apply sorted_head_least. }
destruct (streakEnd_sorted o _ Hs1 Hge1) as (S1 & _).
rewrite scan_collect_app. apply StronglySorted_app_2.
- intros p q Hp Hq.
  assert (p = (m0, m1)) as ->.
  { repeat case_match; try by apply elem_of_nil in Hp.
    unfold collect in Hp. simpl in Hp.
    by apply list_elem_of_singleton in Hp. }
  destruct q as [a b]. apply scan_collect_elem in Hq as (Ha & _).
  rewrite Forall_forall in A0. unfold readBefore. simpl. by apply A0.
- repeat case_match; try constructor; constructor.
- by apply IH.
Qed.

Lemma StronglySorted_filter {X} (R : relation X) (P : X → Prop)
    `{∀ x, Decision (P x)} (l : list X) :
  StronglySorted R l → StronglySorted R (filter P l).
Proof.
induction 1 as [|x l Hl IH Hall]; [constructor|].
rewrite filter_cons. destruct (decide (P x)); [|done].
constructor; [done|]. rewrite Forall_forall in Hall |- *.
intros y Hy. apply list_elem_of_filter in Hy as [_ Hy]. by apply Hall.
Qed.

Lemma StronglySorted_lt_NoDup (l : list N) : StronglySorted N.lt l → NoDup l.
Proof.
induction 1 as [|x l Hl IH Hall]; constructor; [|done].
intros Hin. rewrite Forall_forall in Hall. specialize (Hall x Hin). lia.
Qed.

(** X3.  When the marker lists of the two vertices are ordered by
    oriented read, [storeEdgeInfo(e)] counts no oriented read twice on
    the edge, and within each group the observations are in increasing
    order of oriented read. *)
Theorem storeEdgeInfo_reads_once graph e vertex0 vertex1 :
  endVertices graph e = Some (vertex0, vertex1) →
  Sorted byRead (markerInfos vertex0) →
  Sorted byRead (markerInfos vertex1) →
  ∃ graph', storeEdgeInfo e graph = Some graph'
    ∧ NoDup (info_orientedReadId <$> concat (snd <$> edgeInfos graph' e))
    ∧ ∀ s l, (s, l) ∈ edgeInfos graph' e →
             StronglySorted N.lt (info_orientedReadId <$> l).
Proof.
intros Hends Hs0 Hs1.
destruct (storeEdgeInfo_groups graph e vertex0 vertex1 Hends)
  as (graph' & Hstore & _ & Hgroups & _ & Hperm).
exists graph'. split; [done|].
assert (Htrans : Transitive byRead).
{ intros x y z. unfold byRead. lia. }
assert (Hpairs : StronglySorted readBefore
          (acceptedPairs (markerInfos vertex0) (markerInfos vertex1))).
{ apply scan_collect_increasing; by apply Sorted_StronglySorted. }
split.
- rewrite Hperm. apply StronglySorted_lt_NoDup.
  unfold acceptedInfos. rewrite <- list_fmap_compose.
  by eapply StronglySorted_fmap; [|exact Hpairs].
- intros s l Hin. apply Hgroups in Hin as [-> _].
  rewrite <- list_fmap_compose.
  eapply StronglySorted_fmap; [|by apply StronglySorted_filter, Hpairs].
  done.
Qed.

(** X16.  Whatever the order of the marker lists of the two vertices,
    an observation that [storeEdgeInfo(e)] stores pairs a marker of the
    source vertex with a marker of the target vertex, both of the oriented
    read of the observation, the first with the smaller ordinal; the
    sequence it is stored under is the one of these two markers; and
    when the marker ids increase with the ordinals, no marker id between
    the two belongs to a vertex of the global marker graph. *)
Theorem storeEdgeInfo_pairs graph e vertex0 vertex1 :
  endVertices graph e = Some (vertex0, vertex1) →
  ∃ graph', storeEdgeInfo e graph = Some graph'
    ∧ ∀ s i, contributes (edgeInfos graph' e) s i →
        ∃ m0 m1,
          m0 ∈ markerInfos vertex0 ∧ m1 ∈ markerInfos vertex1
          ∧ orientedReadId m0 = info_orientedReadId i
          ∧ orientedReadId m1 = info_orientedReadId i
          ∧ ordinal m0 = ordinals0 i ∧ ordinal m1 = ordinals1 i
          ∧ ordinals0 i < ordinals1 i
          ∧ s = fillSequence (info_orientedReadId i)
                  (markers (markerId m0)) (markers (markerId m1))
          ∧ (markerId m0 < markerId m1 → markerId m1 < two64 →
             ∀ m, markerId m0 < m < markerId m1 →
                  globalMarkerGraphVertex m
                  = invalidCompressedGlobalMarkerGraphVertexId).
Proof.
intros Hends.
destruct (storeEdgeInfo_edgeInfos graph e vertex0 vertex1 Hends)
  as (graph' & Hstore & Hinfos).
exists graph'. split; [done|]. rewrite Hinfos. intros s i Hcontr.
apply scannedInfos_contributes in Hcontr as (m0 & m1 & Hin & -> & ->).
apply scan_collect_elem in Hin as (H0 & H1 & Heq & Hord & Hbetween).
exists m0, m1. simpl. repeat split; try done.
intros Hlt Hsmall. by apply interveningVertexFound_false.
Qed.

(** *** What [storeEdgeInfo] leaves as it is *)

Lemma setInfos_setInfos newInfos oldInfos se :
  setInfos newInfos (setInfos oldInfos se) = setInfos newInfos se.
Proof. done. Qed.

(** X4.  Either overload of [storeEdgeInfo] changes nothing but the
    observations of the edge [e]: the vertices, the vertex map, the other
    edges, and the end points and the two flags of [e] are as before.
    What the edge held before plays no part: calling either overload on
    the result gives what it gives on the graph itself. *)
Theorem storeEdgeInfo_frame graph e infoVector infoVector' graph' :
  storeEdgeInfo e graph = Some graph'
  ∨ storeEdgeInfoFrom e infoVector graph = Some graph' →
  vertices graph' = vertices graph
  ∧ vertexMap graph' = vertexMap graph
  ∧ num_edges graph' = num_edges graph
  ∧ (∀ e', e' ≠ e → edges graph' !! e' = edges graph !! e')
  ∧ (∃ se, edges graph !! e = Some se
           ∧ edges graph' !! e = Some (setInfos (edgeInfos graph' e) se))
  ∧ storeEdgeInfo e graph' = storeEdgeInfo e graph
  ∧ storeEdgeInfoFrom e infoVector' graph'
    = storeEdgeInfoFrom e infoVector' graph.
Proof.
unfold storeEdgeInfo, storeEdgeInfoFrom, edgeInfos, num_edges.
intros [Hstore|Hstore];
  destruct (edges graph !! e) as [se|] eqn:He; simpl in Hstore; try done.
- destruct (vertices graph !! source se) as [vertex0|] eqn:Hv0;
    simpl in Hstore; [|done].
  destruct (vertices graph !! target se) as [vertex1|] eqn:Hv1;
    simpl in Hstore; [|done].
  injection Hstore as <-. simpl.
  assert (Hlt : (e < length (edges graph))%nat) by by eapply lookup_lt_Some.
  rewrite list_lookup_insert_eq by done. simpl. rewrite Hv0, Hv1. simpl.
  rewrite !list_insert_insert_eq, length_insert.
  repeat split; try done.
  + intros e' Hne. by rewrite list_lookup_insert_ne.
  + by exists se.
- injection Hstore as <-. simpl.
  assert (Hlt : (e < length (edges graph))%nat) by by eapply lookup_lt_Some.
  rewrite list_lookup_insert_eq by done. simpl.
  rewrite !list_insert_insert_eq, length_insert.
  repeat split; try done.
  + intros e' Hne. by rewrite list_lookup_insert_ne.
  + by exists se.
  + destruct (vertices graph !! source se), (vertices graph !! target se);
      simpl; try done.
    by rewrite list_insert_insert_eq.
Qed.

(** *** [getKmerId] *)

(** [getKmerId(v)]: the k-mer of the first marker of the vertex, with the
    assertion that the vertex has a marker and the check that all its
    markers have this k-mer.  The result is [None] when [v] is not a
    vertex of the graph. *)
Definition getKmerId (v : vertex_descriptor) (graph : LocalMarkerGraph2)
  : option (result N) :=
  vertex ← vertices graph !! v;
  Some (match markerInfos vertex with
        | [] => thrown assertion_failed
        | front :: _ =>
            let firstMarkerId := markerId front in
            let firstMarker := markers firstMarkerId in
            let kmerId' := kmerId firstMarker in
            _ ← foldl
                  (λ (acc : result unit) (markerInfo : MarkerInfo),
                     _ ← acc;
                     let marker := markers (markerId markerInfo) in
                     if decide (kmerId marker = kmerId') then returned tt
                     else thrown assertion_failed)
                  (returned tt) (markerInfos vertex);
            returned kmerId'
        end).

Lemma sameKmer_foldl (x : N) (l : list MarkerInfo) (acc : result unit) :
  foldl
    (λ (acc : result unit) (markerInfo : MarkerInfo),
       _ ← acc;
       let marker := markers (markerId markerInfo) in
       if decide (kmerId marker = x) then returned tt
       else thrown assertion_failed) acc l
  = match acc with
    | returned _ =>
        if decide (Forall (λ m, kmerId (markers (markerId m)) = x) l)
        then returned tt else thrown assertion_failed
    | _ => acc
    end.
Proof.
revert acc. induction l as [|m l IH]; intros acc; simpl.
- by destruct acc as [[]| |].
- rewrite IH. destruct acc as [[]| |]; simpl; try done.
  destruct (decide (kmerId (markers (markerId m)) = x)) as [Hm|Hm]; simpl.
  + destruct (decide (Forall _ l)) as [Hl|Hl].
    * by rewrite decide_True by by constructor.
    * rewrite decide_False; [done|]. intros Hall. apply Hl.
      by apply Forall_cons in Hall as [_ ?].
  + rewrite decide_False; [done|]. intros Hall.
    by apply Forall_cons in Hall as [? _].
Qed.

(** X6.  [getKmerId] of a vertex without markers fails its assertion;
    otherwise it returns a k-mer exactly when all the markers of the
    vertex have that k-mer, and fails its assertion when two markers of
    the vertex differ in their k-mer. *)
Theorem getKmerId_all_markers graph v vertex :
  vertices graph !! v = Some vertex →
  (markerInfos vertex = [] → getKmerId v graph = Some (thrown assertion_failed))
  ∧ (∀ x, getKmerId v graph = Some (returned x)
          ↔ markerInfos vertex ≠ []
            ∧ Forall (λ m, kmerId (markers (markerId m)) = x)
                (markerInfos vertex))
  ∧ (getKmerId v graph = Some (thrown assertion_failed)
     ∨ ∃ x, getKmerId v graph = Some (returned x)).
Proof.
intros Hv. unfold getKmerId. rewrite Hv. simpl.
destruct (markerInfos vertex) as [|front rest] eqn:Hinfos.
{ split; [done|]. split; [|by left]. intros x. split; [done|].
  by intros [? _]. }
rewrite sameKmer_foldl.
set (x0 := kmerId (markers (markerId front))).
destruct (decide (Forall (λ m, kmerId (markers (markerId m)) = x0)
                    (front :: rest))) as [Hall|Hall]; simpl.
- split; [done|]. split; [|right; by exists x0]. intros x. split.
  + intros [= <-]. done.
  + intros [_ Hx]. apply Forall_cons in Hx as [Hx _]. unfold x0.
    by rewrite Hx.
- split; [done|]. split; [|by left]. intros x. split; [done|].
  intros [_ Hx]. exfalso. apply Hall.
  assert (x = x0) as -> by (apply Forall_cons in Hx as [Hx _]; by rewrite <- Hx).
  done.
Qed.

End Aggregation.

(** *** A small data set

    One read of sixteen bases with markers of length 2; the oriented read 0
    is the read itself and the oriented read 1 its reverse complement.
    Oriented read 0 has eight markers (global ids 0 to 7, at every second
    position), oriented read 1 has eight more (ids 8 to 15). *)
Module Fixture.

Definition k : N := 2.

Definition read0 : LongBaseSequence :=
  {| baseCount := 16;
     get := λ i,
       nth (N.to_nat i)
         [BaseT; BaseG; BaseC; BaseA; BaseA; BaseC; BaseT; BaseT;
          BaseG; BaseG; BaseA; BaseC; BaseG; BaseT; BaseC; BaseA] BaseA |}.

Definition reads (readId : N) : LongBaseSequence := read0.

Definition markers (m : N) : CompressedMarker :=
  {| kmerId := 0; position := 2 * (m mod 8) |}.

Definition markersBegin (o : N) : N := (8 * o)%N.

Definition findMarkerId (m : N) : OrientedReadId * N := (m / 8, m mod 8)%N.

Definition invalid : N := 0xFFFFFFFFFF.

(** Only the markers 0 and 4 belong to a vertex of the global graph. *)
Definition globalMarkerGraphVertex (m : N) : N :=
  if ((m =? 0) || (m =? 4))%N then 7%N else invalid.

Definition vertexA (o : OrientedReadId) : LocalMarkerGraph2Vertex :=
  {| vertexId := 100; distance := 0;
     markerInfos := [mkMarkerInfo (markersBegin o + 1) o 1] |}.

Definition vertexB (o : OrientedReadId) : LocalMarkerGraph2Vertex :=
  {| vertexId := 101; distance := 1;
     markerInfos := [mkMarkerInfo (markersBegin o + 3) o 3] |}.

Definition vertexC (o : OrientedReadId) : LocalMarkerGraph2Vertex :=
  {| vertexId := 102; distance := 2;
     markerInfos := [mkMarkerInfo (markersBegin o + 5) o 5] |}.

Definition scanned :=
  scannedInfos k reads markers globalMarkerGraphVertex invalid.

(** The graph with the vertices A, B and C of the forward read and the
    edges from A to B and from B to C. *)
Definition graph : LocalMarkerGraph2 :=
  {| vertices := [vertexA 0%N; vertexB 0%N; vertexC 0%N];
     edges := [mkStoredEdge 0 1 defaultEdge; mkStoredEdge 1 2 defaultEdge];
     vertexMap := {[ 100%N := 0; 101%N := 1; 102%N := 2 ]} |}.

Definition addVertex' := addVertex findMarkerId.
Definition store := storeEdgeInfo k reads markers globalMarkerGraphVertex invalid.
Definition storeFrom := storeEdgeInfoFrom k reads markers markersBegin.

End Fixture.

(** The fixture graph is what [addVertex] and [add_edge] build. *)
Example fixture_graph_built :
  (p0 ← Fixture.addVertex' 100%N 0%Z [1%N] emptyGraph;
   p1 ← Fixture.addVertex' 101%N 1%Z [3%N] (snd p0);
   p2 ← Fixture.addVertex' 102%N 2%Z [5%N] (snd p1);
   returned (add_edge (fst p1) (fst p2) (add_edge (fst p0) (fst p1) (snd p2))))
  = returned Fixture.graph.
Proof. vm_compute. reflexivity. Qed.

(** Markers 1 and 3 of the forward read are at positions 2 and 6; the two
    bases between them, at positions 4 and 5, are AC. *)
Example scanned_forward :
  Fixture.scanned (Fixture.vertexA 0%N) (Fixture.vertexB 0%N)
  = [({| sequence := [BaseA; BaseC]; overlappingBaseCount := 0%N |},
      [mkInfo 0%N 1%N 3%N])].
Proof. vm_compute. reflexivity. Qed.

(** On the other strand the stored bases are read back to front from
    positions 11 and 10 and complemented: GT. *)
Example scanned_reverse :
  Fixture.scanned (Fixture.vertexA 1%N) (Fixture.vertexB 1%N)
  = [({| sequence := [BaseG; BaseT]; overlappingBaseCount := 0%N |},
      [mkInfo 1%N 1%N 3%N])].
Proof. vm_compute. reflexivity. Qed.

(** Marker 4 lies between markers 3 and 5 and belongs to a vertex: the read
    is not counted on an edge from B to C. *)
Example scanned_intervening :
  Fixture.scanned (Fixture.vertexB 0%N) (Fixture.vertexC 0%N) = [].
Proof. vm_compute. reflexivity. Qed.

Lemma fixture_consistent v :
  v ∈ vertices Fixture.graph → consistentVertex Fixture.markersBegin v.
Proof.
intros Hv. apply list_elem_of_In in Hv. simpl in Hv.
destruct Hv as [<-|[<-|[<-|[]]]]; (constructor; [|constructor]);
  (split; [reflexivity | vm_compute; reflexivity]).
Defined.

Lemma fixture_positions m : (position (Fixture.markers m) < two32)%N.
Proof.
unfold Fixture.markers. simpl. rewrite two32_eq.
pose proof (N.mod_lt m 8 ltac:(discriminate)). lia.
Defined.

(** Witness of C3 on the edge from A to B of the fixture graph. *)
Lemma storeEdgeInfo_accepts_iff_witness :
  ∃ graph', Fixture.store 0 Fixture.graph = Some graph' ∧
    ∀ o : OrientedReadId,
      (∃ s i, contributes (edgeInfos graph' 0) s i ∧ info_orientedReadId i = o)
      ↔ (∃ m0 m1,
           occurrences o (markerInfos (Fixture.vertexA 0%N)) = [m0]
           ∧ occurrences o (markerInfos (Fixture.vertexB 0%N)) = [m1]
           ∧ (ordinal m0 < ordinal m1)%N
           ∧ ∀ m, (markerId m0 < m < markerId m1)%N →
                  Fixture.globalMarkerGraphVertex m = Fixture.invalid).
Proof.
apply (storeEdgeInfo_accepts_iff Fixture.k Fixture.reads Fixture.markers
         Fixture.markersBegin Fixture.globalMarkerGraphVertex Fixture.invalid
         Fixture.graph 0 (Fixture.vertexA 0%N) (Fixture.vertexB 0%N)).
- reflexivity.
- repeat constructor.
- repeat constructor.
- apply fixture_consistent. vm_compute. apply elem_of_cons. by left.
- apply fixture_consistent. vm_compute. apply elem_of_cons. right.
  apply elem_of_cons. by left.
Defined.

(** The edge from A to B accepts one read, the forward read with its
    markers 1 and 3, and the first of the two ends at position 4, before
    the start of the second at position 6. *)
Example fixture_acceptedPairs :
  acceptedPairs Fixture.globalMarkerGraphVertex Fixture.invalid
    (markerInfos (Fixture.vertexA 0%N)) (markerInfos (Fixture.vertexB 0%N))
  = [(mkMarkerInfo 1%N 0%N 1%N, mkMarkerInfo 3%N 0%N 3%N)]
  ∧ markerEnd Fixture.k (Fixture.markers 1%N) = 4%N
  ∧ position (Fixture.markers 3%N) = 6%N.
Proof. vm_compute. done. Qed.

(** Witness of C4 on the same edge. *)
Lemma storeEdgeInfo_gap_sequence_witness :
  ∃ graph', Fixture.store 0 Fixture.graph = Some graph'
    ∧ (∀ m0 m1,
         (m0, m1) ∈ acceptedPairs Fixture.globalMarkerGraphVertex
                      Fixture.invalid
                      (markerInfos (Fixture.vertexA 0%N))
                      (markerInfos (Fixture.vertexB 0%N)) →
         let marker0 := Fixture.markers (markerId m0) in
         let marker1 := Fixture.markers (markerId m1) in
         (markerEnd Fixture.k marker0 < position marker1)%N →
         (position marker1 < two32)%N →
         ∃ s, contributes (edgeInfos graph' 0) s (infoOfPair (m0, m1))
              ∧ basesBetweenMarkers Fixture.k Fixture.reads
                  (orientedReadId m0) marker0 marker1 s)
    ∧ (∀ s i, contributes (edgeInfos graph' 0) s i →
         ∃ m0 m1,
           (m0, m1) ∈ acceptedPairs Fixture.globalMarkerGraphVertex
                        Fixture.invalid
                        (markerInfos (Fixture.vertexA 0%N))
                        (markerInfos (Fixture.vertexB 0%N))
           ∧ i = infoOfPair (m0, m1)
           ∧ let marker0 := Fixture.markers (markerId m0) in
             let marker1 := Fixture.markers (markerId m1) in
             ((markerEnd Fixture.k marker0 < position marker1)%N →
              (position marker1 < two32)%N →
              basesBetweenMarkers Fixture.k Fixture.reads
                (orientedReadId m0) marker0 marker1 s))
    ∧ (∀ marker0,
         (position marker0 + Fixture.k < two32)%N →
         markerEnd Fixture.k marker0 = (position marker0 + Fixture.k)%N).
Proof.
apply (storeEdgeInfo_gap_sequence Fixture.k Fixture.reads Fixture.markers
         Fixture.globalMarkerGraphVertex Fixture.invalid
         Fixture.graph 0 (Fixture.vertexA 0%N) (Fixture.vertexB 0%N)).
reflexivity.
Defined.

(** Witness of C7. *)
Lemma storeEdgeInfo_representations_witness :
  (∃ graph', Fixture.store 0 Fixture.graph = Some graph' ∧
     ∀ s i, contributes (edgeInfos graph' 0) s i →
       ∃ marker0 marker1,
         scannedFrom Fixture.markers (Fixture.vertexA 0%N) (Fixture.vertexB 0%N)
           i marker0 marker1
         ∧ exclusiveRepresentation Fixture.k s marker0 marker1)
  ∧ (∃ graph', Fixture.storeFrom 0 [mkInfo 0%N 1%N 3%N] Fixture.graph = Some graph' ∧
     ∀ s i, contributes (edgeInfos graph' 0) s i →
       ∃ marker0 marker1,
         givenFrom Fixture.markers Fixture.markersBegin i marker0 marker1
         ∧ exclusiveRepresentation Fixture.k s marker0 marker1).
Proof.
apply (storeEdgeInfo_representations Fixture.k Fixture.reads Fixture.markers
         Fixture.markersBegin Fixture.globalMarkerGraphVertex Fixture.invalid
         Fixture.graph 0 (Fixture.vertexA 0%N) (Fixture.vertexB 0%N)).
- apply fixture_positions.
- reflexivity.
Defined.

(** Witness of C8. *)
Lemma storeEdgeInfo_overloads_agree_witness :
  ∃ graph',
    Fixture.store 0 Fixture.graph = Some graph'
    ∧ Fixture.storeFrom 0
        (acceptedInfos Fixture.globalMarkerGraphVertex Fixture.invalid
           (Fixture.vertexA 0%N) (Fixture.vertexB 0%N)) Fixture.graph
      = Some graph'
    ∧ edgeInfos graph' 0
      = Fixture.scanned (Fixture.vertexA 0%N) (Fixture.vertexB 0%N).
Proof.
apply (storeEdgeInfo_overloads_agree Fixture.k Fixture.reads Fixture.markers
         Fixture.markersBegin Fixture.globalMarkerGraphVertex Fixture.invalid
         Fixture.graph 0 (Fixture.vertexA 0%N) (Fixture.vertexB 0%N)).
- reflexivity.
- apply fixture_consistent. vm_compute. apply elem_of_cons. by left.
- apply fixture_consistent. vm_compute. apply elem_of_cons. right.
  apply elem_of_cons. by left.
Defined.

(** *** Markers longer than 255 bases

    A data set in which two consecutive markers of a read share 290 bases:
    markers of length 300 at every tenth position. *)
Module Wide.

Definition k : N := 300.
Definition reads (readId : N) : LongBaseSequence :=
  {| baseCount := 1000; get := λ _, BaseA |}.
Definition markers (m : N) : CompressedMarker :=
  {| kmerId := 0; position := (10 * m)%N |}.
Definition markersBegin (o : N) : N := 0%N.
Definition invalid : N := 0xFFFFFFFFFF.
Definition globalMarkerGraphVertex (m : N) : N := invalid.

Definition vertex0 : LocalMarkerGraph2Vertex :=
  {| vertexId := 0; distance := 0; markerInfos := [mkMarkerInfo 0%N 0%N 0%N] |}.
Definition vertex1 : LocalMarkerGraph2Vertex :=
  {| vertexId := 1; distance := 1; markerInfos := [mkMarkerInfo 1%N 0%N 1%N] |}.

Definition graph : LocalMarkerGraph2 :=
  {| vertices := [vertex0; vertex1];
     edges := [mkStoredEdge 0 1 defaultEdge];
     vertexMap := {[ 0%N := 0; 1%N := 1 ]} |}.

Definition store := storeEdgeInfo k reads markers globalMarkerGraphVertex invalid.
Definition storeFrom := storeEdgeInfoFrom k reads markers markersBegin.

End Wide.

Example wide_stored :
  (λ g, edgeInfos g 0) <$> Wide.store 0 Wide.graph
  = Some [({| sequence := []; overlappingBaseCount := 34%N |},
           [mkInfo 0%N 0%N 1%N])].
Proof. vm_compute. reflexivity. Qed.

(** Counterexample to C5 as stated: the markers at positions 0 and 10
    share 290 bases; a clamped count would be 255, the stored count is
    290 modulo 256. *)
Lemma storeEdgeInfo_overlap_not_clamped :
  ∃ graph' s i marker0 marker1,
    Wide.store 0 Wide.graph = Some graph'
    ∧ contributes (edgeInfos graph' 0) s i
    ∧ scannedFrom Wide.markers Wide.vertex0 Wide.vertex1 i marker0 marker1
    ∧ (position marker1 ≤ position marker0 + Wide.k)%N
    ∧ (position marker0 + Wide.k - position marker1 = 290)%N
    ∧ spec_clampedOverlap Wide.k marker0 marker1 = 255%N
    ∧ overlappingBaseCount s = 34%N.
Proof.
eexists _, {| sequence := []; overlappingBaseCount := 34%N |},
  (mkInfo 0%N 0%N 1%N), (Wide.markers 0%N), (Wide.markers 1%N).
split; [vm_compute; reflexivity|]. split; [|split; [|split; [|done]]].
- exists [mkInfo 0%N 0%N 1%N]. split; apply elem_of_cons; by left.
- exists (mkMarkerInfo 0%N 0%N 0%N), (mkMarkerInfo 1%N 0%N 1%N).
  repeat split; try done; apply elem_of_cons; by left.
- vm_compute. discriminate.
Qed.

(** The edge of the wide data set accepts its one read, whose markers
    overlap. *)
Example wide_acceptedPairs :
  acceptedPairs Wide.globalMarkerGraphVertex Wide.invalid
    (markerInfos Wide.vertex0) (markerInfos Wide.vertex1)
  = [(mkMarkerInfo 0%N 0%N 0%N, mkMarkerInfo 1%N 0%N 1%N)]
  ∧ markerEnd Wide.k (Wide.markers 0%N) = 300%N
  ∧ position (Wide.markers 1%N) = 10%N
  ∧ truncatedOverlap Wide.k (Wide.markers 0%N) (Wide.markers 1%N) = 34%N.
Proof. vm_compute. done. Qed.

(** Witness of C5, as amended, on the same edge. *)
Lemma storeEdgeInfo_overlap_truncated_witness :
  (∃ graph', Wide.store 0 Wide.graph = Some graph'
     ∧ (∀ m0 m1,
          (m0, m1) ∈ acceptedPairs Wide.globalMarkerGraphVertex Wide.invalid
                       (markerInfos Wide.vertex0) (markerInfos Wide.vertex1) →
          let marker0 := Wide.markers (markerId m0) in
          let marker1 := Wide.markers (markerId m1) in
          (position marker1 ≤ markerEnd Wide.k marker0)%N →
          contributes (edgeInfos graph' 0)
            {| sequence := [];
               overlappingBaseCount :=
                 truncatedOverlap Wide.k marker0 marker1 |}
            (infoOfPair (m0, m1)))
     ∧ (∀ s i, contributes (edgeInfos graph' 0) s i →
          ∃ m0 m1,
            (m0, m1) ∈ acceptedPairs Wide.globalMarkerGraphVertex Wide.invalid
                         (markerInfos Wide.vertex0) (markerInfos Wide.vertex1)
            ∧ i = infoOfPair (m0, m1)
            ∧ let marker0 := Wide.markers (markerId m0) in
              let marker1 := Wide.markers (markerId m1) in
              ((position marker1 ≤ markerEnd Wide.k marker0)%N →
               overlappingBaseCount s = truncatedOverlap Wide.k marker0 marker1
               ∧ sequence s = [])))
  ∧ (∃ graph', Wide.storeFrom 0 [mkInfo 0%N 0%N 1%N] Wide.graph = Some graph'
     ∧ (∀ i marker0 marker1,
          i ∈ [mkInfo 0%N 0%N 1%N] →
          givenFrom Wide.markers Wide.markersBegin i marker0 marker1 →
          (position marker1 ≤ markerEnd Wide.k marker0)%N →
          contributes (edgeInfos graph' 0)
            {| sequence := [];
               overlappingBaseCount :=
                 truncatedOverlap Wide.k marker0 marker1 |}
            i)
     ∧ (∀ s i, contributes (edgeInfos graph' 0) s i →
          i ∈ [mkInfo 0%N 0%N 1%N]
          ∧ ∀ marker0 marker1,
              givenFrom Wide.markers Wide.markersBegin i marker0 marker1 →
              (position marker1 ≤ markerEnd Wide.k marker0)%N →
              overlappingBaseCount s = truncatedOverlap Wide.k marker0 marker1
              ∧ sequence s = []))
  ∧ (∀ marker0 marker1,
       (position marker0 + Wide.k < two32)%N →
       markerEnd Wide.k marker0 = (position marker0 + Wide.k)%N
       ∧ truncatedOverlap Wide.k marker0 marker1
         = ((position marker0 + Wide.k - position marker1) mod 256)%N).
Proof.
apply (storeEdgeInfo_overlap_truncated Wide.k Wide.reads Wide.markers
         Wide.markersBegin Wide.globalMarkerGraphVertex Wide.invalid
         Wide.graph 0 Wide.vertex0 Wide.vertex1).
reflexivity.
Defined.
(** *** The further properties on the small data set *)

(** X1 on the edge from A to B, with the one observation of read 0. *)
Lemma storeEdgeInfoFrom_groups_witness :
  ∃ graph', Fixture.storeFrom 0 [mkInfo 0%N 1%N 3%N] Fixture.graph = Some graph'
    ∧ NoDup (fst <$> edgeInfos graph' 0)
    ∧ (∀ s l, (s, l) ∈ edgeInfos graph' 0
              ↔ l = filter
                      (λ i, sequenceOfInfo Fixture.k Fixture.reads
                              Fixture.markers Fixture.markersBegin i = s)
                      [mkInfo 0%N 1%N 3%N]
                ∧ l ≠ [])
    ∧ StronglySorted notShorter (edgeInfos graph' 0)
    ∧ concat (snd <$> edgeInfos graph' 0) ≡ₚ [mkInfo 0%N 1%N 3%N].
Proof.
apply (storeEdgeInfoFrom_groups Fixture.k Fixture.reads Fixture.markers
         Fixture.markersBegin Fixture.graph 0 [mkInfo 0%N 1%N 3%N]).
eexists. reflexivity.
Defined.

(** X2 on the same edge. *)
Lemma storeEdgeInfo_groups_witness :
  ∃ graph', Fixture.store 0 Fixture.graph = Some graph'
    ∧ NoDup (fst <$> edgeInfos graph' 0)
    ∧ (∀ s l, (s, l) ∈ edgeInfos graph' 0
              ↔ l = infoOfPair <$>
                      filter
                        (λ p, sequenceOfPair Fixture.k Fixture.reads
                                Fixture.markers p = s)
                        (acceptedPairs Fixture.globalMarkerGraphVertex
                           Fixture.invalid
                           (markerInfos (Fixture.vertexA 0%N))
                           (markerInfos (Fixture.vertexB 0%N)))
                ∧ l ≠ [])
    ∧ StronglySorted notShorter (edgeInfos graph' 0)
    ∧ concat (snd <$> edgeInfos graph' 0)
      ≡ₚ acceptedInfos Fixture.globalMarkerGraphVertex Fixture.invalid
           (Fixture.vertexA 0%N) (Fixture.vertexB 0%N).
Proof.
apply (storeEdgeInfo_groups Fixture.k Fixture.reads Fixture.markers
         Fixture.globalMarkerGraphVertex Fixture.invalid
         Fixture.graph 0 (Fixture.vertexA 0%N) (Fixture.vertexB 0%N)).
reflexivity.
Defined.

(** X3 on the same edge. *)
Lemma storeEdgeInfo_reads_once_witness :
  ∃ graph', Fixture.store 0 Fixture.graph = Some graph'
    ∧ NoDup (info_orientedReadId <$> concat (snd <$> edgeInfos graph' 0))
    ∧ ∀ s l, (s, l) ∈ edgeInfos graph' 0 →
             StronglySorted N.lt (info_orientedReadId <$> l).
Proof.
apply (storeEdgeInfo_reads_once Fixture.k Fixture.reads Fixture.markers
         Fixture.globalMarkerGraphVertex Fixture.invalid
         Fixture.graph 0 (Fixture.vertexA 0%N) (Fixture.vertexB 0%N)).
- reflexivity.
- repeat constructor.
- repeat constructor.
Defined.

(** X4 on the same edge, for the first overload. *)
Lemma storeEdgeInfo_frame_witness :
  ∃ graph', Fixture.store 0 Fixture.graph = Some graph'
    ∧ vertices graph' = vertices Fixture.graph
    ∧ vertexMap graph' = vertexMap Fixture.graph
    ∧ num_edges graph' = num_edges Fixture.graph
    ∧ (∀ e', e' ≠ 0 → edges graph' !! e' = edges Fixture.graph !! e')
    ∧ (∃ se, edges Fixture.graph !! 0 = Some se
             ∧ edges graph' !! 0 = Some (setInfos (edgeInfos graph' 0) se))
    ∧ Fixture.store 0 graph' = Fixture.store 0 Fixture.graph
    ∧ Fixture.storeFrom 0 [mkInfo 0%N 1%N 3%N] graph'
      = Fixture.storeFrom 0 [mkInfo 0%N 1%N 3%N] Fixture.graph.
Proof.
eexists. split; [reflexivity|].
apply (storeEdgeInfo_frame Fixture.k Fixture.reads Fixture.markers
         Fixture.markersBegin Fixture.globalMarkerGraphVertex Fixture.invalid
         Fixture.graph 0 [] [mkInfo 0%N 1%N 3%N]).
left. reflexivity.
Defined.

(** X5 on the first vertex of the fixture graph. *)
Lemma addVertex_registered_witness :
  ∃ v graph',
    Fixture.addVertex' 100%N 0%Z [1%N] emptyGraph = returned (v, graph')
    ∧ registered graph'
    ∧ v = num_vertices emptyGraph
    ∧ (∀ u, u < num_vertices emptyGraph →
            vertices graph' !! u = vertices emptyGraph !! u)
    ∧ edges graph' = edges emptyGraph.
Proof.
eexists _, _. split; [reflexivity|].
apply (addVertex_registered Fixture.findMarkerId emptyGraph 100%N 0%Z [1%N]).
- apply registered_emptyGraph.
- reflexivity.
Defined.

(** X6 on the vertex A of the fixture graph. *)
Lemma getKmerId_all_markers_witness :
  (markerInfos (Fixture.vertexA 0%N) = [] →
   getKmerId Fixture.markers 0 Fixture.graph = Some (thrown assertion_failed))
  ∧ (∀ x, getKmerId Fixture.markers 0 Fixture.graph = Some (returned x)
          ↔ markerInfos (Fixture.vertexA 0%N) ≠ []
            ∧ Forall (λ m, kmerId (Fixture.markers (markerId m)) = x)
                (markerInfos (Fixture.vertexA 0%N)))
  ∧ (getKmerId Fixture.markers 0 Fixture.graph = Some (thrown assertion_failed)
     ∨ ∃ x, getKmerId Fixture.markers 0 Fixture.graph = Some (returned x)).
Proof.
apply (getKmerId_all_markers Fixture.markers Fixture.graph 0
         (Fixture.vertexA 0%N)).
reflexivity.
Defined.

(** X16 on the same edge. *)
Lemma storeEdgeInfo_pairs_witness :
  ∃ graph', Fixture.store 0 Fixture.graph = Some graph'
    ∧ ∀ s i, contributes (edgeInfos graph' 0) s i →
        ∃ m0 m1,
          m0 ∈ markerInfos (Fixture.vertexA 0%N)
          ∧ m1 ∈ markerInfos (Fixture.vertexB 0%N)
          ∧ orientedReadId m0 = info_orientedReadId i
          ∧ orientedReadId m1 = info_orientedReadId i
          ∧ ordinal m0 = ordinals0 i ∧ ordinal m1 = ordinals1 i
          ∧ (ordinals0 i < ordinals1 i)%N
          ∧ s = fillSequence Fixture.k Fixture.reads (info_orientedReadId i)
                  (Fixture.markers (markerId m0))
                  (Fixture.markers (markerId m1))
          ∧ ((markerId m0 < markerId m1)%N → (markerId m1 < two64)%N →
             ∀ m, (markerId m0 < m < markerId m1)%N →
                  Fixture.globalMarkerGraphVertex m = Fixture.invalid).
Proof.
apply (storeEdgeInfo_pairs Fixture.k Fixture.reads Fixture.markers
         Fixture.globalMarkerGraphVertex Fixture.invalid
         Fixture.graph 0 (Fixture.vertexA 0%N) (Fixture.vertexB 0%N)).
reflexivity.
Defined.


(** ** Disjoint sets

    [boost::disjoint_sets<uint32_t*, uint32_t*>] over the two vectors
    [rank] and [parent] of [computeOptimalSpanningTree]: union by rank,
    and [find_set] with full path compression.  The loops of the Boost
    code follow parent links up to a representative; [fuel] bounds the
    number of links followed, and the length of the vectors is enough
    ([find_set_spec] below). *)

Record disjoint_sets := mkDisjointSets {
  rank : list nat;
  parent : list nat
}.

(** [get(parent, v)]. *)
Definition get_at (pa : list nat) (v : nat) : nat := default v (pa !! v).

(** [vector<uint32_t> rank(n)] and [vector<uint32_t> parent(n)]. *)
Definition newDisjointSets (n : nat) : disjoint_sets :=
  {| rank := replicate n 0; parent := replicate n 0 |}.

(** [make_set(i)]. *)
Definition make_set (i : nat) (ds : disjoint_sets) : disjoint_sets :=
  {| rank := <[i := 0]> (rank ds); parent := <[i := i]> (parent ds) |}.

(** The first loop of [find_representative_with_full_compression]: up to
    the representative. *)
Fixpoint ancestorLoop (fuel : nat) (pa : list nat) (v : nat) : nat :=
  match fuel with
  | O => v
  | S fuel' =>
      let ancestor := get_at pa v in
      if decide (ancestor = v) then ancestor
      else ancestorLoop fuel' pa ancestor
  end.

(** The second loop: every vertex on the way is made a child of the
    representative. *)
Fixpoint compressLoop (fuel : nat) (pa : list nat) (old ancestor : nat)
  : list nat :=
  match fuel with
  | O => pa
  | S fuel' =>
      let v := get_at pa old in
      if decide (ancestor = v) then pa
      else compressLoop fuel' (<[old := ancestor]> pa) v ancestor
  end.

Definition find_representative_with_full_compression (pa : list nat) (v : nat)
  : list nat * nat :=
  let ancestor := ancestorLoop (length pa) pa v in
  (compressLoop (length pa) pa v ancestor, ancestor).

(** [find_set(x)]. *)
Definition find_set (ds : disjoint_sets) (x : nat) : disjoint_sets * nat :=
  let '(pa, r) := find_representative_with_full_compression (parent ds) x in
  ({| rank := rank ds; parent := pa |}, r).

(** [link_sets]: the representatives of [i] and [j] are looked up once
    more, and the one of smaller rank becomes a child of the other. *)
Definition link_sets (ds : disjoint_sets) (i j : nat) : disjoint_sets :=
  let '(ds, i) := find_set ds i in
  let '(ds, j) := find_set ds j in
  if decide (i = j) then ds
  else if decide (get_at (rank ds) j < get_at (rank ds) i) then
    {| rank := rank ds; parent := <[j := i]> (parent ds) |}
  else
    {| rank :=
         if decide (get_at (rank ds) i = get_at (rank ds) j)
         then <[j := get_at (rank ds) j + 1]> (rank ds)
         else rank ds;
       parent := <[i := j]> (parent ds) |}.

(** [union_set(x, y)] is [link(find_set(x), find_set(y))]. *)
Definition union_set (ds : disjoint_sets) (x y : nat) : disjoint_sets :=
  let '(ds, i) := find_set ds x in
  let '(ds, j) := find_set ds y in
  link_sets ds i j.

(** The representative of [x], without the compression. *)
Definition representative (ds : disjoint_sets) (x : nat) : nat :=
  ancestorLoop (length (parent ds)) (parent ds) x.

(** The representatives: the vertices that are their own parent. *)
Definition roots (ds : disjoint_sets) : list nat :=
  filter (λ x, parent ds !! x = Some x) (seq 0 (length (parent ds))).

(** The sets [{0}, {1}, ..., {n-1}]. *)
Definition singletons (n : nat) : disjoint_sets :=
  foldl (λ ds i, make_set i ds) (newDisjointSets n) (seq 0 n).

Example union_find_example :
  let ds := union_set (union_set (union_set (singletons 5) 0 1) 2 3) 1 3 in
  (parent ds, rank ds, snd (find_set ds 0), snd (find_set ds 4), roots ds)
  = ([1; 3; 3; 3; 4], [0; 1; 0; 2; 0], 3, 4, [3; 4]).
Proof. vm_compute. reflexivity. Qed.

(** *** The forest of parent links *)

(** [reaches pa x r]: following the parent links from [x] ends at the
    representative [r]. *)
Inductive reaches (pa : list nat) : nat → nat → Prop :=
| reaches_root r : pa !! r = Some r → reaches pa r r
| reaches_step x p r :
    pa !! x = Some p → p ≠ x → reaches pa p r → reaches pa x r.

(** The invariant of the two vectors: parents are vertices, the rank grows
    strictly along a parent link, and the ranks add up to no more than the
    number of unions made so far. *)
Record ds_ok (n : nat) (ds : disjoint_sets) : Prop := mk_ds_ok {
  ok_parent_length : length (parent ds) = n;
  ok_rank_length : length (rank ds) = n;
  ok_parent_lt : ∀ x p, parent ds !! x = Some p → p < n;
  ok_rank_lt : ∀ x p, parent ds !! x = Some p → p ≠ x →
               get_at (rank ds) x < get_at (rank ds) p;
  ok_rank_sum : sum_list (rank ds) + length (roots ds) ≤ n
}.

Lemma reaches_functional pa x r r' :
  reaches pa x r → reaches pa x r' → r = r'.
Proof.
induction 1 as [r Hr | x p r Hx Hne Hp IH]; intros H'.
- inversion H' as [? ? | ? p' ? Hx' Hne' ?]; subst; [done|]. congruence.
- inversion H' as [? Hr' | ? p' ? Hx' Hne' Hp']; subst; [congruence|].
  apply IH. congruence.
Qed.

Lemma reaches_is_root pa x r : reaches pa x r → pa !! r = Some r.
Proof. induction 1; done. Qed.

Lemma reaches_lt pa x r : reaches pa x r → x < length pa ∧ r < length pa.
Proof.
induction 1 as [r Hr | x p r Hx Hne Hp [_ IH]].
- apply lookup_lt_Some in Hr. done.
- apply lookup_lt_Some in Hx. done.
Qed.

Lemma get_at_lookup pa x v : pa !! x = Some v → get_at pa x = v.
Proof. unfold get_at. by intros ->. Qed.

Lemma lookup_le_sum_list (l : list nat) x v : l !! x = Some v → v ≤ sum_list l.
Proof.
revert x. induction l as [|a l IH]; intros [|x] H; simpl in *; try done.
- injection H as ->. lia.
- apply IH in H. lia.
Qed.

Lemma get_at_le_sum_list (l : list nat) x :
  x < length l → get_at l x ≤ sum_list l.
Proof.
intros Hx. destruct (lookup_lt_is_Some_2 l x Hx) as [v Hv].
rewrite (get_at_lookup _ _ _ Hv). by eapply lookup_le_sum_list.
Qed.

Lemma elem_of_roots ds r : r ∈ roots ds ↔ parent ds !! r = Some r.
Proof.
unfold roots. rewrite list_elem_of_filter, elem_of_seq. split; [tauto|].
intros H. split; [done|]. apply lookup_lt_Some in H. lia.
Qed.

Lemma NoDup_roots ds : NoDup (roots ds).
Proof. unfold roots. apply NoDup_filter, NoDup_seq. Qed.

(** Enough fuel takes the first loop to the representative. *)
Lemma ancestorLoop_reaches n ds fuel x :
  ds_ok n ds → x < n →
  sum_list (rank ds) < fuel + get_at (rank ds) x →
  reaches (parent ds) x (ancestorLoop fuel (parent ds) x).
Proof.
intros Hok. revert x. induction fuel as [|fuel IH]; intros x Hx Hfuel.
- pose proof (get_at_le_sum_list (rank ds) x) as Hle.
  rewrite (ok_rank_length _ _ Hok) in Hle. specialize (Hle Hx). lia.
- simpl.
  destruct (lookup_lt_is_Some_2 (parent ds) x) as [p Hp].
  { by rewrite (ok_parent_length _ _ Hok). }
  rewrite (get_at_lookup _ _ _ Hp). destruct (decide (p = x)) as [->|Hne].
  + by apply reaches_root.
  + pose proof (ok_rank_lt _ _ Hok _ _ Hp Hne) as Hrank.
    apply (reaches_step _ _ p); [done|done|].
    apply IH; [by eapply ok_parent_lt|lia].
Qed.

Lemma roots_nonempty n ds : ds_ok n ds → 0 < n → 0 < length (roots ds).
Proof.
intros Hok Hn.
assert (H : reaches (parent ds) 0
              (ancestorLoop (S (sum_list (rank ds))) (parent ds) 0)).
{ eapply ancestorLoop_reaches; [done|done|lia]. }
apply reaches_is_root, elem_of_roots in H.
destruct (roots ds); [by apply elem_of_nil in H|simpl; lia].
Qed.

Lemma representative_reaches n ds x :
  ds_ok n ds → x < n → reaches (parent ds) x (representative ds x).
Proof.
intros Hok Hx. unfold representative.
eapply ancestorLoop_reaches; [done|done|].
pose proof (roots_nonempty n ds Hok ltac:(lia)).
pose proof (ok_rank_sum _ _ Hok). rewrite (ok_parent_length _ _ Hok). lia.
Qed.

Lemma reaches_representative n ds x r :
  ds_ok n ds → reaches (parent ds) x r → representative ds x = r.
Proof.
intros Hok H. pose proof (reaches_lt _ _ _ H) as [Hx _].
rewrite (ok_parent_length _ _ Hok) in Hx.
eapply reaches_functional; [|done]. by eapply representative_reaches.
Qed.

Lemma representative_lt n ds x :
  ds_ok n ds → x < n → representative ds x < n.
Proof.
intros Hok Hx. pose proof (representative_reaches n ds x Hok Hx) as H.
apply reaches_lt in H as [_ H]. by rewrite (ok_parent_length _ _ Hok) in H.
Qed.

Lemma representative_root n ds x :
  ds_ok n ds → x < n → representative ds x ∈ roots ds.
Proof.
intros Hok Hx. apply elem_of_roots.
eapply reaches_is_root. by eapply representative_reaches.
Qed.

Lemma representative_of_root n ds r :
  ds_ok n ds → r ∈ roots ds → representative ds r = r.
Proof.
intros Hok Hr. apply elem_of_roots in Hr.
eapply reaches_representative; [done|]. by apply reaches_root.
Qed.

Lemma representative_idem n ds x :
  ds_ok n ds → x < n →
  representative ds (representative ds x) = representative ds x.
Proof.
intros Hok Hx. eapply representative_of_root; [done|].
by eapply representative_root.
Qed.

Lemma reaches_rank_lt n ds x r :
  ds_ok n ds → reaches (parent ds) x r → x ≠ r →
  get_at (rank ds) x < get_at (rank ds) r.
Proof.
intros Hok. induction 1 as [r Hr | x p r Hx Hne Hp IH]; intros Hxr; [done|].
pose proof (ok_rank_lt _ _ Hok _ _ Hx Hne) as Hlt.
destruct (decide (p = r)) as [->|Hpr]; [done|].
specialize (IH Hpr). lia.
Qed.

(** *** Path compression *)

Lemma roots_ext rk rk' pa pa' :
  length pa' = length pa →
  (∀ x, pa' !! x = Some x ↔ pa !! x = Some x) →
  roots (mkDisjointSets rk' pa') = roots (mkDisjointSets rk pa).
Proof.
intros Hlen H. unfold roots. simpl. rewrite Hlen. by apply list_filter_iff.
Qed.

(** Making a vertex that is not a representative a child of its
    representative changes no representative. *)
Lemma reaches_insert pa x p r :
  pa !! x = Some p → p ≠ x → reaches pa x r →
  ∀ y r', reaches pa y r' → reaches (<[x := r]> pa) y r'.
Proof.
intros Hx Hne Hxr.
pose proof (reaches_is_root _ _ _ Hxr) as Hr.
assert (Hrx : r ≠ x) by congruence.
assert (Hroot : reaches (<[x := r]> pa) r r).
{ apply reaches_root. by rewrite list_lookup_insert_ne. }
induction 1 as [r' Hr' | y q r' Hy Hq Hreach IH].
- apply reaches_root.
  rewrite list_lookup_insert_ne; [done|]. congruence.
- destruct (decide (y = x)) as [->|Hyx].
  + assert (r' = r) as ->.
    { eapply reaches_functional; [|exact Hxr].
      by apply (reaches_step _ _ q). }
    apply (reaches_step _ _ r); [|done|done].
    apply list_lookup_insert_eq. by eapply lookup_lt_Some.
  + apply (reaches_step _ _ q); [|done|done].
    by rewrite list_lookup_insert_ne.
Qed.

Lemma compress_step_ok n rk pa x p r :
  ds_ok n (mkDisjointSets rk pa) →
  pa !! x = Some p → p ≠ x → reaches pa x r →
  ds_ok n (mkDisjointSets rk (<[x := r]> pa))
  ∧ roots (mkDisjointSets rk (<[x := r]> pa)) = roots (mkDisjointSets rk pa).
Proof.
intros Hok Hx Hne Hxr.
pose proof (reaches_is_root _ _ _ Hxr) as Hr.
assert (Hrx : r ≠ x) by congruence.
assert (Hroots : roots (mkDisjointSets rk (<[x := r]> pa))
                 = roots (mkDisjointSets rk pa)).
{ apply roots_ext; [apply length_insert|]. intros y.
  rewrite list_lookup_insert_Some. split.
  - intros [(-> & -> & _)|[_ ?]]; done.
  - intros Hy. right. split; [congruence|done]. }
split; [|done].
destruct Hok as [Hlp Hlr Hplt Hrlt Hsum]; simpl in *.
constructor; simpl.
- by rewrite length_insert.
- done.
- intros y q. rewrite list_lookup_insert_Some.
  intros [(-> & -> & _)|[_ Hy]]; [|by eapply Hplt].
  eapply Hplt, Hr.
- intros y q. rewrite list_lookup_insert_Some.
  intros [(-> & -> & _)|[_ Hy]] Hq; [|by eapply Hrlt].
  apply (reaches_rank_lt n (mkDisjointSets rk pa)); [|done|done].
  by constructor.
- by rewrite Hroots.
Qed.

Lemma compressLoop_ok n rk fuel pa old anc :
  ds_ok n (mkDisjointSets rk pa) → reaches pa old anc →
  ds_ok n (mkDisjointSets rk (compressLoop fuel pa old anc))
  ∧ roots (mkDisjointSets rk (compressLoop fuel pa old anc))
    = roots (mkDisjointSets rk pa)
  ∧ ∀ y r, reaches pa y r → reaches (compressLoop fuel pa old anc) y r.
Proof.
revert pa old. induction fuel as [|fuel IH]; intros pa old Hok Hreach; simpl.
{ done. }
pose proof (reaches_lt _ _ _ Hreach) as [Hold _].
destruct (lookup_lt_is_Some_2 pa old Hold) as [v Hv].
rewrite (get_at_lookup _ _ _ Hv).
destruct (decide (anc = v)) as [->|Hne]; [done|].
assert (Hvo : v ≠ old).
{ intros ->. apply Hne. eapply reaches_functional; [exact Hreach|].
  by apply reaches_root. }
assert (Hvanc : reaches pa v anc).
{ inversion Hreach as [? Hr|? p ? Hx Hp Hrest]; subst; [congruence|].
  congruence. }
destruct (compress_step_ok n rk pa old v anc Hok Hv Hvo Hreach) as [Hok' Hroots'].
pose proof (reaches_insert pa old v anc Hv Hvo Hreach) as Hpres.
destruct (IH (<[old := anc]> pa) v Hok' (Hpres _ _ Hvanc)) as (IH1 & IH2 & IH3).
split; [done|]. split; [congruence|].
intros y r Hy. apply IH3, Hpres, Hy.
Qed.

(** The fuel of the second loop is enough: more fuel changes nothing. *)
Lemma compressLoop_fuel n rk fuel pa old anc :
  ds_ok n (mkDisjointSets rk pa) → reaches pa old anc →
  sum_list rk < fuel + get_at rk old →
  compressLoop (S fuel) pa old anc = compressLoop fuel pa old anc.
Proof.
revert pa old. induction fuel as [|fuel IH]; intros pa old Hok Hreach Hfuel.
- pose proof (reaches_lt _ _ _ Hreach) as [Hold _].
  pose proof (ok_rank_length _ _ Hok) as Hlr.
  pose proof (ok_parent_length _ _ Hok) as Hlp. simpl in Hlr, Hlp.
  pose proof (get_at_le_sum_list rk old ltac:(lia)) as Hle. lia.
- cbn [compressLoop].
  pose proof (reaches_lt _ _ _ Hreach) as [Hold _].
  destruct (lookup_lt_is_Some_2 pa old Hold) as [v Hv].
  rewrite (get_at_lookup _ _ _ Hv).
  destruct (decide (anc = v)) as [->|Hne]; [done|].
  assert (Hvo : v ≠ old).
  { intros ->. apply Hne. eapply reaches_functional; [exact Hreach|].
    by apply reaches_root. }
  assert (Hvanc : reaches pa v anc).
  { inversion Hreach as [? Hr|? p ? Hx Hp Hrest]; subst; congruence. }
  destruct (compress_step_ok n rk pa old v anc Hok Hv Hvo Hreach) as [Hok' _].
  pose proof (reaches_insert pa old v anc Hv Hvo Hreach _ _ Hvanc) as Hreach'.
  pose proof (ok_rank_lt _ _ Hok _ _ Hv Hvo) as Hrank. simpl in Hrank.
  rewrite <- (IH (<[old := anc]> pa) v Hok' Hreach') by lia.
  done.
Qed.

Lemma find_set_fuel n ds x :
  ds_ok n ds → x < n →
  compressLoop (S (length (parent ds))) (parent ds) x (representative ds x)
  = parent (fst (find_set ds x)).
Proof.
intros Hok Hx. destruct ds as [rk pa]. simpl.
apply (compressLoop_fuel n rk); [done| |].
- by apply (representative_reaches n (mkDisjointSets rk pa)).
- pose proof (roots_nonempty n _ Hok ltac:(lia)).
  pose proof (ok_rank_sum _ _ Hok) as Hsum.
  pose proof (ok_parent_length _ _ Hok) as Hlen. simpl in *. lia.
Qed.

(** [find_set] returns the representative and changes no representative. *)
Lemma find_set_spec n ds x :
  ds_ok n ds → x < n →
  ds_ok n (fst (find_set ds x))
  ∧ snd (find_set ds x) = representative ds x
  ∧ roots (fst (find_set ds x)) = roots ds
  ∧ rank (fst (find_set ds x)) = rank ds
  ∧ ∀ y, y < n → representative (fst (find_set ds x)) y = representative ds y.
Proof.
intros Hok Hx. destruct ds as [rk pa].
unfold find_set, find_representative_with_full_compression. simpl.
pose proof (representative_reaches n _ x Hok Hx) as Hreach.
unfold representative in Hreach. simpl in Hreach.
destruct (compressLoop_ok n rk (length pa) pa x _ Hok Hreach) as (H1 & H2 & H3).
split; [done|]. split; [done|]. split; [done|]. split; [done|].
intros y Hy. eapply reaches_representative; [done|]. simpl.
apply H3. by apply (representative_reaches n (mkDisjointSets rk pa)).
Qed.

(** *** Union by rank *)

Lemma sum_list_insert (l : list nat) i v w :
  l !! i = Some v → sum_list (<[i := w]> l) + v = sum_list l + w.
Proof.
revert i. induction l as [|a l IH]; intros [|i] H; simpl in *; try done.
- injection H as ->. lia.
- specialize (IH _ H). lia.
Qed.

Lemma get_at_insert (l : list nat) i j w :
  i < length l →
  get_at (<[i := w]> l) j = if decide (i = j) then w else get_at l j.
Proof.
intros Hi. unfold get_at. rewrite list_lookup_insert.
destruct (decide (i = j)) as [->|Hne].
- rewrite decide_True by done. done.
- rewrite decide_False by tauto. done.
Qed.

(** The representative [a] becomes a child of the representative [b];
    [rk'] is the rank vector afterwards. *)
Lemma attach_reaches pa a b :
  pa !! a = Some a → pa !! b = Some b → a ≠ b →
  ∀ y r, reaches pa y r →
         reaches (<[a := b]> pa) y (if decide (r = a) then b else r).
Proof.
intros Ha Hb Hab.
assert (Hroot : reaches (<[a := b]> pa) b b).
{ apply reaches_root. by rewrite list_lookup_insert_ne. }
induction 1 as [r Hr | y q r Hy Hq Hreach IH].
- destruct (decide (r = a)) as [->|Hne].
  + apply (reaches_step _ _ b); [|done|done].
    apply list_lookup_insert_eq. by eapply lookup_lt_Some.
  + apply reaches_root. by rewrite list_lookup_insert_ne.
- apply (reaches_step _ _ q); [|done|done].
  rewrite list_lookup_insert_ne; [done|]. congruence.
Qed.

Lemma attach_roots rk rk' pa a b :
  pa !! a = Some a → pa !! b = Some b → a ≠ b →
  length (roots (mkDisjointSets rk' (<[a := b]> pa))) + 1
  = length (roots (mkDisjointSets rk pa)).
Proof.
intros Ha Hb Hab.
assert (Hperm : roots (mkDisjointSets rk pa)
                ≡ₚ a :: roots (mkDisjointSets rk' (<[a := b]> pa))).
{ apply NoDup_Permutation.
  - apply NoDup_roots.
  - constructor; [|apply NoDup_roots].
    rewrite elem_of_roots. simpl. rewrite list_lookup_insert_eq; [congruence|].
    by eapply lookup_lt_Some.
  - intros x. rewrite elem_of_cons, !elem_of_roots. simpl.
    rewrite list_lookup_insert_Some. split.
    + intros Hx. destruct (decide (x = a)) as [->|Hne]; [by left|].
      right. right. split; [congruence|done].
    + intros [->|[(-> & -> & _)|[_ Hx]]]; done. }
rewrite Hperm. simpl. lia.
Qed.

Lemma attach_ok n ds a b rk' :
  ds_ok n ds → a ∈ roots ds → b ∈ roots ds → a ≠ b →
  (rk' = rank ds ∧ get_at (rank ds) a < get_at (rank ds) b)
  ∨ (rk' = <[b := get_at (rank ds) b + 1]> (rank ds)
     ∧ get_at (rank ds) a = get_at (rank ds) b) →
  let ds' := mkDisjointSets rk' (<[a := b]> (parent ds)) in
  ds_ok n ds'
  ∧ length (roots ds') + 1 = length (roots ds)
  ∧ ∀ y, y < n →
      representative ds' y
      = if decide (representative ds y = a) then b else representative ds y.
Proof.
intros Hok Ha Hb Hab Hrk ds'.
apply elem_of_roots in Ha, Hb.
destruct ds as [rk pa]. simpl in *.
pose proof (attach_roots rk rk' pa a b Ha Hb Hab) as Hroots.
pose proof Hok as [Hlp Hlr Hplt Hrlt Hsum]; simpl in *.
assert (Hbn : b < n) by (by eapply Hplt).
assert (Han : a < n) by (by eapply Hplt).
assert (Hok' : ds_ok n ds').
{ constructor; simpl.
  - by rewrite length_insert.
  - destruct Hrk as [[-> _]|[-> _]]; [done|by rewrite length_insert].
  - intros y q. rewrite list_lookup_insert_Some.
    intros [(-> & -> & _)|[_ Hy]]; [done|by eapply Hplt].
  - intros y q. rewrite list_lookup_insert_Some.
    intros [(-> & -> & _)|[Hay Hy]] Hq.
    + destruct Hrk as [[-> Hlt]|[-> Heq]]; [done|].
      rewrite !get_at_insert by lia.
      rewrite decide_False by done. rewrite decide_True by done. lia.
    + pose proof (Hrlt _ _ Hy Hq) as Hlt.
      destruct Hrk as [[-> _]|[-> Heq]]; [done|].
      rewrite !get_at_insert by lia.
      assert (Hyb : b ≠ y) by congruence.
      rewrite (decide_False (P := b = y)) by done.
      destruct (decide (b = q)) as [->|_]; lia.
  - destruct Hrk as [[-> _]|[-> Heq]]; [unfold ds' in *; lia|].
    destruct (lookup_lt_is_Some_2 rk b ltac:(lia)) as [v Hv].
    pose proof (sum_list_insert rk b v (get_at rk b + 1) Hv) as Hs.
    pose proof (get_at_lookup _ _ _ Hv) as Hg.
    unfold ds' in *. lia. }
split; [done|]. split; [done|].
intros y Hy. eapply reaches_representative; [done|]. simpl.
apply attach_reaches; try done.
by apply (representative_reaches n (mkDisjointSets rk pa)).
Qed.

(** [union_set] on two vertices of different sets: one representative
    fewer, and the vertices with representative [a] get [b]; [a] and [b]
    are the representatives of [x] and [y], in one order or the other. *)
Lemma link_sets_spec n ds i j :
  ds_ok n ds → i ∈ roots ds → j ∈ roots ds → i ≠ j →
  let ds' := link_sets ds i j in
  ds_ok n ds'
  ∧ length (roots ds') + 1 = length (roots ds)
  ∧ ∃ a b, ((a = i ∧ b = j) ∨ (a = j ∧ b = i))
      ∧ ∀ y, y < n →
          representative ds' y
          = if decide (representative ds y = a) then b else representative ds y.
Proof.
intros Hok Hi Hj Hij. unfold link_sets.
assert (Hin : i < n).
{ apply elem_of_roots in Hi. by eapply ok_parent_lt. }
assert (Hjn : j < n).
{ apply elem_of_roots in Hj. by eapply ok_parent_lt. }
destruct (find_set ds i) as [ds1 i'] eqn:E1.
pose proof (find_set_spec n ds i Hok Hin) as (Hok1 & Hi' & Hroots1 & Hrank1 & Hrep1).
rewrite E1 in *. cbn [fst snd] in *.
rewrite (representative_of_root n ds i Hok Hi) in Hi'. subst i'.
destruct (find_set ds1 j) as [ds2 j'] eqn:E2.
pose proof (find_set_spec n ds1 j Hok1 Hjn) as (Hok2 & Hj' & Hroots2 & Hrank2 & Hrep2).
rewrite E2 in *. cbn [fst snd] in *.
rewrite Hrep1, (representative_of_root n ds j Hok Hj) in Hj' by done. subst j'.
rewrite decide_False by done.
assert (Hi2 : i ∈ roots ds2) by (rewrite Hroots2, Hroots1; done).
assert (Hj2 : j ∈ roots ds2) by (rewrite Hroots2, Hroots1; done).
assert (Hrep : ∀ y, y < n → representative ds2 y = representative ds y).
{ intros y Hy. rewrite Hrep2, Hrep1; done. }
assert (Hlen : length (roots ds2) = length (roots ds)) by congruence.
destruct (decide (get_at (rank ds2) j < get_at (rank ds2) i)) as [Hlt|Hge].
- destruct (attach_ok n ds2 j i (rank ds2) Hok2 Hj2 Hi2 ltac:(done)
              ltac:(left; done)) as (H1 & H2 & H3).
  split; [done|]. split; [lia|].
  exists j, i. split; [by right|]. intros y Hy. rewrite H3, Hrep; done.
- destruct (attach_ok n ds2 i j
              (if decide (get_at (rank ds2) i = get_at (rank ds2) j)
               then <[j := get_at (rank ds2) j + 1]> (rank ds2) else rank ds2)
              Hok2 Hi2 Hj2 Hij) as (H1 & H2 & H3).
  { case_decide; [by right|left; split; [done|lia]]. }
  split; [done|]. split; [lia|].
  exists i, j. split; [by left|]. intros y Hy. rewrite H3, Hrep; done.
Qed.

Lemma union_set_spec n ds x y :
  ds_ok n ds → x < n → y < n →
  representative ds x ≠ representative ds y →
  let ds' := union_set ds x y in
  ds_ok n ds'
  ∧ length (roots ds') + 1 = length (roots ds)
  ∧ ∃ a b, ((a = representative ds x ∧ b = representative ds y)
            ∨ (a = representative ds y ∧ b = representative ds x))
      ∧ ∀ z, z < n →
          representative ds' z
          = if decide (representative ds z = a) then b else representative ds z.
Proof.
intros Hok Hx Hy Hne. unfold union_set.
destruct (find_set ds x) as [ds1 i] eqn:E1.
pose proof (find_set_spec n ds x Hok Hx) as (Hok1 & Hi & Hroots1 & _ & Hrep1).
rewrite E1 in *. cbn [fst snd] in *. subst i.
destruct (find_set ds1 y) as [ds2 j] eqn:E2.
pose proof (find_set_spec n ds1 y Hok1 Hy) as (Hok2 & Hj & Hroots2 & _ & Hrep2).
rewrite E2 in *. cbn [fst snd] in *. rewrite Hrep1 in Hj by done. subst j.
assert (Hi2 : representative ds x ∈ roots ds2).
{ rewrite Hroots2, Hroots1. by eapply representative_root. }
assert (Hj2 : representative ds y ∈ roots ds2).
{ rewrite Hroots2, Hroots1. by eapply representative_root. }
destruct (link_sets_spec n ds2 _ _ Hok2 Hi2 Hj2 Hne)
  as (H1 & H2 & a & b & Hab & H3).
split; [done|]. split; [congruence|].
exists a, b. split; [done|]. intros z Hz.
rewrite H3, Hrep2, Hrep1; done.
Qed.

(** *** The initial sets *)

Lemma singletons_parent n :
  singletons n = mkDisjointSets (replicate n 0) (seq 0 n).
Proof.
unfold singletons.
assert (H : ∀ m k, m + k = n →
  foldl (λ ds i, make_set i ds)
    (mkDisjointSets (replicate n 0) (seq 0 m ++ replicate k 0)) (seq m k)
  = mkDisjointSets (replicate n 0) (seq 0 n)).
{ intros m k. revert m. induction k as [|k IH]; intros m Hmk; simpl.
  - rewrite app_nil_r. by replace m with n by lia.
  - unfold make_set at 2. simpl.
    rewrite list_insert_id
      by (apply lookup_replicate_2; lia).
    replace (<[m := m]> (seq 0 m ++ 0 :: replicate k 0))
      with (seq 0 (S m) ++ replicate k 0).
    + apply IH. lia.
    + rewrite seq_S, <- app_assoc.
      rewrite insert_app_r_alt by (rewrite length_seq; lia).
      rewrite length_seq, Nat.sub_diag. done. }
apply (H 0 n). lia.
Qed.

Lemma filter_all {X} (P : X → Prop) `{∀ x, Decision (P x)} (l : list X) :
  Forall P l → filter P l = l.
Proof.
induction 1 as [|x l Hx Hl IH]; [done|].
rewrite filter_cons_True by done. by rewrite IH.
Qed.

Lemma roots_singletons n : roots (singletons n) = seq 0 n.
Proof.
rewrite singletons_parent. unfold roots. simpl. rewrite length_seq.
apply filter_all, Forall_forall. intros x Hx. apply elem_of_seq in Hx.
by rewrite lookup_seq_lt by lia.
Qed.

Lemma singletons_ok n : ds_ok n (singletons n).
Proof.
constructor.
- rewrite singletons_parent. simpl. apply length_seq.
- rewrite singletons_parent. simpl. apply length_replicate.
- rewrite singletons_parent. simpl. intros x p Hx.
  apply lookup_seq in Hx. lia.
- rewrite singletons_parent. simpl. intros x p Hx Hne.
  apply lookup_seq in Hx. lia.
- rewrite roots_singletons, singletons_parent. simpl.
  rewrite sum_list_replicate, length_seq. lia.
Qed.

Lemma representative_singletons n x :
  x < n → representative (singletons n) x = x.
Proof.
intros Hx. eapply representative_of_root; [apply singletons_ok|].
rewrite roots_singletons. apply elem_of_seq. lia.
Qed.

(** ** The optimal spanning tree: [computeOptimalSpanningTree] *)

(** Modelled from the spec: [coverage()] is declared in
    [LocalMarkerGraph2.hpp], which is not among the sources; it is the
    total count of [Info] entries across all groups of the edge. *)
Definition coverage (edge : LocalMarkerGraph2Edge) : nat :=
  sum_list_with (λ p, length (snd p)) (infos edge).

(** [graph[e].isSpanningTreeEdge = b] and
    [graph[e].isSpanningTreeBestPathEdge = b]. *)
Definition setSpanningTreeEdge (b : bool) (se : StoredEdge) : StoredEdge :=
  {| source := source se; target := target se;
     property :=
       {| infos := infos (property se);
          isSpanningTreeEdge := b;
          isSpanningTreeBestPathEdge :=
            isSpanningTreeBestPathEdge (property se) |} |}.

Definition setSpanningTreeBestPathEdge (b : bool) (se : StoredEdge)
  : StoredEdge :=
  {| source := source se; target := target se;
     property :=
       {| infos := infos (property se);
          isSpanningTreeEdge := isSpanningTreeEdge (property se);
          isSpanningTreeBestPathEdge := b |} |}.

Definition withEdges (graph : LocalMarkerGraph2) (es : list StoredEdge)
  : LocalMarkerGraph2 :=
  {| vertices := vertices graph; edges := es; vertexMap := vertexMap graph |}.

(** "Mark all edges as initially not part of the optimal spanning tree." *)
Definition clearSpanningTree (graph : LocalMarkerGraph2) : LocalMarkerGraph2 :=
  withEdges graph (setSpanningTreeEdge false <$> edges graph).

(** "Gather all the edges and sort them by decreasing coverage." *)
Definition edgeTable (graph : LocalMarkerGraph2)
  : list (edge_descriptor * nat) :=
  sort OrderPairsBySecondOnlyGreater
    (imap (λ e se, (e, coverage (property se))) (edges graph)).

(** "Map the vertices to integers in [0, number of vertices)": the local
    [vertexMap], filled from a [uint32_t] counter in the order in which
    the vertices are enumerated. *)
Definition vertexIndex (v : vertex_descriptor) : nat :=
  N.to_nat (N.of_nat v mod two32).

(** One turn of the loop over the edge table. *)
Definition spanningTreeStep (st : LocalMarkerGraph2 * disjoint_sets)
    (p : edge_descriptor * nat) : LocalMarkerGraph2 * disjoint_sets :=
  let '(graph, disjointSets) := st in
  let e := fst p in
  match edges graph !! e with
  | None => st
  | Some se =>
      let i0 := vertexIndex (source se) in
      let i1 := vertexIndex (target se) in
      let '(disjointSets, component0) := find_set disjointSets i0 in
      let '(disjointSets, component1) := find_set disjointSets i1 in
      if decide (component0 ≠ component1) then
        (withEdges graph (<[e := setSpanningTreeEdge true se]> (edges graph)),
         union_set disjointSets i0 i1)
      else (graph, disjointSets)
  end.

(** The loop, from the cleared graph and the sets of single vertices. *)
Definition spanningTreeLoop (graph : LocalMarkerGraph2)
    (table : list (edge_descriptor * nat))
  : LocalMarkerGraph2 * disjoint_sets :=
  foldl spanningTreeStep
    (clearSpanningTree graph, singletons (num_vertices graph)) table.

Definition computeOptimalSpanningTree (graph : LocalMarkerGraph2)
  : LocalMarkerGraph2 :=
  fst (spanningTreeLoop graph (edgeTable (clearSpanningTree graph))).

(** *** Graph notions used to state the result *)

(** Every edge joins two vertices of the graph. *)
Definition wellFormed (graph : LocalMarkerGraph2) : Prop :=
  ∀ e se, edges graph !! e = Some se →
          source se < num_vertices graph ∧ target se < num_vertices graph.

(** Edge [e] joins [u] and [v], in one direction or the other. *)
Definition joins (graph : LocalMarkerGraph2) (e : edge_descriptor)
    (u v : vertex_descriptor) : Prop :=
  ∃ se, edges graph !! e = Some se
        ∧ ((source se = u ∧ target se = v) ∨ (source se = v ∧ target se = u)).

(** A walk from [u] to [v] along edges that satisfy [allowed], the
    direction of the edges being ignored. *)
Inductive walk (graph : LocalMarkerGraph2) (allowed : edge_descriptor → Prop)
  : vertex_descriptor → list edge_descriptor → vertex_descriptor → Prop :=
| walk_nil u : walk graph allowed u [] u
| walk_cons u v w e es :
    allowed e → joins graph e u v → walk graph allowed v es w →
    walk graph allowed u (e :: es) w.

Definition connected (graph : LocalMarkerGraph2)
    (allowed : edge_descriptor → Prop) (u v : vertex_descriptor) : Prop :=
  ∃ es, walk graph allowed u es v.

(** No cycle: a closed walk that uses no edge twice is empty. *)
Definition acyclic (graph : LocalMarkerGraph2)
    (allowed : edge_descriptor → Prop) : Prop :=
  ∀ u es, walk graph allowed u es u → NoDup es → es = [].

Definition anyEdge (e : edge_descriptor) : Prop := True.

Definition spanningTreeEdge (graph : LocalMarkerGraph2) (e : edge_descriptor)
  : Prop :=
  ∃ se, edges graph !! e = Some se ∧ isSpanningTreeEdge (property se) = true.

Definition spanningTreeEdgeCount (graph : LocalMarkerGraph2) : nat :=
  length (filter (λ se, isSpanningTreeEdge (property se) = true) (edges graph)).

(** One vertex of each connected component of the graph. *)
Definition componentRepresentatives (graph : LocalMarkerGraph2)
    (reps : list vertex_descriptor) : Prop :=
  NoDup reps
  ∧ (∀ r, r ∈ reps → r < num_vertices graph)
  ∧ (∀ v, v < num_vertices graph →
          ∃ r, r ∈ reps ∧ connected graph anyEdge v r)
  ∧ (∀ r r', r ∈ reps → r' ∈ reps → connected graph anyEdge r r' → r = r').

(** The two graphs have the same vertices and the same edges, up to the
    flag [isSpanningTreeEdge]. *)
Definition sameUpToSpanningTree (graph graph' : LocalMarkerGraph2) : Prop :=
  vertices graph' = vertices graph
  ∧ vertexMap graph' = vertexMap graph
  ∧ setSpanningTreeEdge false <$> edges graph'
    = setSpanningTreeEdge false <$> edges graph.

(** *** A graph with parallel edges, a loop and an isolated vertex

    Five vertices; [observations c] is an edge property with coverage [c].
    Edges: 0 -> 1 twice (coverage 1 and 3), 1 -> 2, 2 -> 0, 2 -> 2 and
    3 -> 1; vertex 4 is isolated. *)
Module Tangle.

Definition observations (c : nat) : LocalMarkerGraph2Edge :=
  {| infos := [(abutting, replicate c (mkInfo 0%N 0%N 1%N))];
     isSpanningTreeEdge := false; isSpanningTreeBestPathEdge := false |}.

Definition vertex (i : N) : LocalMarkerGraph2Vertex :=
  {| vertexId := i; distance := 0; markerInfos := [] |}.

Definition graph : LocalMarkerGraph2 :=
  {| vertices := vertex <$> [10; 11; 12; 13; 14]%N;
     edges := [mkStoredEdge 0 1 (observations 1);
               mkStoredEdge 0 1 (observations 3);
               mkStoredEdge 1 2 (observations 2);
               mkStoredEdge 2 0 (observations 5);
               mkStoredEdge 2 2 (observations 9);
               mkStoredEdge 3 1 (observations 1)];
     vertexMap := {[ 10%N := 0; 11%N := 1; 12%N := 2; 13%N := 3; 14%N := 4 ]} |}.

End Tangle.

Example tangle_edgeTable :
  edgeTable Tangle.graph = [(4, 9); (3, 5); (1, 3); (2, 2); (5, 1); (0, 1)].
Proof. vm_compute. reflexivity. Qed.

Example tangle_spanningTree :
  (λ se, isSpanningTreeEdge (property se))
  <$> edges (computeOptimalSpanningTree Tangle.graph)
  = [false; true; false; true; false; true].
Proof. vm_compute. reflexivity. Qed.

(** *** Walks and connectivity *)

Lemma joins_sym graph e u v : joins graph e u v → joins graph e v u.
Proof. intros (se & He & H). exists se. split; [done|]. tauto. Qed.

Lemma joins_lt graph e u v :
  wellFormed graph → joins graph e u v →
  u < num_vertices graph ∧ v < num_vertices graph.
Proof.
intros Hwf (se & He & H). destruct (Hwf _ _ He) as [H0 H1].
destruct H as [[<- <-]|[<- <-]]; done.
Qed.

Lemma walk_app graph allowed u es1 v es2 w :
  walk graph allowed u es1 v → walk graph allowed v es2 w →
  walk graph allowed u (es1 ++ es2) w.
Proof.
induction 1 as [|u x v e es He Hj Hw IH]; intros H2; simpl; [done|].
by apply (walk_cons _ _ _ x); [..|apply IH].
Qed.

Lemma walk_reverse graph allowed u es v :
  walk graph allowed u es v → walk graph allowed v (reverse es) u.
Proof.
induction 1 as [|u x v e es He Hj Hw IH]; [constructor|].
rewrite reverse_cons. eapply walk_app; [exact IH|].
apply (walk_cons _ _ _ u); [done|by apply joins_sym|constructor].
Qed.

Lemma walk_impl graph graph' (allowed allowed' : edge_descriptor → Prop) u es v :
  (∀ e x y, allowed e → joins graph e x y → allowed' e ∧ joins graph' e x y) →
  walk graph allowed u es v → walk graph' allowed' u es v.
Proof.
intros H. induction 1 as [|u x v e es He Hj Hw IH]; [constructor|].
destruct (H _ _ _ He Hj) as [He' Hj'].
by apply (walk_cons _ _ _ x).
Qed.

Lemma walk_Forall graph allowed u es v :
  walk graph allowed u es v → Forall allowed es.
Proof. induction 1; constructor; done. Qed.

Lemma walk_restrict graph (allowed allowed' : edge_descriptor → Prop) u es v :
  walk graph allowed u es v → Forall allowed' es → walk graph allowed' u es v.
Proof.
induction 1 as [|u x v e es He Hj Hw IH]; intros Hall; [constructor|].
apply Forall_cons in Hall as [He' Hall].
apply (walk_cons _ _ _ x); [done|done|by apply IH].
Qed.

Lemma walk_app_inv graph allowed u es1 e es2 w :
  walk graph allowed u (es1 ++ e :: es2) w →
  ∃ x y, walk graph allowed u es1 x ∧ allowed e ∧ joins graph e x y
         ∧ walk graph allowed y es2 w.
Proof.
revert u. induction es1 as [|e1 es1 IH]; intros u H; simpl in H.
- inversion H as [|? y ? ? ? He Hj Hw]; subst.
  exists u, y. split; [constructor|done].
- inversion H as [|? y ? ? ? He Hj Hw]; subst.
  destruct (IH _ Hw) as (x & y' & H1 & H2 & H3 & H4).
  exists x, y'. split; [|done]. by apply (walk_cons _ _ _ y).
Qed.

Lemma walk_lt graph allowed u es v :
  wellFormed graph → walk graph allowed u es v →
  u < num_vertices graph → v < num_vertices graph.
Proof.
intros Hwf. induction 1 as [|u x v e es He Hj Hw IH]; [done|].
intros _. apply IH. by destruct (joins_lt _ _ _ _ Hwf Hj).
Qed.

Lemma connected_refl graph allowed u : connected graph allowed u u.
Proof. exists []. constructor. Qed.

Lemma connected_sym graph allowed u v :
  connected graph allowed u v → connected graph allowed v u.
Proof. intros [es H]. exists (reverse es). by apply walk_reverse. Qed.

Lemma connected_trans graph allowed u v w :
  connected graph allowed u v → connected graph allowed v w →
  connected graph allowed u w.
Proof. intros [es1 H1] [es2 H2]. exists (es1 ++ es2). by eapply walk_app. Qed.

Lemma connected_edge graph (allowed : edge_descriptor → Prop) e u v :
  allowed e → joins graph e u v → connected graph allowed u v.
Proof.
intros He Hj. exists [e]. apply (walk_cons _ _ _ v); [done|done|constructor].
Qed.

Lemma connected_impl graph graph' (allowed allowed' : edge_descriptor → Prop) u v :
  (∀ e x y, allowed e → joins graph e x y → allowed' e ∧ joins graph' e x y) →
  connected graph allowed u v → connected graph' allowed' u v.
Proof. intros H [es Hw]. exists es. by eapply walk_impl. Qed.

(** Connectivity along edges each of which joins connected vertices. *)
Lemma connected_through graph graph' (allowed allowed' : edge_descriptor → Prop) u v :
  (∀ e x y, allowed e → joins graph e x y → connected graph' allowed' x y) →
  connected graph allowed u v → connected graph' allowed' u v.
Proof.
intros H [es Hw]. induction Hw as [|u x v e es He Hj Hw IH].
- apply connected_refl.
- eapply connected_trans; [by eapply H|done].
Qed.

(** *** Adding an edge between two components *)

Section AddEdge.
Variable graph : LocalMarkerGraph2.
Variables (T T' : edge_descriptor → Prop) (e : edge_descriptor).
Variables (i0 i1 : vertex_descriptor).
Hypothesis T'_spec : ∀ e', T' e' ↔ e' = e ∨ T e'.
Hypothesis e_ends : ∀ x y, joins graph e x y ↔ (x = i0 ∧ y = i1) ∨ (x = i1 ∧ y = i0).
Hypothesis apart : ¬ connected graph T i0 i1.

Lemma acyclic_add_edge : acyclic graph T → acyclic graph T'.
Proof using T'_spec e_ends apart.
intros Hacyc u es Hw Hnd.
destruct (decide (e ∈ es)) as [Hin|Hnin].
- exfalso. apply list_elem_of_split in Hin as (es1 & es2 & ->).
  apply NoDup_app in Hnd as (Hnd1 & Hnot1 & Hnd2).
  apply NoDup_cons in Hnd2 as [Hnot2 _].
  apply walk_app_inv in Hw as (x & y & Hw1 & _ & Hj & Hw2).
  assert (H1 : walk graph T u es1 x).
  { eapply walk_restrict; [exact Hw1|]. apply Forall_forall. intros e' He'.
    pose proof (walk_Forall _ _ _ _ _ Hw1) as Hall.
    rewrite Forall_forall in Hall. pose proof (Hall _ He') as He''.
    apply T'_spec in He''.
    destruct He'' as [->|?]; [|done]. exfalso. eapply Hnot1; [done|].
    apply elem_of_cons. by left. }
  assert (H2 : walk graph T y es2 u).
  { eapply walk_restrict; [exact Hw2|]. apply Forall_forall. intros e' He'.
    pose proof (walk_Forall _ _ _ _ _ Hw2) as Hall.
    rewrite Forall_forall in Hall. pose proof (Hall _ He') as He''.
    apply T'_spec in He''.
    destruct He'' as [->|?]; [|done]. done. }
  assert (Hyx : connected graph T y x).
  { eapply connected_trans; [by eexists|by eexists]. }
  apply e_ends in Hj as [[-> ->]|[-> ->]]; apply apart.
  + by apply connected_sym.
  + done.
- apply (Hacyc u); [|done].
  eapply walk_restrict; [exact Hw|]. apply Forall_forall. intros e' He'.
  pose proof (walk_Forall _ _ _ _ _ Hw) as Hall.
  rewrite Forall_forall in Hall. pose proof (Hall _ He') as He''.
    apply T'_spec in He''.
  destruct He'' as [->|?]; done.
Qed.

End AddEdge.

Section Merge.
Variable graph : LocalMarkerGraph2.
Variables (T T' : edge_descriptor → Prop) (e : edge_descriptor).
Variables (i0 i1 : vertex_descriptor).
Variables (rep rep' : nat → nat) (a b : nat).
Hypothesis wf : wellFormed graph.
Hypothesis T'_spec : ∀ e', T' e' ↔ e' = e ∨ T e'.
Hypothesis e_ends : ∀ x y, joins graph e x y ↔ (x = i0 ∧ y = i1) ∨ (x = i1 ∧ y = i0).
Hypothesis i0_lt : i0 < num_vertices graph.
Hypothesis i1_lt : i1 < num_vertices graph.
Hypothesis ab : (a = rep i0 ∧ b = rep i1) ∨ (a = rep i1 ∧ b = rep i0).
Hypothesis rep'_spec : ∀ z, z < num_vertices graph →
  rep' z = if decide (rep z = a) then b else rep z.
Hypothesis rep_spec : ∀ u v, u < num_vertices graph → v < num_vertices graph →
  (rep u = rep v ↔ connected graph T u v).

Lemma merge_ends : rep' i0 = rep' i1.
Proof using ab rep'_spec i0_lt i1_lt.
rewrite !rep'_spec by done.
destruct ab as [[-> ->]|[-> ->]]; repeat case_decide; congruence.
Qed.

Lemma connected_T_T' u v : connected graph T u v → connected graph T' u v.
Proof using T'_spec.
apply connected_impl. intros e' x y He' Hj. split; [|done].
apply T'_spec. by right.
Qed.

Lemma merge_representatives u v :
  u < num_vertices graph → v < num_vertices graph →
  (rep' u = rep' v ↔ connected graph T' u v).
Proof using All.
intros Hu Hv. split.
- rewrite !rep'_spec by done.
  assert (He : T' e) by (apply T'_spec; by left).
  assert (H01 : connected graph T' i0 i1).
  { eapply connected_edge; [exact He|]. apply e_ends. by left. }
  assert (H10 : connected graph T' i1 i0) by by apply connected_sym.
  assert (Hto : ∀ x i, x < num_vertices graph → i < num_vertices graph →
            rep x = rep i → connected graph T' x i).
  { intros x i Hx Hi Hxi. apply connected_T_T'. by apply rep_spec. }
  assert (Hfrom : ∀ x i, x < num_vertices graph → i < num_vertices graph →
            rep x = rep i → connected graph T' i x).
  { intros x i Hx Hi Hxi. apply connected_sym. by apply Hto. }
  destruct (decide (rep u = a)) as [Hua|Hua];
    destruct (decide (rep v = a)) as [Hva|Hva]; intros Heq.
  + apply Hto; congruence.
  + destruct ab as [[-> ->]|[-> ->]].
    * eapply connected_trans; [by apply (Hto u i0)|].
      eapply connected_trans; [exact H01|]. apply Hfrom; congruence.
    * eapply connected_trans; [by apply (Hto u i1)|].
      eapply connected_trans; [exact H10|]. apply Hfrom; congruence.
  + destruct ab as [[-> ->]|[-> ->]].
    * eapply connected_trans; [apply (Hto u i1); congruence|].
      eapply connected_trans; [exact H10|]. apply Hfrom; congruence.
    * eapply connected_trans; [apply (Hto u i0); congruence|].
      eapply connected_trans; [exact H01|]. apply Hfrom; congruence.
  + apply Hto; congruence.
- intros [es Hw]. revert Hu. induction Hw as [|u x v e' es He' Hj Hw IH]; [done|].
  intros Hu. destruct (joins_lt _ _ _ _ wf Hj) as [_ Hx].
  rewrite <- (IH Hv Hx).
  apply T'_spec in He' as [->|He'].
  + apply e_ends in Hj as [[-> ->]|[-> ->]];
      [apply merge_ends | symmetry; apply merge_ends].
  + assert (Hux : rep u = rep x).
    { apply rep_spec; [done..|]. by eapply connected_edge. }
    rewrite !rep'_spec by done. by rewrite Hux.
Qed.

End Merge.

(** *** The graph keeps its structure *)

Lemma setSpanningTreeEdge_twice b b' se :
  setSpanningTreeEdge b (setSpanningTreeEdge b' se) = setSpanningTreeEdge b se.
Proof. done. Qed.

Lemma sameUpToSpanningTree_lookup graph graph' e se' :
  sameUpToSpanningTree graph graph' →
  edges graph' !! e = Some se' →
  ∃ se, edges graph !! e = Some se
        ∧ setSpanningTreeEdge false se' = setSpanningTreeEdge false se.
Proof.
intros (_ & _ & H) He.
assert (H' : (setSpanningTreeEdge false <$> edges graph') !! e
             = (setSpanningTreeEdge false <$> edges graph) !! e) by by rewrite H.
rewrite !list_lookup_fmap, He in H'.
destruct (edges graph !! e) as [se|]; [|done].
exists se. split; [done|]. by apply (inj Some) in H'.
Qed.

Lemma sameUpToSpanningTree_sym graph graph' :
  sameUpToSpanningTree graph graph' → sameUpToSpanningTree graph' graph.
Proof. intros (? & ? & ?). by split; [|split]. Qed.

Lemma setSpanningTreeEdge_ends se se' :
  setSpanningTreeEdge false se' = setSpanningTreeEdge false se →
  source se' = source se ∧ target se' = target se
  ∧ infos (property se') = infos (property se).
Proof. intros [= ? ? ?]. done. Qed.

Lemma sameUpToSpanningTree_joins graph graph' e u v :
  sameUpToSpanningTree graph graph' →
  joins graph' e u v ↔ joins graph e u v.
Proof.
intros Hsame. split.
- intros (se' & He & H).
  destruct (sameUpToSpanningTree_lookup _ _ _ _ Hsame He) as (se & He0 & Heq).
  apply setSpanningTreeEdge_ends in Heq as (Hs & Ht & _).
  exists se. split; [done|]. by rewrite <- Hs, <- Ht.
- intros (se & He & H).
  destruct (sameUpToSpanningTree_lookup _ _ _ _
              (sameUpToSpanningTree_sym _ _ Hsame) He) as (se' & He0 & Heq).
  apply setSpanningTreeEdge_ends in Heq as (Hs & Ht & _).
  exists se'. split; [done|]. by rewrite <- Hs, <- Ht.
Qed.

Lemma sameUpToSpanningTree_clear graph :
  sameUpToSpanningTree graph (clearSpanningTree graph).
Proof.
split; [done|]. split; [done|]. simpl.
rewrite <- list_fmap_compose. by apply list_fmap_ext.
Qed.

Lemma sameUpToSpanningTree_insert graph graph' e se b :
  sameUpToSpanningTree graph graph' →
  edges graph' !! e = Some se →
  sameUpToSpanningTree graph
    (withEdges graph' (<[e := setSpanningTreeEdge b se]> (edges graph'))).
Proof.
intros (Hv & Hm & He) Hlookup. split; [done|]. split; [done|]. simpl.
rewrite list_fmap_insert, setSpanningTreeEdge_twice.
rewrite list_insert_id; [done|].
by rewrite list_lookup_fmap, Hlookup.
Qed.

Lemma spanningTreeEdge_insert graph e se e' :
  edges graph !! e = Some se →
  spanningTreeEdge
    (withEdges graph (<[e := setSpanningTreeEdge true se]> (edges graph))) e'
  ↔ e' = e ∨ spanningTreeEdge graph e'.
Proof.
intros He. unfold spanningTreeEdge. simpl.
pose proof (lookup_lt_Some _ _ _ He) as Hlt.
destruct (decide (e' = e)) as [->|Hne].
- rewrite list_lookup_insert_eq by done. split; [by left|].
  intros _. by eexists.
- rewrite list_lookup_insert_ne by done. split; [by right|].
  by intros [?|?].
Qed.

Lemma filter_length_insert {X} (P : X → Prop) `{∀ x, Decision (P x)}
    (l : list X) i x y :
  l !! i = Some x → ¬ P x → P y →
  length (filter P (<[i := y]> l)) = S (length (filter P l)).
Proof.
intros Hi Hx Hy.
rewrite insert_take_drop by (by eapply lookup_lt_Some).
rewrite <- (take_drop_middle l i x Hi) at 3.
rewrite !filter_app, !length_app.
rewrite filter_cons_True by done. rewrite filter_cons_False by done.
simpl. lia.
Qed.

Lemma spanningTreeEdgeCount_insert graph e se :
  edges graph !! e = Some se → ¬ spanningTreeEdge graph e →
  spanningTreeEdgeCount
    (withEdges graph (<[e := setSpanningTreeEdge true se]> (edges graph)))
  = S (spanningTreeEdgeCount graph).
Proof.
intros He Hnot. unfold spanningTreeEdgeCount. simpl.
apply (filter_length_insert _ _ _ se); [done| |done].
intros Hflag. apply Hnot. by exists se.
Qed.

Lemma spanningTreeEdgeCount_clear graph :
  spanningTreeEdgeCount (clearSpanningTree graph) = 0.
Proof.
unfold spanningTreeEdgeCount. simpl.
induction (edges graph) as [|se l IH]; [done|].
rewrite fmap_cons, filter_cons_False by done. exact IH.
Qed.

Lemma spanningTreeEdge_clear graph e : ¬ spanningTreeEdge (clearSpanningTree graph) e.
Proof.
intros (se & He & Hflag). unfold clearSpanningTree, withEdges in He.
cbn [edges] in He. apply list_lookup_fmap_Some in He as (se0 & -> & _). done.
Qed.

(** *** The invariant of the loop over the edge table *)

Lemma vertexIndex_small n v :
  (N.of_nat n ≤ two32)%N → v < n → vertexIndex v = v.
Proof.
intros Hn Hv. unfold vertexIndex. rewrite N.mod_small by lia. lia.
Qed.

(** After the edges [P] have had their turn: the sets are the connected
    components of the accepted edges, which are those of the edges [P],
    the accepted edges contain no cycle, and each accepted edge took one
    representative away. *)
Record loopInvariant (graph0 : LocalMarkerGraph2) (P : list edge_descriptor)
    (st : LocalMarkerGraph2 * disjoint_sets) : Prop := mkLoopInvariant {
  inv_same : sameUpToSpanningTree graph0 (fst st);
  inv_ds : ds_ok (num_vertices graph0) (snd st);
  inv_processed : ∀ e, spanningTreeEdge (fst st) e → e ∈ P;
  inv_rep : ∀ u v, u < num_vertices graph0 → v < num_vertices graph0 →
    (representative (snd st) u = representative (snd st) v
     ↔ connected graph0 (spanningTreeEdge (fst st)) u v);
  inv_conn : ∀ u v, connected graph0 (λ e, e ∈ P) u v →
    connected graph0 (spanningTreeEdge (fst st)) u v;
  inv_acyclic : acyclic graph0 (spanningTreeEdge (fst st));
  inv_count :
    spanningTreeEdgeCount (fst st) + length (roots (snd st))
    = num_vertices graph0
}.

Lemma walk_no_edges graph (allowed : edge_descriptor → Prop) u es v :
  (∀ e, ¬ allowed e) → walk graph allowed u es v → es = [] ∧ u = v.
Proof.
intros Hno. destruct 1 as [|u x v e es He _ _]; [done|]. by apply Hno in He.
Qed.

Lemma loopInvariant_initial graph0 :
  loopInvariant graph0 []
    (clearSpanningTree graph0, singletons (num_vertices graph0)).
Proof.
constructor; simpl.
- apply sameUpToSpanningTree_clear.
- apply singletons_ok.
- intros e He. by apply spanningTreeEdge_clear in He.
- intros u v Hu Hv. rewrite !representative_singletons by done. split.
  + intros ->. apply connected_refl.
  + intros [es Hw].
    by apply (walk_no_edges _ _ _ _ _ (spanningTreeEdge_clear graph0)) in Hw as [_ ?].
- intros u v [es Hw].
  apply walk_no_edges in Hw as [_ ->]; [apply connected_refl|].
  intros e He. by apply elem_of_nil in He.
- intros u es Hw _.
  by apply (walk_no_edges _ _ _ _ _ (spanningTreeEdge_clear graph0)) in Hw as [? _].
- rewrite spanningTreeEdgeCount_clear, roots_singletons, length_seq. done.
Qed.

Lemma spanningTreeStep_invariant graph0 P st e c :
  wellFormed graph0 →
  (N.of_nat (num_vertices graph0) ≤ two32)%N →
  loopInvariant graph0 P st → e ∉ P →
  loopInvariant graph0 (P ++ [e]) (spanningTreeStep st (e, c)).
Proof.
intros Hwf Hsmall [Hsame Hds Hproc Hrep Hconn Hacyc Hcount] HeP.
destruct st as [graph ds]. cbn [fst snd] in *.
assert (HP : ∀ e', e' ∈ P → e' ∈ P ++ [e]).
{ intros e' He'. apply elem_of_app. by left. }
unfold spanningTreeStep. cbn [fst].
destruct (edges graph !! e) as [se|] eqn:He.
2:{ constructor; cbn [fst snd]; try done.
    - intros e' He'. by apply HP, Hproc.
    - intros u v. apply connected_through. intros e' x y He' Hj.
      apply elem_of_app in He' as [He'|He'].
      + apply Hconn. by eapply connected_edge.
      + apply list_elem_of_singleton in He' as ->.
        apply (sameUpToSpanningTree_joins _ _ _ _ _ Hsame) in Hj.
        destruct Hj as (se & Hse & _). congruence. }
destruct (sameUpToSpanningTree_lookup _ _ _ _ Hsame He) as (se0 & He0 & Heq).
apply setSpanningTreeEdge_ends in Heq as (Hsrc & Htgt & _).
destruct (Hwf _ _ He0) as [Hs0 Ht0]. rewrite <- Hsrc in Hs0. rewrite <- Htgt in Ht0.
rewrite !(vertexIndex_small (num_vertices graph0)) by done.
set (i0 := source se) in *. set (i1 := target se) in *.
assert (Hends : ∀ x y, joins graph0 e x y
                 ↔ (x = i0 ∧ y = i1) ∨ (x = i1 ∧ y = i0)).
{ intros x y. unfold joins. split.
  - intros (se' & Hse' & H). assert (se' = se0) as -> by congruence.
    rewrite Hsrc, Htgt. destruct H as [[<- <-]|[<- <-]]; [by left|by right].
  - intros H. exists se0. split; [done|]. rewrite <- Hsrc, <- Htgt.
    destruct H as [[-> ->]|[-> ->]]; [by left|by right]. }
destruct (find_set ds i0) as [ds1 component0] eqn:E1.
pose proof (find_set_spec _ ds i0 Hds Hs0) as (Hok1 & Hc0 & Hroots1 & _ & Hrep1).
rewrite E1 in *. cbn [fst snd] in *. subst component0.
destruct (find_set ds1 i1) as [ds2 component1] eqn:E2.
pose proof (find_set_spec _ ds1 i1 Hok1 Ht0) as (Hok2 & Hc1 & Hroots2 & _ & Hrep2).
rewrite E2 in *. cbn [fst snd] in *. subst component1.
rewrite Hrep1 by done.
assert (Hrep12 : ∀ y, y < num_vertices graph0 →
          representative ds2 y = representative ds y).
{ intros y Hy. rewrite Hrep2, Hrep1; done. }
destruct (decide (representative ds i0 ≠ representative ds i1)) as [Hne|Heq].
- (* the edge is accepted *)
  destruct (union_set_spec _ ds2 i0 i1 Hok2 Hs0 Ht0)
    as (Hok' & Hroots' & a & b & Hab & Hrep').
  { rewrite !Hrep12; done. }
  assert (HT' := λ e', spanningTreeEdge_insert graph e se e' He).
  assert (Hnot : ¬ spanningTreeEdge graph e) by (intros H; by apply Hproc in H).
  assert (Hapart : ¬ connected graph0 (spanningTreeEdge graph) i0 i1).
  { intros H. by apply Hrep in H. }
  constructor; cbn [fst snd].
  + by apply sameUpToSpanningTree_insert.
  + done.
  + intros e' He'. apply HT' in He' as [->|He'].
    * apply elem_of_app. right. by apply list_elem_of_singleton.
    * by apply HP, Hproc.
  + apply (merge_representatives graph0 (spanningTreeEdge graph) _ e i0 i1
             (representative ds2) _ a b); try done.
    intros u v Hu Hv. rewrite !Hrep12 by done. by apply Hrep.
  + intros u v. apply connected_through. intros e' x y He' Hj.
    apply elem_of_app in He' as [He'|He'].
    * eapply (connected_T_T' graph0 (spanningTreeEdge graph)); [exact HT'|].
      apply Hconn. by eapply connected_edge.
    * apply list_elem_of_singleton in He' as ->.
      eapply connected_edge; [|exact Hj]. apply HT'. by left.
  + by apply (acyclic_add_edge graph0 (spanningTreeEdge graph) _ e i0 i1).
  + rewrite spanningTreeEdgeCount_insert by done.
    rewrite Hroots2, Hroots1 in Hroots'. lia.
- (* the edge is rejected *)
  assert (Heq' : representative ds i0 = representative ds i1).
  { destruct (decide (representative ds i0 = representative ds i1)); [done|].
    by exfalso. }
  constructor; cbn [fst snd]; try done.
  + intros e' He'. by apply HP, Hproc.
  + intros u v Hu Hv. rewrite !Hrep12 by done. by apply Hrep.
  + intros u v. apply connected_through. intros e' x y He' Hj.
    apply elem_of_app in He' as [He'|He'].
    * apply Hconn. by eapply connected_edge.
    * apply list_elem_of_singleton in He' as ->.
      assert (H01 : connected graph0 (spanningTreeEdge graph) i0 i1)
        by by apply Hrep.
      apply Hends in Hj as [[-> ->]|[-> ->]]; [done|by apply connected_sym].
  + congruence.
Qed.

Lemma spanningTreeLoop_invariant graph0 table :
  wellFormed graph0 →
  (N.of_nat (num_vertices graph0) ≤ two32)%N →
  NoDup (fst <$> table) →
  loopInvariant graph0 (fst <$> table) (spanningTreeLoop graph0 table).
Proof.
intros Hwf Hsmall. unfold spanningTreeLoop.
induction table as [|p table IH] using rev_ind; intros Hnd.
- apply loopInvariant_initial.
- rewrite fmap_app in *. rewrite foldl_app. simpl.
  apply NoDup_app in Hnd as (Hnd & Hnot & _).
  destruct p as [e c]. apply spanningTreeStep_invariant; try done.
  + by apply IH.
  + intros He. apply (Hnot _ He). simpl. apply elem_of_cons. by left.
Qed.

(** *** The edge table *)

Lemma edgeTable_ids graph :
  fst <$> edgeTable graph ≡ₚ seq 0 (num_edges graph).
Proof.
unfold edgeTable. rewrite sort_Permutation, fmap_imap.
rewrite (imap_ext _ (λ j _, id j)) by done.
by rewrite (imap_seq_0 (edges graph) id), list_fmap_id.
Qed.

Lemma edgeTable_NoDup graph : NoDup (fst <$> edgeTable graph).
Proof. rewrite edgeTable_ids. apply NoDup_seq. Qed.

Lemma elem_of_edgeTable_ids graph e :
  e ∈ fst <$> edgeTable graph ↔ e < num_edges graph.
Proof. rewrite edgeTable_ids, elem_of_seq. lia. Qed.

Lemma num_edges_clear graph :
  num_edges (clearSpanningTree graph) = num_edges graph.
Proof. unfold num_edges. simpl. by rewrite length_fmap. Qed.

(** *** The number of connected components *)

Lemma injection_length {X Y} (R : X → Y → Prop) (l1 : list X) (l2 : list Y) :
  NoDup l1 →
  (∀ x, x ∈ l1 → ∃ y, y ∈ l2 ∧ R x y) →
  (∀ x x' y, x ∈ l1 → x' ∈ l1 → R x y → R x' y → x = x') →
  length l1 ≤ length l2.
Proof.
revert l2. induction l1 as [|x l1 IH]; intros l2 Hnd Htot Hinj; simpl; [lia|].
apply NoDup_cons in Hnd as [Hx Hnd].
destruct (Htot x) as (y & Hy & Hxy); [apply elem_of_cons; by left|].
apply elem_of_Permutation in Hy as [l2' Hperm].
rewrite Hperm. simpl. apply le_n_S, IH; [done| |].
- intros x' Hx'. destruct (Htot x') as (y' & Hy' & Hxy');
    [apply elem_of_cons; by right|].
  exists y'. split; [|done].
  rewrite Hperm in Hy'. apply elem_of_cons in Hy' as [->|?]; [|done].
  exfalso. apply Hx.
  rewrite (Hinj x x' y); [done| | |done|done]; apply elem_of_cons; auto.
- intros x1 x2 y' H1 H2. apply Hinj; apply elem_of_cons; by right.
Qed.

(** Any two choices of one vertex per component have the same length: the
    number of connected components of the graph. *)
Lemma componentRepresentatives_length graph reps reps' :
  componentRepresentatives graph reps →
  componentRepresentatives graph reps' →
  length reps = length reps'.
Proof.
assert (H : ∀ r1 r2, componentRepresentatives graph r1 →
              componentRepresentatives graph r2 → length r1 ≤ length r2).
{ intros r1 r2 (Hnd1 & Hlt1 & Hex1 & Huniq1) (Hnd2 & Hlt2 & Hex2 & Huniq2).
  apply (injection_length (connected graph anyEdge)); [done| |].
  - intros x Hx. by apply Hex2, Hlt1.
  - intros x x' y Hx Hx' Hxy Hx'y. apply Huniq1; [done..|].
    eapply connected_trans; [exact Hxy|]. by apply connected_sym. }
intros H1 H2. apply Nat.le_antisymm; by apply H.
Qed.

(** *** An edge is flagged in its own turn only *)

Lemma spanningTreeStep_other st p e :
  e ≠ fst p →
  spanningTreeEdge (fst (spanningTreeStep st p)) e
  ↔ spanningTreeEdge (fst st) e.
Proof.
intros Hne. destruct st as [graph ds]. unfold spanningTreeStep. cbn [fst].
destruct (edges graph !! fst p) as [se|] eqn:He; [|done].
destruct (find_set ds _) as [ds1 c0]. destruct (find_set ds1 _) as [ds2 c1].
case_decide; [|done]. cbn [fst].
rewrite spanningTreeEdge_insert by done. split; [|by right].
by intros [?|?].
Qed.

Lemma spanningTreeLoop_other table st e :
  e ∉ fst <$> table →
  spanningTreeEdge (fst (foldl spanningTreeStep st table)) e
  ↔ spanningTreeEdge (fst st) e.
Proof.
revert st. induction table as [|p table IH]; intros st Hnot; simpl; [done|].
rewrite fmap_cons in Hnot. apply not_elem_of_cons in Hnot as [Hne Hnot].
rewrite IH by done. by apply spanningTreeStep_other.
Qed.

Lemma walk_processed graph u es v :
  walk graph anyEdge u es v →
  walk graph (λ e, e ∈ fst <$> edgeTable (clearSpanningTree graph)) u es v.
Proof.
apply walk_impl. intros e x y _ Hj. split; [|done].
apply elem_of_edgeTable_ids. rewrite num_edges_clear.
destruct Hj as (se & He & _). by eapply lookup_lt_Some.
Qed.

(** C1.  After [computeOptimalSpanningTree] the graph is the one it was
    given, up to the flag [isSpanningTreeEdge]; the number of edges that
    carry the flag is the number of vertices less the number of connected
    components (the length of any list of one vertex per component); the
    flagged edges contain no cycle, directions ignored; and an edge that
    carries the flag had, when its turn came in the edge table, its two
    end points in different sets of the disjoint sets structure.  The
    vertex indices are 32 bit integers, so the graph has at most 2^32
    vertices. *)
Theorem computeOptimalSpanningTree_forest graph :
  wellFormed graph →
  (N.of_nat (num_vertices graph) ≤ two32)%N →
  let graph' := computeOptimalSpanningTree graph in
  sameUpToSpanningTree graph graph'
  ∧ (∃ reps, componentRepresentatives graph reps)
  ∧ (∀ reps, componentRepresentatives graph reps →
       spanningTreeEdgeCount graph' + length reps = num_vertices graph)
  ∧ acyclic graph' (spanningTreeEdge graph')
  ∧ (∀ pre p post,
       edgeTable (clearSpanningTree graph) = pre ++ p :: post →
       spanningTreeEdge graph' (fst p) →
       ∃ se, edges graph !! fst p = Some se
         ∧ let disjointSets := snd (spanningTreeLoop graph pre) in
           let i0 := vertexIndex (source se) in
           let i1 := vertexIndex (target se) in
           representative disjointSets i0 ≠ representative disjointSets i1
           ∧ snd (find_set disjointSets i0)
             ≠ snd (find_set (fst (find_set disjointSets i0)) i1)).
Proof.
intros Hwf Hsmall graph'.
set (table := edgeTable (clearSpanningTree graph)).
pose proof (spanningTreeLoop_invariant graph table Hwf Hsmall
              (edgeTable_NoDup _)) as Hinv.
unfold graph', computeOptimalSpanningTree. fold table.
destruct (spanningTreeLoop graph table) as [g ds] eqn:Eloop.
destruct Hinv as [Hsame Hds Hproc Hrep Hconn Hacyc Hcount]. cbn [fst snd] in *.
assert (Hreps : componentRepresentatives graph (roots ds)).
{ split; [apply NoDup_roots|]. split; [|split].
  - intros r Hr. apply elem_of_roots in Hr. by eapply ok_parent_lt.
  - intros v Hv. exists (representative ds v).
    split; [by eapply representative_root|].
    eapply connected_impl; [|apply Hrep; [done|by eapply representative_lt|]].
    + intros e x y _ Hj. done.
    + symmetry. by eapply representative_idem.
  - intros r r' Hr Hr' [es Hw].
    rewrite <- (representative_of_root _ ds r Hds Hr).
    rewrite <- (representative_of_root _ ds r' Hds Hr').
    apply elem_of_roots in Hr, Hr'.
    apply Hrep; [by eapply ok_parent_lt..|].
    apply Hconn. exists es. by apply walk_processed. }
split; [done|]. split; [by exists (roots ds)|]. split; [|split].
- intros reps Hr.
  rewrite (componentRepresentatives_length graph reps (roots ds)); done.
- intros u es Hw. apply (Hacyc u).
  eapply walk_impl; [|exact Hw]. intros e x y He Hj. split; [done|].
  by apply (sameUpToSpanningTree_joins _ _ _ _ _ Hsame).
- intros pre [e c] post Htable Hflag. cbn [fst] in *.
  pose proof (edgeTable_NoDup (clearSpanningTree graph)) as Hnd.
  fold table in Hnd. rewrite Htable, fmap_app, fmap_cons in Hnd.
  apply NoDup_app in Hnd as (Hndpre & Hnotpre & Hndpost). cbn [fst] in *.
  apply NoDup_cons in Hndpost as [Hnotpost _].
  pose proof (spanningTreeLoop_invariant graph pre Hwf Hsmall Hndpre) as Hpre.
  unfold spanningTreeLoop in Eloop. rewrite Htable, foldl_app in Eloop.
  simpl in Eloop. fold (spanningTreeLoop graph pre) in Eloop.
  assert (Hstep : spanningTreeEdge
                    (fst (spanningTreeStep (spanningTreeLoop graph pre) (e, c))) e).
  { apply (spanningTreeLoop_other post); [done|]. by rewrite Eloop. }
  destruct (spanningTreeLoop graph pre) as [gpre dspre] eqn:Epre.
  destruct Hpre as [Hsame' Hds' Hproc' _ _ _ _]. cbn [fst snd] in *.
  assert (Hnot : ¬ spanningTreeEdge gpre e).
  { intros H. apply Hproc' in H. eapply Hnotpre; [exact H|].
    apply elem_of_cons. by left. }
  unfold spanningTreeStep in Hstep. cbn [fst] in Hstep.
  destruct (edges gpre !! e) as [se'|] eqn:He; [|done].
  destruct (sameUpToSpanningTree_lookup _ _ _ _ Hsame' He) as (se & He0 & Heq).
  apply setSpanningTreeEdge_ends in Heq as (Hsrc & Htgt & _).
  exists se. split; [done|]. rewrite <- Hsrc, <- Htgt.
  destruct (Hwf _ _ He0) as [Hs0 Ht0]. rewrite <- Hsrc in Hs0. rewrite <- Htgt in Ht0.
  rewrite <- (vertexIndex_small _ _ Hsmall Hs0) in Hs0.
  rewrite <- (vertexIndex_small _ _ Hsmall Ht0) in Ht0.
  pose proof (find_set_spec _ dspre _ Hds' Hs0) as (Hok1 & Hc0 & _ & _ & Hrep1).
  pose proof (find_set_spec _ (fst (find_set dspre (vertexIndex (source se')))) _
                Hok1 Ht0) as (_ & Hc1 & _).
  destruct (find_set dspre (vertexIndex (source se'))) as [ds1 c0] eqn:E1.
  cbn [fst snd] in *.
  destruct (find_set ds1 (vertexIndex (target se'))) as [ds2 c1] eqn:E2.
  cbn [fst snd] in *.
  destruct (decide (c0 ≠ c1)) as [Hne|_]; [|done].
  rewrite Hrep1 in Hc1 by done. split; congruence.
Qed.
(** *** Further properties of the spanning tree *)

Lemma computeOptimalSpanningTree_invariant graph :
  wellFormed graph →
  (N.of_nat (num_vertices graph) ≤ two32)%N →
  let table := edgeTable (clearSpanningTree graph) in
  loopInvariant graph (fst <$> table) (spanningTreeLoop graph table)
  ∧ computeOptimalSpanningTree graph = fst (spanningTreeLoop graph table).
Proof.
intros Hwf Hsmall table. split; [|done].
apply spanningTreeLoop_invariant; [done|done|apply edgeTable_NoDup].
Qed.

(** The edge table is in order of decreasing coverage, and holds each edge
    with its coverage. *)
Definition notLighter (p q : edge_descriptor * nat) : Prop := snd q ≤ snd p.

Lemma edgeTable_sorted graph : StronglySorted notLighter (edgeTable graph).
Proof.
unfold edgeTable, sort.
set (l := imap (λ e se, (e, coverage (property se))) (edges graph)).
assert (Heq : ∀ x y : nat * nat,
          notAfter OrderPairsBySecondOnlyGreater x y ↔ notLighter x y).
{ intros x y. unfold notAfter, OrderPairsBySecondOnlyGreater, notLighter.
  rewrite bool_decide_eq_false. lia. }
assert (Hsorted : StronglySorted (notAfter OrderPairsBySecondOnlyGreater)
          (merge_sort (notAfter (@OrderPairsBySecondOnlyGreater nat)) l)).
{ apply StronglySorted_merge_sort.
  - intros x y z. rewrite !Heq. unfold notLighter. lia.
  - intros x y. rewrite !Heq. unfold notLighter. lia. }
induction Hsorted as [|x t Ht IH Hall]; constructor; [done|].
eapply Forall_impl; [exact Hall|]. intros y. by rewrite Heq.
Qed.

Lemma elem_of_edgeTable graph e c :
  (e, c) ∈ edgeTable graph
  ↔ ∃ se, edges graph !! e = Some se ∧ c = coverage (property se).
Proof.
unfold edgeTable. rewrite elem_of_sort, list_elem_of_lookup. split.
- intros (i & Hi). rewrite list_lookup_imap in Hi.
  destruct (edges graph !! i) as [se|] eqn:Hse; simpl in Hi; [|done].
  injection Hi as <- <-. by exists se.
- intros (se & Hse & ->). exists e. by rewrite list_lookup_imap, Hse.
Qed.

Lemma clearSpanningTree_lookup graph e :
  edges (clearSpanningTree graph) !! e
  = setSpanningTreeEdge false <$> edges graph !! e.
Proof. unfold clearSpanningTree. simpl. apply list_lookup_fmap. Qed.

Lemma joins_computeOptimalSpanningTree graph e u v :
  wellFormed graph →
  (N.of_nat (num_vertices graph) ≤ two32)%N →
  joins (computeOptimalSpanningTree graph) e u v ↔ joins graph e u v.
Proof.
intros Hwf Hsmall.
destruct (computeOptimalSpanningTree_invariant graph Hwf Hsmall)
  as [[Hsame _ _ _ _ _ _] ->].
by apply sameUpToSpanningTree_joins.
Qed.

(** X7.  The spanning tree connects what the graph connects: two
    vertices are joined by a walk along edges of the graph exactly when
    they are joined by a walk along edges that carry
    [isSpanningTreeEdge] after [computeOptimalSpanningTree]. *)
Theorem computeOptimalSpanningTree_spans graph u v :
  wellFormed graph →
  (N.of_nat (num_vertices graph) ≤ two32)%N →
  let graph' := computeOptimalSpanningTree graph in
  connected graph anyEdge u v
  ↔ connected graph' (spanningTreeEdge graph') u v.
Proof.
intros Hwf Hsmall graph'.
destruct (computeOptimalSpanningTree_invariant graph Hwf Hsmall)
  as [[Hsame _ _ _ Hconn _ _] Heq].
fold graph' in Heq. rewrite <- Heq in *. split.
- intros [es Hw].
  eapply connected_impl; [|apply Hconn; exists es; by apply walk_processed].
  intros e x y He Hj. split; [done|].
  by apply (sameUpToSpanningTree_joins _ _ _ _ _ Hsame).
- apply connected_impl. intros e x y _ Hj. split; [done|].
  by apply (sameUpToSpanningTree_joins _ _ _ _ _ Hsame) in Hj.
Qed.

(** X8.  The spanning tree has no loop and no two edges between the same
    two vertices: an edge that carries [isSpanningTreeEdge] joins two
    different vertices, and two edges that carry it and join the same two
    vertices, in the same or in opposite directions, are one edge. *)
Theorem computeOptimalSpanningTree_simple graph e se :
  wellFormed graph →
  (N.of_nat (num_vertices graph) ≤ two32)%N →
  let graph' := computeOptimalSpanningTree graph in
  edges graph' !! e = Some se →
  isSpanningTreeEdge (property se) = true →
  source se ≠ target se
  ∧ ∀ e' se', edges graph' !! e' = Some se' →
      isSpanningTreeEdge (property se') = true →
      (source se' = source se ∧ target se' = target se)
      ∨ (source se' = target se ∧ target se' = source se) →
      e' = e.
Proof.
intros Hwf Hsmall graph' He Hflag.
destruct (computeOptimalSpanningTree_invariant graph Hwf Hsmall)
  as [[Hsame _ _ _ _ Hacyc _] Heq].
fold graph' in Heq. rewrite <- Heq in *.
assert (Hacyc' : acyclic graph' (spanningTreeEdge graph')).
{ intros u es Hw. apply (Hacyc u).
  eapply walk_impl; [|exact Hw]. intros e0 x y He0 Hj. split; [done|].
  by apply (sameUpToSpanningTree_joins _ _ _ _ _ Hsame). }
assert (Htree : spanningTreeEdge graph' e) by by exists se.
split.
- intros Hloop.
  assert (Hw : walk graph' (spanningTreeEdge graph') (source se) [e] (source se)).
  { eapply walk_cons; [done| |apply walk_nil].
    exists se. split; [done|]. left. by rewrite <- Hloop. }
  assert (Hnd : NoDup [e]) by (repeat constructor; apply not_elem_of_nil).
  by pose proof (Hacyc' _ _ Hw Hnd).
- intros e' se' He' Hflag' Hends.
  destruct (decide (e' = e)) as [|Hne]; [done|]. exfalso.
  assert (Hw : walk graph' (spanningTreeEdge graph') (source se) [e; e']
                 (source se)).
  { eapply walk_cons; [done|exists se; split; [done|by left]|].
    eapply walk_cons; [by exists se'| |apply walk_nil].
    exists se'. split; [done|]. destruct Hends as [[? ?]|[? ?]]; [by right|by left]. }
  assert (Hnd : NoDup [e; e']).
  { constructor; [|repeat constructor; apply not_elem_of_nil].
    rewrite list_elem_of_singleton. congruence. }
  by pose proof (Hacyc' _ _ Hw Hnd).
Qed.

(** X9.  The spanning tree is one of largest coverage: an edge that
    is left out of the tree has its two end points joined by a walk along
    edges of the tree none of which has a smaller coverage than the edge
    itself. *)
Theorem computeOptimalSpanningTree_heaviest graph e se :
  wellFormed graph →
  (N.of_nat (num_vertices graph) ≤ two32)%N →
  let graph' := computeOptimalSpanningTree graph in
  edges graph !! e = Some se →
  ¬ spanningTreeEdge graph' e →
  connected graph'
    (λ e', spanningTreeEdge graph' e'
           ∧ ∃ se', edges graph !! e' = Some se'
                    ∧ coverage (property se) ≤ coverage (property se'))
    (source se) (target se).
Proof.
intros Hwf Hsmall graph' He Hnot.
set (table := edgeTable (clearSpanningTree graph)).
assert (Hin : (e, coverage (property se)) ∈ table).
{ apply elem_of_edgeTable. exists (setSpanningTreeEdge false se).
  by rewrite clearSpanningTree_lookup, He. }
apply list_elem_of_split in Hin as (pre & post & Htable).
pose proof (edgeTable_NoDup (clearSpanningTree graph)) as Hnd.
pose proof (edgeTable_sorted (clearSpanningTree graph)) as Hsorted.
fold table in Hnd, Hsorted. rewrite Htable in Hnd, Hsorted.
rewrite fmap_app, fmap_cons in Hnd. cbn [fst] in Hnd.
assert (Hnd1 : NoDup (fst <$> (pre ++ [(e, coverage (property se))]))).
{ rewrite fmap_app. simpl. apply NoDup_app in Hnd as (Hndpre & Hnotpre & Hndpost).
  apply NoDup_app. split; [done|]. split; [|repeat constructor; apply not_elem_of_nil].
  intros x Hx Hx'. apply list_elem_of_singleton in Hx' as ->.
  apply (Hnotpre _ Hx). apply elem_of_cons. by left. }
apply NoDup_app in Hnd as (Hndpre & Hnotpre & Hndpost).
apply NoDup_cons in Hndpost as [Hnotpost Hndpost].
pose proof (spanningTreeLoop_invariant graph _ Hwf Hsmall Hnd1) as Hinv.
assert (Hfinal : graph'
          = fst (foldl spanningTreeStep
                   (spanningTreeLoop graph (pre ++ [(e, coverage (property se))]))
                   post)).
{ unfold graph', computeOptimalSpanningTree. fold table. rewrite Htable.
  unfold spanningTreeLoop.
  by rewrite (cons_middle _ pre post), (assoc_L (++)), foldl_app. }
destruct (spanningTreeLoop graph (pre ++ [(e, coverage (property se))]))
  as [g1 ds1] eqn:Eloop.
destruct Hinv as [Hsame1 _ Hproc1 _ Hconn1 _ _]. cbn [fst snd] in *.
assert (Hlater : ∀ e', e' ∉ fst <$> post →
          (spanningTreeEdge graph' e' ↔ spanningTreeEdge g1 e')).
{ intros e' Hnotin. rewrite Hfinal. by apply spanningTreeLoop_other. }
assert (Hjoin : connected graph (spanningTreeEdge g1) (source se) (target se)).
{ apply Hconn1. eapply connected_edge with (e := e).
  - rewrite fmap_app. apply elem_of_app. right. simpl.
    apply elem_of_cons. by left.
  - exists se. split; [done|]. by left. }
destruct Hjoin as [es Hw]. exists es.
eapply walk_impl; [|exact Hw]. intros e' x y He' Hj. split.
- apply Hproc1 in He' as Hin'. rewrite fmap_app in Hin'. simpl in Hin'.
  apply elem_of_app in Hin' as [Hin'|Hin'].
  + assert (Hnotpost' : e' ∉ fst <$> post).
    { intros Hpost. apply (Hnotpre _ Hin'). apply elem_of_cons. by right. }
    split; [by apply Hlater|].
    apply list_elem_of_fmap in Hin' as ([e0 c'] & Heq & Hin'). simpl in Heq.
    subst e0.
    assert (Hc' : (e', c') ∈ table).
    { rewrite Htable. apply elem_of_app. by left. }
    apply elem_of_edgeTable in Hc' as (se0 & Hse0 & ->).
    rewrite clearSpanningTree_lookup in Hse0.
    destruct (edges graph !! e') as [se'|] eqn:Hse'; simpl in Hse0; [|done].
    injection Hse0 as <-. exists se'. split; [done|].
    apply StronglySorted_app_1_elem_of
      with (x1 := (e', coverage (property (setSpanningTreeEdge false se'))))
           (x2 := (e, coverage (property se))) in Hsorted;
      [done|done|apply elem_of_cons; by left].
  + apply list_elem_of_singleton in Hin' as ->.
    exfalso. apply Hnot. by apply Hlater.
- apply joins_computeOptimalSpanningTree; done.
Qed.

Lemma spanningTreeLoop_same graph table :
  sameUpToSpanningTree graph (fst (spanningTreeLoop graph table)).
Proof.
unfold spanningTreeLoop.
induction table as [|p table IH] using rev_ind.
- apply sameUpToSpanningTree_clear.
- rewrite foldl_app. simpl.
  destruct (foldl spanningTreeStep _ table) as [g ds]. cbn [fst] in *.
  unfold spanningTreeStep.
  destruct (edges g !! fst p) as [se|] eqn:He; [|done].
  destruct (find_set ds _) as [ds1 c0]. destruct (find_set ds1 _) as [ds2 c1].
  case_decide; [|done]. cbn [fst]. by apply sameUpToSpanningTree_insert.
Qed.

(** X10.  [computeOptimalSpanningTree] starts afresh: the flags
    [isSpanningTreeEdge] that the graph carries when it is called play no
    part in the result, and a second call changes nothing. *)
Theorem computeOptimalSpanningTree_afresh graph graph2 :
  sameUpToSpanningTree graph graph2 →
  computeOptimalSpanningTree graph2 = computeOptimalSpanningTree graph
  ∧ computeOptimalSpanningTree (computeOptimalSpanningTree graph2)
    = computeOptimalSpanningTree graph.
Proof.
assert (Hforget : ∀ g g2, sameUpToSpanningTree g g2 →
          computeOptimalSpanningTree g2 = computeOptimalSpanningTree g).
{ intros g g2 (Hv & Hm & He).
  assert (Hclear : clearSpanningTree g2 = clearSpanningTree g).
  { unfold clearSpanningTree, withEdges. by rewrite Hv, Hm, He. }
  unfold computeOptimalSpanningTree, spanningTreeLoop, num_vertices.
  by rewrite Hclear, Hv. }
intros Hsame. split; [by apply Hforget|].
rewrite (Hforget graph graph2 Hsame).
apply Hforget. apply spanningTreeLoop_same.
Qed.


(** ** The best path in the spanning tree:
       [computeOptimalSpanningTreeBestPath] *)

(** The edges of the filtered graph [spanningTree]: those with
    [isSpanningTreeEdge] set.  [out_edges] and [in_edges] list the edges
    of a vertex in the order in which they were added to the graph. *)
Definition edgesWhere (keep : edge_descriptor → StoredEdge → bool)
    (graph : LocalMarkerGraph2) : list edge_descriptor :=
  fst <$> filter (λ p, keep (fst p) (snd p) = true)
            (imap (λ e se, (e, se)) (edges graph)).

Definition spanningTree_out_edges (graph : LocalMarkerGraph2)
    (u : vertex_descriptor) : list StoredEdge :=
  filter (λ se, isSpanningTreeEdge (property se) = true ∧ source se = u)
    (edges graph).

Definition spanningTree_in_edges (graph : LocalMarkerGraph2)
    (v : vertex_descriptor) : list StoredEdge :=
  filter (λ se, isSpanningTreeEdge (property se) = true ∧ target se = v)
    (edges graph).

(** [boost::edge(v0, v1, graph)], on the whole graph: the first edge from
    [v0] to [v1] in the list of the edges out of [v0]. *)
Definition boost_edge (v0 v1 : vertex_descriptor) (graph : LocalMarkerGraph2)
  : option edge_descriptor :=
  head (edgesWhere (λ _ se, bool_decide (source se = v0 ∧ target se = v1)) graph).

(** *** [boost::topological_sort] *)

Inductive default_color_type := white_color | gray_color | black_color.

Global Instance default_color_type_eq_dec : EqDecision default_color_type.
Proof. solve_decision. Defined.

(** The color map and the vertices written to the output so far. *)
Record dfs_state := mkDfsState {
  colorMap : list default_color_type;
  finished : list vertex_descriptor
}.

Definition get_color (st : dfs_state) (v : vertex_descriptor)
  : default_color_type :=
  default white_color (colorMap st !! v).

Definition put_color (v : vertex_descriptor) (c : default_color_type)
    (st : dfs_state) : dfs_state :=
  {| colorMap := <[v := c]> (colorMap st); finished := finished st |}.

(** [depth_first_visit] with the visitor of [topological_sort]: a vertex
    is grey while its out edges are examined, an edge to a grey vertex is
    a back edge, for which the visitor throws [not_a_dag], and a vertex is
    written to the output when it is finished.  [fuel] bounds the depth of
    the search. *)
Fixpoint depth_first_visit (fuel : nat) (graph : LocalMarkerGraph2)
    (u : vertex_descriptor) (st : dfs_state) : result dfs_state :=
  match fuel with
  | O => out_of_fuel
  | S fuel' =>
      st ← foldl
             (λ (acc : result dfs_state) (se : StoredEdge),
                st ← acc;
                match get_color st (target se) with
                | white_color => depth_first_visit fuel' graph (target se) st
                | gray_color => thrown not_a_dag
                | black_color => returned st
                end)
             (returned (put_color u gray_color st))
             (spanningTree_out_edges graph u);
      returned {| colorMap := <[u := black_color]> (colorMap st);
                  finished := finished st ++ [u] |}
  end.

(** [depth_first_search]: every vertex is made white, then each vertex
    that is still white is visited, in the order of the vertex list. *)
Definition topological_sort (graph : LocalMarkerGraph2)
  : result (list vertex_descriptor) :=
  let n := num_vertices graph in
  st ← foldl
         (λ (acc : result dfs_state) (u : vertex_descriptor),
            st ← acc;
            if decide (get_color st u = white_color)
            then depth_first_visit (S n) graph u st
            else returned st)
         (returned {| colorMap := replicate n white_color; finished := [] |})
         (seq 0 n);
  returned (finished st).

(** *** The table of best predecessors *)

(** [vertexTable]: for each vertex that has had its turn, the predecessor
    ([None] is [null_vertex()]) and the distance. *)
Abbreviation VertexTable := (gmap nat (option nat * N)) (only parsing).

(** The loop over the in edges of [v0] in the spanning tree. *)
Definition bestPredecessor (graph : LocalMarkerGraph2) (vertexTable : VertexTable)
    (v0 : vertex_descriptor) : result (option vertex_descriptor * N) :=
  foldl
    (λ (acc : result (option vertex_descriptor * N)) (se : StoredEdge),
       p ← acc;
       let v1 := source se in
       it ← assertFound (vertexTable !! v1);
       if (snd p <? add32 (snd it) 1)%N
       then returned (Some v1, add32 (snd it) 1)
       else returned p)
    (returned (None, 0%N))
    (spanningTree_in_edges graph v0).

(** [vertexTable.insert(make_pair(v0, p))] leaves an entry that is
    already there as it is. *)
Definition computeVertexTable (graph : LocalMarkerGraph2)
    (topologicallySortedVertices : list vertex_descriptor)
  : result VertexTable :=
  foldl
    (λ (acc : result VertexTable) (v0 : vertex_descriptor),
       vertexTable ← acc;
       p ← bestPredecessor graph vertexTable v0;
       returned (match vertexTable !! v0 with
                 | Some _ => vertexTable
                 | None => <[v0 := p]> vertexTable
                 end))
    (returned ∅)
    topologicallySortedVertices.

(** "Find the vertex with maximum distance." *)
Definition findLastPathVertex (graph : LocalMarkerGraph2)
    (vertexTable : VertexTable)
  : result (option vertex_descriptor * N) :=
  foldl
    (λ (acc : result (option vertex_descriptor * N)) (v : vertex_descriptor),
       last ← acc;
       it ← assertFound (vertexTable !! v);
       if (snd last <? snd it)%N
       then returned (Some v, snd it)
       else returned last)
    (returned (None, 0%N))
    (seq 0 (num_vertices graph)).

(** "Construct the longest path, beginning at the end": the edges are
    collected from the last one to the first.  [vertexTable[v1]] of a
    vertex that is not in the table is the default pair, with no
    predecessor.  [fuel] bounds the number of predecessor links that are
    followed. *)
Fixpoint longestPathLoop (fuel : nat) (graph : LocalMarkerGraph2)
    (vertexTable : VertexTable) (v : option vertex_descriptor)
    (longestPath : list edge_descriptor) : result (list edge_descriptor) :=
  match fuel with
  | O => out_of_fuel
  | S fuel' =>
      match v with
      | None => returned longestPath
      | Some v1 =>
          match fst (default (None, 0%N) (vertexTable !! v1)) with
          | None => returned longestPath
          | Some v0 =>
              e ← assertFound (boost_edge v0 v1 graph);
              longestPathLoop fuel' graph vertexTable (Some v0)
                (longestPath ++ [e])
          end
      end
  end.

(** The path that is marked, from its first edge to its last.  The
    distance of the last vertex is the number of links from it back to a
    vertex without predecessor. *)
Definition longestPath (graph : LocalMarkerGraph2)
  : result (list edge_descriptor) :=
  sorted ← topological_sort graph;
  let topologicallySortedVertices := reverse sorted in
  vertexTable ← computeVertexTable graph topologicallySortedVertices;
  last ← findLastPathVertex graph vertexTable;
  path ← longestPathLoop (S (N.to_nat (snd last))) graph vertexTable
            (fst last) [];
  returned (reverse path).

(** "Mark edges in the longest path." *)
Definition markPath (path : list edge_descriptor) (graph : LocalMarkerGraph2)
  : LocalMarkerGraph2 :=
  foldl
    (λ graph e,
       withEdges graph
         (alter (setSpanningTreeBestPathEdge true) e (edges graph)))
    graph path.

Definition computeOptimalSpanningTreeBestPath (graph : LocalMarkerGraph2)
  : result LocalMarkerGraph2 :=
  path ← longestPath graph;
  returned (markPath path graph).

(** The distance table alone, for the statements below. *)
Definition bestPathTable (graph : LocalMarkerGraph2) : result VertexTable :=
  sorted ← topological_sort graph;
  computeVertexTable graph (reverse sorted).

Definition spanningTreeBestPathEdge (graph : LocalMarkerGraph2)
    (e : edge_descriptor) : Prop :=
  ∃ se, edges graph !! e = Some se
        ∧ isSpanningTreeBestPathEdge (property se) = true.

Definition bestPathFlags (graph : LocalMarkerGraph2) : list bool :=
  (λ se, isSpanningTreeBestPathEdge (property se)) <$> edges graph.

Definition spanningTreeFlags (graph : LocalMarkerGraph2) : list bool :=
  (λ se, isSpanningTreeEdge (property se)) <$> edges graph.

(** In the graph [Tangle.graph] the spanning tree holds the second of the
    two edges from 0 to 1, and the longest path of the tree is 2 -> 0 -> 1;
    the edge that is marked from 0 to 1 is the first one. *)
Example tangle_bestPath :
  (longestPath (computeOptimalSpanningTree Tangle.graph),
   bestPathFlags <$>
     computeOptimalSpanningTreeBestPath (computeOptimalSpanningTree Tangle.graph))
  = (returned [3; 0], returned [true; false; false; true; false; false]).
Proof. vm_compute. reflexivity. Qed.

(** *** Two parallel edges

    Two vertices and two edges from the first to the second, the first
    edge with coverage 1 and the second with coverage 2. *)
Module Parallel.

Definition graph : LocalMarkerGraph2 :=
  {| vertices := Tangle.vertex <$> [10; 11]%N;
     edges := [mkStoredEdge 0 1 (Tangle.observations 1);
               mkStoredEdge 0 1 (Tangle.observations 2)];
     vertexMap := {[ 10%N := 0; 11%N := 1 ]} |}.

End Parallel.

(** *** What [computeOptimalSpanningTreeBestPath] changes *)

Lemma markPath_vertices path graph :
  vertices (markPath path graph) = vertices graph
  ∧ vertexMap (markPath path graph) = vertexMap graph.
Proof.
revert graph. induction path as [|e path IH]; intros graph; simpl; [done|].
destruct (IH (withEdges graph
                (alter (setSpanningTreeBestPathEdge true) e (edges graph))))
  as [-> ->]. done.
Qed.

Lemma markPath_lookup path graph e :
  edges (markPath path graph) !! e
  = (λ se, if bool_decide (e ∈ path)
           then setSpanningTreeBestPathEdge true se else se)
    <$> edges graph !! e.
Proof.
revert graph. induction path as [|e' path IH]; intros graph; simpl.
- by destruct (edges graph !! e).
- rewrite IH. simpl. destruct (decide (e = e')) as [->|Hne].
  + rewrite list_lookup_alter_eq.
    rewrite (bool_decide_eq_true_2 (e' ∈ e' :: path))
      by (apply elem_of_cons; by left).
    destruct (edges graph !! e') as [se|]; simpl; [|done].
    by case_bool_decide.
  + rewrite list_lookup_alter_ne by done.
    rewrite (bool_decide_ext (e ∈ e' :: path) (e ∈ path)); [done|].
    rewrite elem_of_cons. tauto.
Qed.

(** *** The fuel of the depth first search is enough *)

Definition whiteCount (st : dfs_state) : nat :=
  length (filter (λ c, c = white_color) (colorMap st)).

Lemma whiteCount_put_color_le u c st :
  c ≠ white_color → whiteCount (put_color u c st) ≤ whiteCount st.
Proof.
intros Hc. unfold whiteCount, put_color. simpl.
destruct (colorMap st !! u) as [c0|] eqn:Hu.
- rewrite insert_take_drop by (by eapply lookup_lt_Some).
  rewrite <- (take_drop_middle (colorMap st) u c0 Hu) at 3.
  rewrite !filter_app, !length_app, (filter_cons_False _ c) by done.
  rewrite filter_cons. case_decide; simpl; lia.
- rewrite list_insert_ge; [done|]. by apply lookup_ge_None.
Qed.

Lemma whiteCount_put_color_lt u c st :
  c ≠ white_color → u < length (colorMap st) → get_color st u = white_color →
  whiteCount (put_color u c st) < whiteCount st.
Proof.
intros Hc Hu Hwhite. unfold whiteCount, put_color, get_color in *. simpl.
destruct (colorMap st !! u) as [c0|] eqn:Hlookup.
- simpl in Hwhite. subst c0.
  rewrite insert_take_drop by done.
  rewrite <- (take_drop_middle (colorMap st) u white_color Hlookup) at 3.
  rewrite !filter_app, !length_app, (filter_cons_False _ c) by done.
  rewrite filter_cons_True by done. simpl. lia.
- apply lookup_ge_None in Hlookup. lia.
Qed.

Lemma whiteCount_le_length st : whiteCount st ≤ length (colorMap st).
Proof. apply length_filter. Qed.

Lemma spanningTree_out_edges_target graph u se :
  wellFormed graph → se ∈ spanningTree_out_edges graph u →
  target se < num_vertices graph.
Proof.
intros Hwf Hse. apply list_elem_of_filter in Hse as [_ Hse].
apply list_elem_of_lookup in Hse as [e He]. by destruct (Hwf _ _ He).
Qed.

(** The depth first visit never uses its fuel up when the fuel is at
    least the number of white vertices, and it leaves fewer white
    vertices than it found. *)
Lemma depth_first_visit_fuel graph fuel u st :
  wellFormed graph →
  length (colorMap st) = num_vertices graph →
  u < num_vertices graph → get_color st u = white_color →
  whiteCount st ≤ fuel →
  match depth_first_visit fuel graph u st with
  | returned st' =>
      length (colorMap st') = num_vertices graph
      ∧ whiteCount st' < whiteCount st
  | thrown _ => True
  | out_of_fuel => False
  end.
Proof.
intros Hwf. revert u st.
induction fuel as [|fuel IH]; intros u st Hlen Hu Hwhite Hfuel.
- pose proof (whiteCount_put_color_lt u gray_color st ltac:(done)
                ltac:(lia) Hwhite). lia.
- cbn [depth_first_visit].
  pose proof (whiteCount_put_color_lt u gray_color st ltac:(done)
                ltac:(lia) Hwhite) as Hgray.
  assert (Hfold : ∀ l acc,
    Forall (λ se, target se < num_vertices graph) l →
    match acc with
    | returned st1 => length (colorMap st1) = num_vertices graph
                      ∧ whiteCount st1 < whiteCount st
    | thrown _ => True
    | out_of_fuel => False
    end →
    match foldl
            (λ (acc : result dfs_state) (se : StoredEdge),
               st ← acc;
               match get_color st (target se) with
               | white_color => depth_first_visit fuel graph (target se) st
               | gray_color => thrown not_a_dag
               | black_color => returned st
               end) acc l with
    | returned st1 => length (colorMap st1) = num_vertices graph
                      ∧ whiteCount st1 < whiteCount st
    | thrown _ => True
    | out_of_fuel => False
    end).
  { induction l as [|se l IHl]; intros acc Hall Hacc; [done|].
    apply Forall_cons in Hall as [Hse Hall]. simpl. apply IHl; [done|].
    destruct acc as [st1| |]; simpl; [|done..].
    destruct Hacc as [Hlen1 Hw1].
    destruct (get_color st1 (target se)) eqn:Hc; [|done..].
    specialize (IH (target se) st1 Hlen1 Hse Hc ltac:(lia)).
    destruct (depth_first_visit fuel graph (target se) st1); [|done..].
    destruct IH. split; [done|lia]. }
  specialize (Hfold (spanningTree_out_edges graph u)
                (returned (put_color u gray_color st))).
  destruct (foldl _ _ _) as [st2| |].
  + simpl. destruct Hfold as [Hlen2 Hw2].
    * apply Forall_forall. intros se Hse.
      by eapply spanningTree_out_edges_target.
    * split; [|done]. simpl. by rewrite length_insert.
    * split; [by rewrite length_insert|].
      pose proof (whiteCount_put_color_le u black_color st2 ltac:(done)) as Hle.
      unfold put_color, whiteCount in *. simpl in *. lia.
  + done.
  + apply Hfold.
    * apply Forall_forall. intros se Hse.
      by eapply spanningTree_out_edges_target.
    * split; [|done]. simpl. by rewrite length_insert.
Qed.

Local Arguments depth_first_visit : simpl never.

Lemma topological_sort_fuel graph :
  wellFormed graph → topological_sort graph ≠ out_of_fuel.
Proof.
intros Hwf. unfold topological_sort.
assert (Hfold : ∀ l acc,
  Forall (λ u, u < num_vertices graph) l →
  match acc with
  | returned st => length (colorMap st) = num_vertices graph
  | thrown _ => True
  | out_of_fuel => False
  end →
  match foldl
          (λ (acc : result dfs_state) (u : nat),
             st ← acc;
             if decide (get_color st u = white_color)
             then depth_first_visit (S (num_vertices graph)) graph u st
             else returned st) acc l with
  | returned st => length (colorMap st) = num_vertices graph
  | thrown _ => True
  | out_of_fuel => False
  end).
{ induction l as [|u l IHl]; intros acc Hall Hacc; [done|].
  apply Forall_cons in Hall as [Hu Hall]. simpl. apply IHl; [done|].
  destruct acc as [st| |]; simpl; [|done..].
  case_decide as Hc; [|done].
  pose proof (whiteCount_le_length st) as Hle.
  pose proof (depth_first_visit_fuel graph (S (num_vertices graph)) u st
                Hwf Hacc Hu Hc ltac:(lia)) as Hvisit.
  destruct (depth_first_visit _ graph u st); [|done..]. by destruct Hvisit. }
specialize (Hfold (seq 0 (num_vertices graph))
  (returned {| colorMap := replicate (num_vertices graph) white_color;
               finished := [] |})).
destruct (foldl _ _ _) as [st| |]; [done|done|].
intros _. apply Hfold.
- apply Forall_forall. intros u Hu. apply elem_of_seq in Hu. lia.
- simpl. apply length_replicate.
Qed.

(** *** The table of best predecessors *)

(** An edge of the spanning tree from [v0] to [v1]. *)
Definition spanningTreeArc (graph : LocalMarkerGraph2)
    (v0 v1 : vertex_descriptor) : Prop :=
  ∃ se, se ∈ edges graph ∧ isSpanningTreeEdge (property se) = true
        ∧ source se = v0 ∧ target se = v1.

(** An entry of the table: no predecessor and distance 0, or a
    predecessor along an edge of the spanning tree, itself in [table],
    and one more than its distance. *)
Definition entryOk (graph : LocalMarkerGraph2)
    (table : gmap nat (option nat * N))
    (v1 : vertex_descriptor) (entry : option nat * N) : Prop :=
  (snd entry < two32)%N
  ∧ match fst entry with
    | None => snd entry = 0%N
    | Some v0 =>
        ∃ entry0, table !! v0 = Some entry0
                  ∧ snd entry = (snd entry0 + 1)%N
                  ∧ spanningTreeArc graph v0 v1
    end.

Definition tableOk (graph : LocalMarkerGraph2)
    (table : gmap nat (option nat * N)) : Prop :=
  ∀ v1 entry, table !! v1 = Some entry → entryOk graph table v1 entry.

Lemma bestPredecessor_ok graph table v0 entry :
  tableOk graph table →
  bestPredecessor graph table v0 = returned entry →
  entryOk graph table v0 entry.
Proof.
intros Htable. unfold bestPredecessor, spanningTree_in_edges.
assert (Hfold : ∀ l acc,
  Forall (λ se, se ∈ edges graph ∧ isSpanningTreeEdge (property se) = true
                ∧ target se = v0) l →
  (∀ p, acc = returned p → entryOk graph table v0 p) →
  foldl
    (λ (acc : result (option nat * N)) (se : StoredEdge),
       p ← acc;
       it ← assertFound (table !! source se);
       if (snd p <? add32 (snd it) 1)%N
       then returned (Some (source se), add32 (snd it) 1)
       else returned p) acc l = returned entry →
  entryOk graph table v0 entry).
{ induction l as [|se l IHl]; intros acc Hall Hacc; simpl; [by apply Hacc|].
  apply Forall_cons in Hall as [(Hin & Hflag & Htgt) Hall].
  apply IHl; [done|]. intros p.
  destruct acc as [p0| |]; simpl; [|done..].
  destruct (table !! source se) as [it|] eqn:Hit; simpl; [|done].
  destruct (N.ltb_spec (snd p0) (add32 (snd it) 1)) as [Hlt|Hge].
  - intros [= <-]. split; simpl; [apply add32_lt|].
    exists it. split; [done|]. split; [|by exists se].
    destruct (Htable _ _ Hit) as [Hit32 _].
    unfold add32 in *.
    destruct (decide (snd it + 1 < two32)%N) as [?|Hwrap];
      [by rewrite N.mod_small|].
    assert (snd it + 1 = two32)%N as Heq by lia.
    rewrite Heq, N.Div0.mod_same in Hlt. lia.
  - intros [= <-]. by apply Hacc. }
apply Hfold.
- apply Forall_forall. intros se Hse.
  apply list_elem_of_filter in Hse as [[? ?] ?]. done.
- intros p [= <-]. split; simpl; [by rewrite two32_eq|done].
Qed.

Lemma entryOk_insert graph table v entry v1 entry1 :
  table !! v = None →
  entryOk graph table v1 entry1 →
  entryOk graph (<[v := entry]> table) v1 entry1.
Proof.
intros Hv [H32 Hpred]. split; [done|].
destruct (fst entry1) as [v0|]; [|done].
destruct Hpred as (entry0 & Hv0 & Hd & Harc).
exists entry0. split; [|done].
rewrite lookup_insert_ne; [done|]. congruence.
Qed.

Lemma computeVertexTable_ok graph order table :
  computeVertexTable graph order = returned table → tableOk graph table.
Proof.
unfold computeVertexTable.
assert (Hfold : ∀ l acc,
  (∀ t, acc = returned t → tableOk graph t) →
  foldl
    (λ (acc : result (gmap nat (option nat * N))) (v0 : nat),
       vertexTable ← acc;
       p ← bestPredecessor graph vertexTable v0;
       returned (match vertexTable !! v0 with
                 | Some _ => vertexTable
                 | None => <[v0 := p]> vertexTable
                 end)) acc l = returned table →
  tableOk graph table).
{ induction l as [|v0 l IHl]; intros acc Hacc; simpl; [by apply Hacc|].
  apply IHl. intros t.
  destruct acc as [t0| |]; simpl; [|done..].
  specialize (Hacc t0 eq_refl).
  destruct (bestPredecessor graph t0 v0) as [p| |] eqn:Hbest; simpl; [|done..].
  destruct (t0 !! v0) as [old|] eqn:Hold; intros [= <-]; [done|].
  pose proof (bestPredecessor_ok _ _ _ _ Hacc Hbest) as Hp.
  intros v1 entry. rewrite lookup_insert_Some.
  intros [[<- <-]|[Hne Hv1]]; apply entryOk_insert; auto. }
apply Hfold. intros t [= <-] v1 entry Hv1. by rewrite lookup_empty in Hv1.
Qed.

Lemma findLastPathVertex_ok graph table last :
  findLastPathVertex graph table = returned last →
  match fst last with
  | None => True
  | Some v => ∃ entry, table !! v = Some entry ∧ snd entry = snd last
  end.
Proof.
unfold findLastPathVertex.
assert (Hfold : ∀ l acc,
  (∀ p, acc = returned p →
        match fst p with
        | None => True
        | Some v => ∃ entry, table !! v = Some entry ∧ snd entry = snd p
        end) →
  foldl
    (λ (acc : result (option nat * N)) (v : nat),
       last ← acc;
       it ← assertFound (table !! v);
       if (snd last <? snd it)%N then returned (Some v, snd it)
       else returned last) acc l = returned last →
  match fst last with
  | None => True
  | Some v => ∃ entry, table !! v = Some entry ∧ snd entry = snd last
  end).
{ induction l as [|v l IHl]; intros acc Hacc; simpl; [by apply Hacc|].
  apply IHl. intros p.
  destruct acc as [p0| |]; simpl; [|done..].
  destruct (table !! v) as [it|] eqn:Hit; simpl; [|done].
  destruct (snd p0 <? snd it)%N; intros [= <-]; simpl;
    [by exists it|by apply Hacc]. }
apply Hfold. by intros p [= <-].
Qed.

(** The fuel of the last loop is enough: the distance drops by one at
    each predecessor link. *)
Lemma longestPathLoop_fuel graph table fuel v acc :
  tableOk graph table →
  match v with
  | None => True
  | Some v1 => ∀ entry, table !! v1 = Some entry → N.to_nat (snd entry) < fuel
  end →
  0 < fuel →
  longestPathLoop fuel graph table v acc ≠ out_of_fuel.
Proof.
intros Htable. revert v acc.
induction fuel as [|fuel IH]; intros v acc Hv Hfuel; [lia|].
cbn [longestPathLoop]. destruct v as [v1|]; [|done].
destruct (table !! v1) as [[p d]|] eqn:Hv1; simpl; [|done].
destruct p as [v0|]; [|done].
destruct (boost_edge v0 v1 graph) as [e|]; simpl; [|done].
destruct (Htable _ _ Hv1) as [_ (entry0 & Hv0 & Hd & _)]. simpl in Hd.
specialize (Hv _ eq_refl). simpl in Hv.
apply IH; [|lia].
intros entry Hentry. assert (entry = entry0) as -> by congruence. lia.
Qed.

Section BestPathFuel.

Local Arguments longestPathLoop : simpl never.

(** [computeOptimalSpanningTreeBestPath] returns or throws: none of its
    loops uses its fuel up. *)
Lemma computeOptimalSpanningTreeBestPath_fuel graph :
  wellFormed graph → computeOptimalSpanningTreeBestPath graph ≠ out_of_fuel.
Proof.
intros Hwf. unfold computeOptimalSpanningTreeBestPath, longestPath.
pose proof (topological_sort_fuel graph Hwf) as Hsort.
destruct (topological_sort graph) as [sorted| |]; simpl; [|done..].
assert (Htable : ∀ order,
  computeVertexTable graph order ≠ out_of_fuel).
{ intros order. unfold computeVertexTable.
  assert (Hfold : ∀ l acc, acc ≠ out_of_fuel →
    foldl
      (λ (acc : result (gmap nat (option nat * N))) (v0 : nat),
         vertexTable ← acc;
         p ← bestPredecessor graph vertexTable v0;
         returned (match vertexTable !! v0 with
                   | Some _ => vertexTable
                   | None => <[v0 := p]> vertexTable
                   end)) acc l ≠ out_of_fuel).
  { induction l as [|v0 l IHl]; intros acc Hacc; simpl; [done|].
    apply IHl. destruct acc as [t| |]; simpl; [|done..].
    assert (Hbest : bestPredecessor graph t v0 ≠ out_of_fuel).
    { unfold bestPredecessor.
      generalize (spanningTree_in_edges graph v0).
      assert (Hin : ∀ l acc, acc ≠ out_of_fuel →
        foldl
          (λ (acc : result (option nat * N)) (se : StoredEdge),
             p ← acc;
             it ← assertFound (t !! source se);
             if (snd p <? add32 (snd it) 1)%N
             then returned (Some (source se), add32 (snd it) 1)
             else returned p) acc l ≠ out_of_fuel).
      { induction l0 as [|se l0 IHl0]; intros acc Hacc'; simpl; [done|].
        apply IHl0. destruct acc as [p| |]; simpl; [|done..].
        destruct (t !! source se); simpl; [|done].
        by destruct (_ <? _)%N. }
      intros l0. by apply Hin. }
    destruct (bestPredecessor graph t v0); simpl; done. }
  by apply Hfold. }
specialize (Htable (reverse sorted)).
destruct (computeVertexTable graph (reverse sorted)) as [table| |] eqn:Etable;
  simpl; [|done..].
pose proof (computeVertexTable_ok _ _ _ Etable) as Hok.
assert (Hlast : findLastPathVertex graph table ≠ out_of_fuel).
{ unfold findLastPathVertex. generalize (seq 0 (num_vertices graph)).
  assert (Hfold : ∀ l acc, acc ≠ out_of_fuel →
    foldl
      (λ (acc : result (option nat * N)) (v : nat),
         last ← acc;
         it ← assertFound (table !! v);
         if (snd last <? snd it)%N then returned (Some v, snd it)
         else returned last) acc l ≠ out_of_fuel).
  { induction l as [|v l IHl]; intros acc Hacc; simpl; [done|].
    apply IHl. destruct acc as [p| |]; simpl; [|done..].
    destruct (table !! v); simpl; [|done]. by destruct (_ <? _)%N. }
  intros l. by apply Hfold. }
destruct (findLastPathVertex graph table) as [last| |] eqn:Elast;
  simpl; [|done..].
pose proof (findLastPathVertex_ok _ _ _ Elast) as Hlast'.
pose proof (longestPathLoop_fuel graph table (S (N.to_nat (snd last)))
              (fst last) [] Hok) as Hloop.
destruct (longestPathLoop _ graph table (fst last) []); simpl; [done|done|].
intros _. apply Hloop; [|lia|done].
destruct (fst last) as [v|]; [|done].
destruct Hlast' as (entry & Hentry & Hd). intros entry' Hentry'.
assert (entry' = entry) as -> by congruence. lia.
Qed.

End BestPathFuel.

(** *** Graphs without parallel edges *)

(** No two edges of the graph have the same source and the same
    target. *)
Definition noParallelEdges (graph : LocalMarkerGraph2) : Prop :=
  ∀ e e' se se',
    edges graph !! e = Some se → edges graph !! e' = Some se' →
    source se = source se' → target se = target se' → e = e'.

Lemma edgesWhere_elem keep graph e :
  e ∈ edgesWhere keep graph ↔
  ∃ se, edges graph !! e = Some se ∧ keep e se = true.
Proof.
unfold edgesWhere. rewrite list_elem_of_fmap. split.
- intros ([e' se] & -> & Hin). apply list_elem_of_filter in Hin as [Hkeep Hin].
  apply list_elem_of_lookup in Hin as [i Hi].
  rewrite list_lookup_imap in Hi.
  destruct (edges graph !! i) as [se'|] eqn:Hse; simpl in Hi; [|done].
  injection Hi as <- <-. by exists se'.
- intros (se & Hse & Hkeep). exists (e, se). split; [done|].
  apply list_elem_of_filter. split; [done|].
  apply list_elem_of_lookup. exists e.
  by rewrite list_lookup_imap, Hse.
Qed.

Lemma boost_edge_Some v0 v1 graph e :
  boost_edge v0 v1 graph = Some e →
  ∃ se, edges graph !! e = Some se ∧ source se = v0 ∧ target se = v1.
Proof.
unfold boost_edge. intros Hhead.
assert (Hin : e ∈ edgesWhere
          (λ _ se, bool_decide (source se = v0 ∧ target se = v1)) graph).
{ destruct (edgesWhere _ graph) as [|e' l]; [done|].
  injection Hhead as ->. apply elem_of_cons. by left. }
apply edgesWhere_elem in Hin as (se & Hse & Hkeep).
apply bool_decide_eq_true in Hkeep. by exists se.
Qed.

(** Where there are no parallel edges, the edge that [boost::edge] finds
    between the ends of an edge of the spanning tree is that edge. *)
Lemma boost_edge_spanningTree graph v0 v1 e :
  noParallelEdges graph →
  spanningTreeArc graph v0 v1 →
  boost_edge v0 v1 graph = Some e →
  spanningTreeEdge graph e.
Proof.
intros Hno (se' & Hin & Hflag & Hsrc & Htgt) Hedge.
apply boost_edge_Some in Hedge as (se & Hse & Hsrc' & Htgt').
apply list_elem_of_lookup in Hin as [e' He'].
assert (e = e') as <-
  by (apply (Hno e e' se se'); [done|done|congruence|congruence]).
exists se'. by split.
Qed.

Lemma longestPathLoop_spanningTree graph table :
  noParallelEdges graph → tableOk graph table →
  ∀ fuel v acc path,
    Forall (spanningTreeEdge graph) acc →
    longestPathLoop fuel graph table v acc = returned path →
    Forall (spanningTreeEdge graph) path.
Proof.
intros Hno Htable.
induction fuel as [|fuel IH]; intros v acc path Hacc; [done|].
cbn [longestPathLoop]. destruct v as [v1|]; [|by intros [= <-]].
destruct (table !! v1) as [[p d]|] eqn:Hv1; simpl; [|by intros [= <-]].
destruct p as [v0|]; [|by intros [= <-]].
destruct (boost_edge v0 v1 graph) as [e|] eqn:Hedge; simpl; [|done].
apply IH. apply Forall_app. split; [done|].
apply Forall_singleton.
destruct (Htable _ _ Hv1) as [_ (entry0 & _ & _ & Harc)].
by apply (boost_edge_spanningTree graph v0 v1).
Qed.

Section BestPathEdges.

Local Arguments longestPathLoop : simpl never.

(** On a graph without parallel edges the path that is marked consists
    of edges of the spanning tree. *)
Lemma longestPath_spanningTree graph path :
  noParallelEdges graph →
  longestPath graph = returned path →
  Forall (spanningTreeEdge graph) path.
Proof.
intros Hno. unfold longestPath.
destruct (topological_sort graph) as [sorted| |]; simpl; [|done..].
destruct (computeVertexTable graph (reverse sorted)) as [table| |] eqn:Etable;
  simpl; [|done..].
destruct (findLastPathVertex graph table) as [last| |]; simpl; [|done..].
destruct (longestPathLoop _ graph table (fst last) []) as [p| |] eqn:Eloop;
  simpl; [|done..].
intros [= <-]. apply Forall_reverse.
apply (longestPathLoop_spanningTree graph table Hno
         (computeVertexTable_ok _ _ _ Etable)
         (S (N.to_nat (snd last))) (fst last) [] p (Forall_nil_2 _) Eloop).
Qed.

End BestPathEdges.

(** [computeOptimalSpanningTree] starts from cleared flags: what it
    returns does not depend on the flags [isSpanningTreeEdge] it finds. *)
Lemma computeOptimalSpanningTree_resets graph1 graph2 :
  sameUpToSpanningTree graph1 graph2 →
  computeOptimalSpanningTree graph2 = computeOptimalSpanningTree graph1.
Proof.
intros (Hv & Hm & He).
assert (Hclear : clearSpanningTree graph2 = clearSpanningTree graph1).
{ unfold clearSpanningTree, withEdges. by rewrite Hv, Hm, He. }
unfold computeOptimalSpanningTree, spanningTreeLoop, num_vertices.
by rewrite Hclear, Hv.
Qed.

(** C10.  [computeOptimalSpanningTreeBestPath] has no reset step: when it
    returns, every edge has its end points, its observations and its flag
    [isSpanningTreeEdge] as before, and its flag
    [isSpanningTreeBestPathEdge] is the previous value or-ed with
    membership in the path that was computed; a flag that was true stays
    true. *)
Theorem computeOptimalSpanningTreeBestPath_keeps_flags graph graph' :
  computeOptimalSpanningTreeBestPath graph = returned graph' →
  ∃ path,
    longestPath graph = returned path
    ∧ vertices graph' = vertices graph
    ∧ vertexMap graph' = vertexMap graph
    ∧ length (edges graph') = length (edges graph)
    ∧ (∀ e se, edges graph !! e = Some se →
         ∃ se', edges graph' !! e = Some se'
           ∧ source se' = source se ∧ target se' = target se
           ∧ infos (property se') = infos (property se)
           ∧ isSpanningTreeEdge (property se')
             = isSpanningTreeEdge (property se)
           ∧ isSpanningTreeBestPathEdge (property se')
             = isSpanningTreeBestPathEdge (property se)
               || bool_decide (e ∈ path))
    ∧ (∀ e, spanningTreeBestPathEdge graph e →
            spanningTreeBestPathEdge graph' e).
Proof.
unfold computeOptimalSpanningTreeBestPath. intros H.
destruct (longestPath graph) as [path| |]; simpl in H; [|done..].
injection H as <-. exists path. split; [done|].
destruct (markPath_vertices path graph) as [Hv Hm].
split; [done|]. split; [done|].
assert (Hlookup : ∀ e se, edges graph !! e = Some se →
  ∃ se', edges (markPath path graph) !! e = Some se'
    ∧ source se' = source se ∧ target se' = target se
    ∧ infos (property se') = infos (property se)
    ∧ isSpanningTreeEdge (property se') = isSpanningTreeEdge (property se)
    ∧ isSpanningTreeBestPathEdge (property se')
      = isSpanningTreeBestPathEdge (property se) || bool_decide (e ∈ path)).
{ intros e se He. rewrite markPath_lookup, He. simpl.
  eexists. split; [done|]. case_bool_decide; simpl.
  - by rewrite orb_true_r.
  - by rewrite orb_false_r. }
split; [|split; [done|]].
- apply Nat.le_antisymm.
  + destruct (decide (length (edges (markPath path graph))
                      ≤ length (edges graph))) as [?|Hgt]; [done|].
    exfalso.
    destruct (lookup_lt_is_Some_2 (edges (markPath path graph))
                (length (edges graph)) ltac:(lia)) as [se' Hse'].
    rewrite markPath_lookup in Hse'.
    rewrite (lookup_ge_None_2 (edges graph)) in Hse' by lia. done.
  + destruct (decide (length (edges graph)
                      ≤ length (edges (markPath path graph)))) as [?|Hgt]; [done|].
    exfalso.
    destruct (lookup_lt_is_Some_2 (edges graph)
                (length (edges (markPath path graph))) ltac:(lia)) as [se Hse].
    destruct (Hlookup _ _ Hse) as (se' & Hse' & _).
    apply lookup_lt_Some in Hse'. lia.
- intros e (se & He & Hflag). destruct (Hlookup _ _ He) as (se' & He' & Hrest).
  exists se'. split; [done|].
  destruct Hrest as (_ & _ & _ & _ & ->). by rewrite Hflag.
Qed.

(** Witness of C10: the tangled graph, after its spanning tree. *)
Lemma computeOptimalSpanningTreeBestPath_keeps_flags_witness :
  ∃ path,
    longestPath (computeOptimalSpanningTree Tangle.graph) = returned path
    ∧ vertices (markPath [3; 0] (computeOptimalSpanningTree Tangle.graph))
      = vertices (computeOptimalSpanningTree Tangle.graph)
    ∧ vertexMap (markPath [3; 0] (computeOptimalSpanningTree Tangle.graph))
      = vertexMap (computeOptimalSpanningTree Tangle.graph)
    ∧ length (edges (markPath [3; 0] (computeOptimalSpanningTree Tangle.graph)))
      = length (edges (computeOptimalSpanningTree Tangle.graph))
    ∧ (∀ e se, edges (computeOptimalSpanningTree Tangle.graph) !! e = Some se →
         ∃ se', edges (markPath [3; 0] (computeOptimalSpanningTree Tangle.graph))
                  !! e = Some se'
           ∧ source se' = source se ∧ target se' = target se
           ∧ infos (property se') = infos (property se)
           ∧ isSpanningTreeEdge (property se')
             = isSpanningTreeEdge (property se)
           ∧ isSpanningTreeBestPathEdge (property se')
             = isSpanningTreeBestPathEdge (property se)
               || bool_decide (e ∈ path))
    ∧ (∀ e, spanningTreeBestPathEdge (computeOptimalSpanningTree Tangle.graph) e →
            spanningTreeBestPathEdge
              (markPath [3; 0] (computeOptimalSpanningTree Tangle.graph)) e).
Proof.
apply (computeOptimalSpanningTreeBestPath_keeps_flags
         (computeOptimalSpanningTree Tangle.graph)).
vm_compute. reflexivity.
Defined.

(** A second run, on a graph whose spanning tree was rebuilt after the
    coverage of an edge changed, leaves the marks of the first run in
    place: flags are only ever added. *)
Example bestPath_flags_accumulate :
  let first := markPath [3; 0] (computeOptimalSpanningTree Tangle.graph) in
  let heavier :=
    withEdges first
      (<[2 := mkStoredEdge 1 2 (Tangle.observations 7)]> (edges first)) in
  let second := computeOptimalSpanningTree heavier in
  (bestPathFlags second, longestPath second,
   bestPathFlags <$> computeOptimalSpanningTreeBestPath second)
  = ([true; false; false; true; false; false], returned [5; 2; 3],
     returned [true; false; true; true; false; true]).
Proof. vm_compute. reflexivity. Qed.

(** *** The marked edge between two vertices joined by parallel edges *)

(** C6, at the failing input.  Of two parallel edges the spanning tree
    takes the one with the larger coverage, here the second; the path
    that is marked consists of the first, which [boost::edge] finds in the
    whole graph: it carries [isSpanningTreeBestPathEdge] and not
    [isSpanningTreeEdge]. *)
Theorem bestPath_edge_outside_spanningTree :
  let tree := computeOptimalSpanningTree Parallel.graph in
  spanningTreeFlags tree = [false; true]
  ∧ longestPath tree = returned [0]
  ∧ (λ graph', (spanningTreeFlags graph', bestPathFlags graph'))
    <$> computeOptimalSpanningTreeBestPath tree
    = returned ([false; true], [true; false]).
Proof. vm_compute. done. Qed.

(** C2, at the failing input.  In the tangled graph the spanning tree is
    made of the edges 1 (0 -> 1), 3 (2 -> 0) and 5 (3 -> 1); the table of
    best predecessors is the one of the longest distances in that tree,
    and its longest path is 2 -> 0 -> 1, the edges 3 and 1; the edges that
    are marked are 3 and 0, and edge 0 is not an edge of the tree. *)
Theorem bestPath_marks_parallel_edge :
  let tree := computeOptimalSpanningTree Tangle.graph in
  spanningTreeFlags tree = [false; true; false; true; false; true]
  ∧ bestPathTable tree
    = returned {[ 0 := (Some 2, 1%N); 1 := (Some 0, 2%N); 2 := (None, 0%N);
                  3 := (None, 0%N); 4 := (None, 0%N) ]}
  ∧ longestPath tree = returned [3; 0]
  ∧ (λ graph', bestPathFlags graph')
    <$> computeOptimalSpanningTreeBestPath tree
    = returned [true; false; false; true; false; false].
Proof. vm_compute. done. Qed.

(** *** Witness of C1 *)

Lemma tangle_wellFormed : wellFormed Tangle.graph.
Proof.
intros e se He. apply list_elem_of_lookup_2, list_elem_of_In in He.
simpl in He. unfold num_vertices. simpl.
repeat (destruct He as [<-|He]; [simpl; lia|]). done.
Defined.

Lemma computeOptimalSpanningTree_forest_witness :
  sameUpToSpanningTree Tangle.graph (computeOptimalSpanningTree Tangle.graph)
  ∧ (∃ reps, componentRepresentatives Tangle.graph reps)
  ∧ (∀ reps, componentRepresentatives Tangle.graph reps →
       spanningTreeEdgeCount (computeOptimalSpanningTree Tangle.graph)
       + length reps = num_vertices Tangle.graph)
  ∧ acyclic (computeOptimalSpanningTree Tangle.graph)
      (spanningTreeEdge (computeOptimalSpanningTree Tangle.graph))
  ∧ (∀ pre p post,
       edgeTable (clearSpanningTree Tangle.graph) = pre ++ p :: post →
       spanningTreeEdge (computeOptimalSpanningTree Tangle.graph) (fst p) →
       ∃ se, edges Tangle.graph !! fst p = Some se
         ∧ let disjointSets := snd (spanningTreeLoop Tangle.graph pre) in
           let i0 := vertexIndex (source se) in
           let i1 := vertexIndex (target se) in
           representative disjointSets i0 ≠ representative disjointSets i1
           ∧ snd (find_set disjointSets i0)
             ≠ snd (find_set (fst (find_set disjointSets i0)) i1)).
Proof.
apply (computeOptimalSpanningTree_forest Tangle.graph).
- exact tangle_wellFormed.
- vm_compute. discriminate.
Defined.

(** The tangled graph has two connected components, [{0, 1, 2, 3}] and
    [{4}], and its spanning tree has three edges. *)
Example tangle_count :
  spanningTreeEdgeCount (computeOptimalSpanningTree Tangle.graph) = 3.
Proof. vm_compute. reflexivity. Qed.
(** ** The depth first search and the order it gives *)

(** *** Directed walks along the edges of the spanning tree *)

(** Edge [e] carries [isSpanningTreeEdge] and goes from [u] to [v]. *)
Definition arc (graph : LocalMarkerGraph2) (e : edge_descriptor)
    (u v : vertex_descriptor) : Prop :=
  ∃ se, edges graph !! e = Some se
        ∧ isSpanningTreeEdge (property se) = true
        ∧ source se = u ∧ target se = v.

(** Edge [e] of the graph goes from [u] to [v]. *)
Definition goes (graph : LocalMarkerGraph2) (e : edge_descriptor)
    (u v : vertex_descriptor) : Prop :=
  ∃ se, edges graph !! e = Some se ∧ source se = u ∧ target se = v.

(** A directed walk: each edge is a [step] from a vertex to the next. *)
Inductive directedWalk
    (step : edge_descriptor → vertex_descriptor → vertex_descriptor → Prop)
  : vertex_descriptor → list edge_descriptor → vertex_descriptor → Prop :=
| directedWalk_nil u : directedWalk step u [] u
| directedWalk_cons u v w e es :
    step e u v → directedWalk step v es w →
    directedWalk step u (e :: es) w.

(** A directed cycle in the spanning tree: a directed walk of at least
    one edge that ends where it starts. *)
Definition directedCycle (graph : LocalMarkerGraph2) : Prop :=
  ∃ v es, es ≠ [] ∧ directedWalk (arc graph) v es v.

Lemma directedWalk_app step u es1 v es2 w :
  directedWalk step u es1 v → directedWalk step v es2 w →
  directedWalk step u (es1 ++ es2) w.
Proof.
induction 1 as [|u v' w' e es Ha Hw IH]; intros H2; simpl; [done|].
eapply directedWalk_cons; [done|]. by apply IH.
Qed.

Lemma directedWalk_snoc step u es v e w :
  directedWalk step u es v → step e v w →
  directedWalk step u (es ++ [e]) w.
Proof.
intros Hw Ha. eapply directedWalk_app; [done|].
eapply directedWalk_cons; [done|constructor].
Qed.

Lemma directedWalk_app_inv step u es1 es2 w :
  directedWalk step u (es1 ++ es2) w →
  ∃ v, directedWalk step u es1 v ∧ directedWalk step v es2 w.
Proof.
revert u. induction es1 as [|e es1 IH]; intros u; simpl.
- intros Hw. exists u. split; [constructor|done].
- inversion 1 as [|? v ? ? ? Ha Hw]; subst.
  apply IH in Hw as (x & H1 & H2). exists x. split; [|done].
  by eapply directedWalk_cons.
Qed.

Lemma directedWalk_impl (step step' : nat → nat → nat → Prop) u es v :
  (∀ e x y, step e x y → step' e x y) →
  directedWalk step u es v → directedWalk step' u es v.
Proof.
intros Himpl. induction 1; [constructor|].
eapply directedWalk_cons; eauto.
Qed.

Lemma arc_goes graph e u v : arc graph e u v → goes graph e u v.
Proof. intros (se & ? & ? & ? & ?). by exists se. Qed.

Lemma arc_spanningTreeArc graph u v :
  spanningTreeArc graph u v ↔ ∃ e, arc graph e u v.
Proof.
unfold spanningTreeArc, arc. split.
- intros (se & Hin & Hflag & Hsrc & Htgt).
  apply list_elem_of_lookup in Hin as [e He]. exists e, se. done.
- intros (e & se & He & Hflag & Hsrc & Htgt). exists se.
  split; [by eapply list_elem_of_lookup_2|done].
Qed.

Lemma arc_out_edges graph e u v :
  arc graph e u v →
  ∃ se, se ∈ spanningTree_out_edges graph u ∧ target se = v.
Proof.
intros (se & He & Hflag & Hsrc & Htgt). exists se. split; [|done].
apply list_elem_of_filter. split; [done|]. by eapply list_elem_of_lookup_2.
Qed.

Lemma out_edges_arc graph u se :
  se ∈ spanningTree_out_edges graph u → ∃ e, arc graph e u (target se).
Proof.
intros Hse. apply list_elem_of_filter in Hse as [[Hflag Hsrc] Hin].
apply list_elem_of_lookup in Hin as [e He]. exists e, se. done.
Qed.

(** *** Colors *)

Lemma get_color_put_color st u c v :
  u < length (colorMap st) →
  get_color (put_color u c st) v
  = if decide (u = v) then c else get_color st v.
Proof.
intros Hu. unfold get_color, put_color. simpl.
destruct (decide (u = v)) as [->|Hne].
- by rewrite list_lookup_insert_eq.
- by rewrite list_lookup_insert_ne.
Qed.

Lemma get_color_lt st v :
  get_color st v ≠ white_color → v < length (colorMap st).
Proof.
unfold get_color. intros Hc. apply lookup_lt_is_Some.
destruct (colorMap st !! v); [eauto|done].
Qed.

(** *** What the search keeps true *)

(** [b] is written to the output before [a]. *)
Definition earlier (l : list vertex_descriptor) (b a : vertex_descriptor)
  : Prop :=
  ∃ i j, l !! i = Some b ∧ l !! j = Some a ∧ i < j.

(** The output holds the black vertices, each once, and the target of an
    edge of the spanning tree out of a vertex of the output is written
    before that vertex. *)
Record orderOk (graph : LocalMarkerGraph2) (st : dfs_state) : Prop :=
  mkOrderOk {
  order_NoDup : NoDup (finished st);
  order_black : ∀ a, a ∈ finished st ↔ get_color st a = black_color;
  order_arcs : ∀ e a b, arc graph e a b → a ∈ finished st →
                        earlier (finished st) b a
}.

(** What a search comes to: a state that satisfies [P], or [not_a_dag]
    with a directed cycle in the spanning tree. *)
Definition outcome (graph : LocalMarkerGraph2) (P : dfs_state → Prop)
    (r : result dfs_state) : Prop :=
  match r with
  | returned st' => P st'
  | thrown not_a_dag => directedCycle graph
  | thrown assertion_failed => False
  | out_of_fuel => True
  end.

Lemma earlier_app l l' b a : earlier l b a → earlier (l ++ l') b a.
Proof.
intros (i & j & Hi & Hj & Hlt). exists i, j.
split; [by apply lookup_app_l_Some|]. split; [by apply lookup_app_l_Some|done].
Qed.

Lemma depth_first_visit_S fuel graph u st :
  depth_first_visit (S fuel) graph u st
  = (st ← foldl
            (λ (acc : result dfs_state) (se : StoredEdge),
               st ← acc;
               match get_color st (target se) with
               | white_color => depth_first_visit fuel graph (target se) st
               | gray_color => thrown not_a_dag
               | black_color => returned st
               end)
            (returned (put_color u gray_color st))
            (spanningTree_out_edges graph u);
     returned {| colorMap := <[u := black_color]> (colorMap st);
                 finished := finished st ++ [u] |}).
Proof. reflexivity. Qed.

Lemma depth_first_visit_spec graph fuel u st :
  wellFormed graph →
  length (colorMap st) = num_vertices graph →
  u < num_vertices graph → get_color st u = white_color →
  (∀ g, get_color st g = gray_color → ∃ es, directedWalk (arc graph) g es u) →
  orderOk graph st →
  outcome graph
    (λ st', length (colorMap st') = num_vertices graph
            ∧ (∀ v, get_color st' v = gray_color ↔ get_color st v = gray_color)
            ∧ (∀ v, get_color st v = black_color →
                    get_color st' v = black_color)
            ∧ get_color st' u = black_color
            ∧ orderOk graph st')
    (depth_first_visit fuel graph u st).
Proof.
intros Hwf. revert u st.
induction fuel as [|fuel IH]; intros u st Hlen Hu Hwhite Hgray Hok; [done|].
rewrite depth_first_visit_S.
set (f := λ (acc : result dfs_state) (se : StoredEdge),
            st ← acc;
            match get_color st (target se) with
            | white_color => depth_first_visit fuel graph (target se) st
            | gray_color => thrown not_a_dag
            | black_color => returned st
            end).
assert (Hfold : ∀ l,
  Forall (λ se, se ∈ spanningTree_out_edges graph u) l →
  outcome graph
    (λ st1, length (colorMap st1) = num_vertices graph
            ∧ (∀ v, get_color st1 v = gray_color
                    ↔ v = u ∨ get_color st v = gray_color)
            ∧ (∀ v, get_color st v = black_color →
                    get_color st1 v = black_color)
            ∧ orderOk graph st1
            ∧ Forall (λ se, get_color st1 (target se) = black_color) l)
    (foldl f (returned (put_color u gray_color st)) l)).
{ induction l as [|se l IHl] using rev_ind; intros Hall.
  - simpl. split; [by rewrite length_insert|].
    assert (Hcol : ∀ v, get_color (put_color u gray_color st) v
                        = if decide (u = v) then gray_color
                          else get_color st v).
    { intros v. apply get_color_put_color. lia. }
    split; [|split; [|split; [|constructor]]].
    + intros v. rewrite Hcol. destruct (decide (u = v)) as [->|Hne].
      * split; [by left|done].
      * split; [by right|]. intros [?|?]; [congruence|done].
    + intros v Hv. rewrite Hcol. destruct (decide (u = v)); [|done].
      congruence.
    + destruct Hok as [Hnd Hblack Harcs]. split; simpl; [done| |done].
      intros a. rewrite Hblack, Hcol.
      destruct (decide (u = a)) as [<-|]; [|done]. split; congruence.
  - apply Forall_app in Hall as [Hall Hse].
    rewrite Forall_singleton in Hse. specialize (IHl Hall).
    rewrite foldl_app. simpl.
    destruct (foldl f _ l) as [st1| |]; simpl; [|done..].
    destruct IHl as (Hlen1 & Hgray1 & Hblack1 & Hok1 & Hdone1).
    destruct (out_edges_arc _ _ _ Hse) as [e Harc].
    pose proof (spanningTree_out_edges_target _ _ _ Hwf Hse) as Htgt.
    destruct (get_color st1 (target se)) eqn:Hc.
    + assert (Hreach : ∀ g, get_color st1 g = gray_color →
                ∃ es, directedWalk (arc graph) g es (target se)).
      { intros g Hg. apply Hgray1 in Hg as [->|Hg].
        - exists [e]. eapply directedWalk_cons; [done|constructor].
        - destruct (Hgray g Hg) as [es Hw]. exists (es ++ [e]).
          by eapply directedWalk_snoc. }
      specialize (IH (target se) st1 Hlen1 Htgt Hc Hreach Hok1).
      destruct (depth_first_visit fuel graph (target se) st1) as [st2| |];
        simpl in *; [|done..].
      destruct IH as (Hlen2 & Hgray2 & Hblack2 & Htarget2 & Hok2).
      split; [done|]. split; [|split; [|split; [done|]]].
      * intros v. by rewrite Hgray2, Hgray1.
      * intros v Hv. by apply Hblack2, Hblack1.
      * apply Forall_app. split; [|by rewrite Forall_singleton].
        eapply Forall_impl; [exact Hdone1|]. intros se' Hse'. by apply Hblack2.
    + simpl. apply Hgray1 in Hc as [Hc|Hc].
      * exists u, [e]. split; [done|]. rewrite <- Hc at 2.
        eapply directedWalk_cons; [done|constructor].
      * destruct (Hgray _ Hc) as [es Hw]. exists (target se), (es ++ [e]).
        split; [by destruct es|]. by eapply directedWalk_snoc.
    + simpl. split; [done|]. split; [done|]. split; [done|]. split; [done|].
      apply Forall_app. split; [done|]. by rewrite Forall_singleton. }
specialize (Hfold (spanningTree_out_edges graph u)).
destruct (foldl f _ _) as [st2| |]; simpl; [|by apply Hfold; apply Forall_forall..].
destruct Hfold as (Hlen2 & Hgray2 & Hblack2 & Hok2 & Hdone2);
  [by apply Forall_forall|].
assert (Hcol : ∀ v,
  get_color {| colorMap := <[u := black_color]> (colorMap st2);
               finished := finished st2 ++ [u] |} v
  = if decide (u = v) then black_color else get_color st2 v).
{ intros v. apply (get_color_put_color st2 u black_color v). lia. }
assert (Hu2 : get_color st2 u = gray_color) by (apply Hgray2; by left).
split; [by rewrite length_insert|]. split; [|split; [|split]].
- intros v. rewrite Hcol. destruct (decide (u = v)) as [<-|Hne].
  + split; [done|]. congruence.
  + rewrite Hgray2. split; [|by right]. intros [?|?]; [congruence|done].
- intros v Hv. rewrite Hcol. destruct (decide (u = v)); [done|].
  by apply Hblack2.
- rewrite Hcol. by rewrite decide_True.
- destruct Hok2 as [Hnd2 Hfin2 Harcs2]. split; simpl.
  + apply NoDup_app. split; [done|]. split; [|apply NoDup_singleton].
    intros x Hx Hx'. apply list_elem_of_singleton in Hx' as ->.
    apply Hfin2 in Hx. congruence.
  + intros a. rewrite Hcol, elem_of_app, list_elem_of_singleton, Hfin2.
    destruct (decide (u = a)) as [<-|Hne]; [split; [done|by right]|].
    split; [|by left]. intros [?|?]; [done|congruence].
  + intros e a b Harc Ha. apply elem_of_app in Ha as [Ha|Ha].
    * apply earlier_app. by eapply Harcs2.
    * apply list_elem_of_singleton in Ha as ->.
      destruct (arc_out_edges _ _ _ _ Harc) as (se & Hse & <-).
      rewrite Forall_forall in Hdone2. specialize (Hdone2 se Hse).
      apply Hfin2 in Hdone2. apply list_elem_of_lookup in Hdone2 as [i Hi].
      exists i, (length (finished st2)).
      split; [by apply lookup_app_l_Some|]. split.
      -- rewrite lookup_app_r by done. by rewrite Nat.sub_diag.
      -- by eapply lookup_lt_Some.
Qed.

(** *** [topological_sort] *)

Lemma arc_lt graph e u v :
  wellFormed graph → arc graph e u v →
  u < num_vertices graph ∧ v < num_vertices graph.
Proof.
intros Hwf (se & He & _ & <- & <-). by apply (Hwf e).
Qed.

Lemma earlier_trans l a b c :
  NoDup l → earlier l a b → earlier l b c → earlier l a c.
Proof.
intros Hnd (i & j & Hi & Hj & Hij) (j' & k & Hj' & Hk & Hjk).
assert (j = j') as <- by by eapply NoDup_lookup.
exists i, k. split; [done|]. split; [done|lia].
Qed.

Lemma earlier_irrefl l a : NoDup l → ¬ earlier l a a.
Proof.
intros Hnd (i & j & Hi & Hj & Hij).
assert (i = j) by by eapply NoDup_lookup. lia.
Qed.

Lemma earlier_directedWalk graph l u es v :
  NoDup l →
  (∀ e a b, arc graph e a b → earlier l b a) →
  directedWalk (arc graph) u es v → es ≠ [] → earlier l v u.
Proof.
intros Hnd Harcs. induction 1 as [|u v w e es Ha Hw IH]; [done|].
intros _. destruct es as [|e' es].
- inversion Hw; subst. by eapply Harcs.
- eapply earlier_trans; [done|by apply IH|by eapply Harcs].
Qed.

(** [topological_sort] returns the vertices, each once, in an order in
    which the target of each edge of the spanning tree comes before its
    source, or throws [not_a_dag], in which case the spanning tree has a
    directed cycle. *)
Lemma topological_sort_spec graph :
  wellFormed graph →
  match topological_sort graph with
  | returned sorted =>
      NoDup sorted
      ∧ (∀ v, v ∈ sorted ↔ v < num_vertices graph)
      ∧ (∀ e a b, arc graph e a b → earlier sorted b a)
  | thrown not_a_dag => directedCycle graph
  | thrown assertion_failed => False
  | out_of_fuel => False
  end.
Proof.
intros Hwf. pose proof (topological_sort_fuel graph Hwf) as Hfuel.
unfold topological_sort in *.
set (n := num_vertices graph) in *.
set (f := λ (acc : result dfs_state) (u : nat),
            st ← acc;
            if decide (get_color st u = white_color)
            then depth_first_visit (S n) graph u st
            else returned st) in *.
set (init := {| colorMap := replicate n white_color; finished := [] |}) in *.
assert (Hfold : ∀ l,
  Forall (λ u, u < n) l →
  outcome graph
    (λ st, length (colorMap st) = n
           ∧ (∀ v, get_color st v ≠ gray_color)
           ∧ orderOk graph st
           ∧ Forall (λ u, get_color st u = black_color) l)
    (foldl f (returned init) l)).
{ induction l as [|u l IHl] using rev_ind; intros Hall.
  - simpl. split; [apply length_replicate|].
    assert (Hwhite : ∀ v, get_color init v = white_color).
    { intros v. unfold get_color, init. simpl.
      destruct (replicate n white_color !! v) as [c|] eqn:Hv; [|done].
      by apply lookup_replicate in Hv as [-> _]. }
    split; [intros v; by rewrite Hwhite|]. split; [|constructor].
    split; simpl.
    + constructor.
    + intros a. rewrite Hwhite. split; [|done].
      intros Hin. by apply elem_of_nil in Hin.
    + intros e a b _ Hin. by apply elem_of_nil in Hin.
  - apply Forall_app in Hall as [Hall Hu]. rewrite Forall_singleton in Hu.
    specialize (IHl Hall). rewrite foldl_app. simpl.
    destruct (foldl f _ l) as [st| |]; simpl; [|done..].
    destruct IHl as (Hlen & Hnogray & Hok & Hdone).
    destruct (decide (get_color st u = white_color)) as [Hwhite|Hnot].
    + pose proof (depth_first_visit_spec graph (S n) u st Hwf Hlen Hu Hwhite)
        as Hvisit.
      destruct (depth_first_visit (S n) graph u st) as [st'| |];
        simpl in *; [|by apply Hvisit; [intros g Hg; by apply Hnogray in Hg|]..].
      destruct Hvisit as (Hlen' & Hgray' & Hblack' & Hu' & Hok');
        [intros g Hg; by apply Hnogray in Hg|done|].
      split; [done|]. split; [|split; [done|]].
      * intros v Hv. apply Hgray' in Hv. by apply Hnogray in Hv.
      * apply Forall_app. split; [|by rewrite Forall_singleton].
        eapply Forall_impl; [exact Hdone|]. intros v Hv. by apply Hblack'.
    + simpl. split; [done|]. split; [done|]. split; [done|].
      apply Forall_app. split; [done|]. rewrite Forall_singleton.
      specialize (Hnogray u). by destruct (get_color st u). }
specialize (Hfold (seq 0 n)).
destruct (foldl f (returned init) (seq 0 n)) as [st| |]; simpl in *;
  [|by apply Hfold; apply Forall_forall; intros u Hu;
       apply elem_of_seq in Hu; lia..|done].
destruct Hfold as (Hlen & Hnogray & [Hnd Hblack Harcs] & Hdone).
{ apply Forall_forall. intros u Hu. apply elem_of_seq in Hu. lia. }
assert (Hall : ∀ v, v ∈ finished st ↔ v < n).
{ intros v. rewrite Hblack. split.
  - intros Hv. rewrite <- Hlen. apply get_color_lt. congruence.
  - intros Hv. rewrite Forall_forall in Hdone. apply Hdone.
    apply elem_of_seq. lia. }
split; [done|]. split; [done|].
intros e a b Harc. eapply Harcs; [done|]. apply Hall.
by destruct (arc_lt _ _ _ _ Hwf Harc).
Qed.

(** [topological_sort] throws [not_a_dag] exactly when the spanning tree
    has a directed cycle. *)
Lemma topological_sort_not_a_dag graph :
  wellFormed graph →
  (topological_sort graph = thrown not_a_dag ↔ directedCycle graph).
Proof.
intros Hwf. pose proof (topological_sort_spec graph Hwf) as Hspec.
destruct (topological_sort graph) as [sorted|[]|]; try done.
split; [done|]. intros (v & es & Hne & Hw). exfalso.
destruct Hspec as (Hnd & _ & Harcs).
eapply earlier_irrefl; [exact Hnd|].
by eapply earlier_directedWalk.
Qed.

(** ** The table of distances and the longest path *)

Lemma earlier_reverse l b a : earlier l b a → earlier (reverse l) a b.
Proof.
intros (i & j & Hi & Hj & Hij).
pose proof (lookup_lt_Some _ _ _ Hi) as Hilt.
pose proof (lookup_lt_Some _ _ _ Hj) as Hjlt.
exists (length l - S j), (length l - S i).
rewrite !reverse_lookup by lia.
replace (length l - S (length l - S j)) with j by lia.
replace (length l - S (length l - S i)) with i by lia.
split; [done|]. split; [done|lia].
Qed.

Lemma in_edges_arc graph v0 se :
  se ∈ spanningTree_in_edges graph v0 ↔
  se ∈ edges graph ∧ isSpanningTreeEdge (property se) = true
  ∧ target se = v0.
Proof.
unfold spanningTree_in_edges. rewrite list_elem_of_filter. tauto.
Qed.

(** The loop over the in edges keeps the largest distance plus one. *)
Lemma bestPredecessor_spec graph table v0 :
  (∀ se, se ∈ spanningTree_in_edges graph v0 →
         ∃ entry, table !! source se = Some entry
                  ∧ (snd entry + 1 < two32)%N) →
  ∃ p, bestPredecessor graph table v0 = returned p
       ∧ (∀ se entry, se ∈ spanningTree_in_edges graph v0 →
            table !! source se = Some entry → (snd entry + 1 ≤ snd p)%N)
       ∧ ((fst p = None ∧ snd p = 0%N)
          ∨ ∃ se entry, se ∈ spanningTree_in_edges graph v0
              ∧ fst p = Some (source se)
              ∧ table !! source se = Some entry
              ∧ snd p = (snd entry + 1)%N).
Proof.
unfold bestPredecessor.
generalize (spanningTree_in_edges graph v0). intros l.
induction l as [|se l IH] using rev_ind; intros Hfound.
- exists (None, 0%N). split; [done|]. split; [|by left].
  intros se entry Hin. by apply elem_of_nil in Hin.
- destruct IH as (p & Hp & Hmax & Hfrom).
  { intros se' Hin. apply Hfound. apply elem_of_app. by left. }
  destruct (Hfound se) as (entry & Hentry & Hsmall).
  { apply elem_of_app. right. by apply list_elem_of_singleton. }
  rewrite foldl_app. simpl. rewrite Hp. simpl. rewrite Hentry. simpl.
  rewrite add32_small by done.
  destruct (N.ltb_spec (snd p) (snd entry + 1)) as [Hlt|Hge].
  + eexists. split; [done|]. simpl. split.
    * intros se' entry' Hin Hentry'.
      apply elem_of_app in Hin as [Hin|Hin].
      -- specialize (Hmax _ _ Hin Hentry'). lia.
      -- apply list_elem_of_singleton in Hin as ->.
         assert (entry' = entry) as -> by congruence. lia.
    * right. exists se, entry. split; [|done].
      apply elem_of_app. right. by apply list_elem_of_singleton.
  + exists p. split; [done|]. split.
    * intros se' entry' Hin Hentry'.
      apply elem_of_app in Hin as [Hin|Hin]; [by eapply Hmax|].
      apply list_elem_of_singleton in Hin as ->.
      assert (entry' = entry) as -> by congruence. lia.
    * destruct Hfrom as [?|(se' & entry' & Hin & ?)]; [by left|].
      right. exists se', entry'. split; [|done].
      apply elem_of_app. by left.
Qed.

(** What holds of the table when the vertices [pre] have had their
    turn: it has an entry for each of them; a predecessor is joined to
    its vertex by an edge of the spanning tree and is one step nearer;
    along an edge of the spanning tree the distance grows; and a distance
    is at most the place of the vertex in the order. *)
Record tableInv (graph : LocalMarkerGraph2) (pre : list vertex_descriptor)
    (table : gmap nat (option nat * N)) : Prop := mkTableInv {
  table_dom : ∀ v, is_Some (table !! v) ↔ v ∈ pre;
  table_entries : tableOk graph table;
  table_longest : ∀ e a b entryA entryB,
    arc graph e a b → table !! a = Some entryA → table !! b = Some entryB →
    (snd entryA + 1 ≤ snd entryB)%N;
  table_index : ∀ v entry i,
    table !! v = Some entry → pre !! i = Some v → (snd entry ≤ N.of_nat i)%N
}.

Lemma computeVertexTable_inv graph order :
  NoDup order →
  (∀ e a b, arc graph e a b → earlier order a b) →
  (N.of_nat (length order) ≤ two32)%N →
  ∃ table, computeVertexTable graph order = returned table
           ∧ tableInv graph order table.
Proof.
intros Hnd Harcs Hsmall. unfold computeVertexTable.
set (f := λ (acc : result (gmap nat (option nat * N))) (v0 : nat),
            vertexTable ← acc;
            p ← bestPredecessor graph vertexTable v0;
            returned (match vertexTable !! v0 with
                      | Some _ => vertexTable
                      | None => <[v0 := p]> vertexTable
                      end)).
assert (Hgen : ∀ post pre table,
  order = pre ++ post → tableInv graph pre table →
  ∃ table', foldl f (returned table) post = returned table'
            ∧ tableInv graph order table').
{ induction post as [|v0 post IH]; intros pre table Horder Hinv.
  - rewrite app_nil_r in Horder. subst pre. by exists table.
  - destruct Hinv as [Hdom Hentries Hlongest Hindex].
    assert (Hv0 : order !! length pre = Some v0).
    { rewrite Horder, lookup_app_r by done. by rewrite Nat.sub_diag. }
    assert (Hlen : length pre < length order).
    { by eapply lookup_lt_Some. }
    assert (Hbefore : ∀ e a, arc graph e a v0 →
              ∃ i, i < length pre ∧ pre !! i = Some a).
    { intros e a Harc. destruct (Harcs _ _ _ Harc) as (i & j & Hi & Hj & Hij).
      assert (j = length pre) as -> by by eapply NoDup_lookup.
      exists i. split; [done|].
      rewrite Horder, lookup_app_l in Hi by done. done. }
    assert (Hfresh : table !! v0 = None).
    { apply eq_None_not_Some. rewrite Hdom. intros Hin.
      apply list_elem_of_lookup in Hin as [i Hi].
      pose proof (lookup_lt_Some _ _ _ Hi) as Hilt.
      assert (i = length pre); [|lia].
      eapply NoDup_lookup; [exact Hnd| |exact Hv0].
      rewrite Horder. by apply lookup_app_l_Some. }
    assert (Hin_arc : ∀ se, se ∈ spanningTree_in_edges graph v0 →
              ∃ e, arc graph e (source se) v0).
    { intros se Hse. apply in_edges_arc in Hse as (Hin & Hflag & Htgt).
      apply list_elem_of_lookup in Hin as [e He]. by exists e, se. }
    destruct (bestPredecessor_spec graph table v0) as (p & Hp & Hmax & Hfrom).
    { intros se Hse. destruct (Hin_arc se Hse) as [e Harc].
      destruct (Hbefore _ _ Harc) as (i & Hi & Hprei).
      destruct (proj2 (Hdom (source se))) as [entry Hentry].
      { by eapply list_elem_of_lookup_2. }
      exists entry. split; [done|].
      pose proof (Hindex _ _ _ Hentry Hprei). lia. }
    simpl. rewrite Hp. simpl. rewrite Hfresh.
    apply (IH (pre ++ [v0])); [by rewrite <- (assoc_L (++))|].
    assert (Hp_ok : entryOk graph table v0 p)
      by by apply bestPredecessor_ok.
    assert (Hp_index : (snd p ≤ N.of_nat (length pre))%N).
    { destruct Hfrom as [[_ ->]|(se & entry & Hse & _ & Hentry & ->)]; [lia|].
      destruct (Hin_arc se Hse) as [e Harc].
      destruct (Hbefore _ _ Harc) as (i & Hi & Hprei).
      pose proof (Hindex _ _ _ Hentry Hprei). lia. }
    split.
    + intros v. rewrite lookup_insert_is_Some, elem_of_app,
        list_elem_of_singleton, Hdom.
      destruct (decide (v0 = v)) as [->|Hne].
      * split; [by right|by left].
      * split; [intros [?|[_ ?]]; [done|by left]|].
        intros [?|?]; [by right|congruence].
    + intros v1 entry. rewrite lookup_insert_Some.
      intros [[<- <-]|[Hne Hv1]]; apply entryOk_insert; auto.
    + intros e a b entryA entryB Harc.
      rewrite !lookup_insert_Some.
      intros [[<- <-]|[Hnea Ha]] [[<- <-]|[Hneb Hb]].
      * exfalso. destruct (Hbefore _ _ Harc) as (i & Hi & Hprei).
        assert (is_Some (table !! v0)) as [? ?]; [|congruence].
        apply Hdom. by eapply list_elem_of_lookup_2.
      * exfalso. destruct (Harcs _ _ _ Harc) as (i & j & Hi & Hj & Hij).
        assert (i = length pre) as -> by by eapply NoDup_lookup.
        assert (b ∈ pre) as Hbin by (apply Hdom; eauto).
        apply list_elem_of_lookup in Hbin as [j' Hj'].
        pose proof (lookup_lt_Some _ _ _ Hj') as Hjlt.
        assert (j = j'); [|lia].
        eapply NoDup_lookup; [exact Hnd|exact Hj|].
        rewrite Horder. by apply lookup_app_l_Some.
      * destruct Harc as (se & He & Hflag & Hsrc & Htgt).
        apply (Hmax se); [|by rewrite Hsrc].
        apply in_edges_arc. split; [by eapply list_elem_of_lookup_2|done].
      * by eapply Hlongest.
    + intros v entry i. rewrite lookup_insert_Some.
      intros [[<- <-]|[Hne Hv]] Hi.
      * assert (i = length pre) as ->; [|done].
        eapply NoDup_lookup; [exact Hnd| |exact Hv0].
        rewrite Horder, (cons_middle v0 pre post), (assoc_L (++)).
        by apply lookup_app_l_Some.
      * destruct (decide (i < length pre)).
        -- rewrite lookup_app_l in Hi by done. by eapply Hindex.
        -- rewrite lookup_app_r in Hi by lia.
           destruct (i - length pre); simpl in Hi; [congruence|].
           by rewrite lookup_nil in Hi. }
apply (Hgen order [] ∅); [done|]. split.
- intros v. rewrite lookup_empty. split; [by intros [? ?]|].
  intros Hin. by apply elem_of_nil in Hin.
- intros v entry Hv. by rewrite lookup_empty in Hv.
- intros e a b entryA entryB _ Ha. by rewrite lookup_empty in Ha.
- intros v entry i Hv. by rewrite lookup_empty in Hv.
Qed.

(** "Find the vertex with maximum distance." *)
Lemma findLastPathVertex_spec graph table :
  (∀ v, v < num_vertices graph → is_Some (table !! v)) →
  ∃ last, findLastPathVertex graph table = returned last
    ∧ (∀ v entry, v < num_vertices graph → table !! v = Some entry →
                  (snd entry ≤ snd last)%N)
    ∧ match fst last with
      | None => snd last = 0%N
      | Some v => ∃ entry, table !! v = Some entry ∧ snd entry = snd last
      end.
Proof.
intros Hdom. unfold findLastPathVertex.
set (f := λ (acc : result (option nat * N)) (v : nat),
            last ← acc;
            it ← assertFound (table !! v);
            if (snd last <? snd it)%N then returned (Some v, snd it)
            else returned last).
assert (Hfold : ∀ l, Forall (λ v, v < num_vertices graph) l →
  ∃ last, foldl f (returned (None, 0%N)) l = returned last
    ∧ (∀ v entry, v ∈ l → table !! v = Some entry → (snd entry ≤ snd last)%N)
    ∧ match fst last with
      | None => snd last = 0%N
      | Some v => ∃ entry, table !! v = Some entry ∧ snd entry = snd last
      end).
{ induction l as [|v l IH] using rev_ind; intros Hall.
  - exists (None, 0%N). split; [done|]. split; [|done].
    intros v entry Hin. by apply elem_of_nil in Hin.
  - apply Forall_app in Hall as [Hall Hv]. rewrite Forall_singleton in Hv.
    destruct (IH Hall) as (last & Hlast & Hmax & Hfrom).
    destruct (Hdom v Hv) as [it Hit].
    rewrite foldl_app. simpl. rewrite Hlast. simpl. rewrite Hit. simpl.
    destruct (N.ltb_spec (snd last) (snd it)) as [Hlt|Hge].
    + eexists. split; [done|]. simpl. split; [|by exists it].
      intros v' entry Hin Hentry. apply elem_of_app in Hin as [Hin|Hin].
      * specialize (Hmax _ _ Hin Hentry). lia.
      * apply list_elem_of_singleton in Hin as ->.
        assert (entry = it) as -> by congruence. lia.
    + exists last. split; [done|]. split; [|done].
      intros v' entry Hin Hentry. apply elem_of_app in Hin as [Hin|Hin].
      * by eapply Hmax.
      * apply list_elem_of_singleton in Hin as ->.
        assert (entry = it) as -> by congruence. lia. }
destruct (Hfold (seq 0 (num_vertices graph))) as (last & Hlast & Hmax & Hfrom).
{ apply Forall_forall. intros v Hv. apply elem_of_seq in Hv. lia. }
exists last. split; [done|]. split; [|done].
intros v entry Hv. apply Hmax. apply elem_of_seq. lia.
Qed.

Lemma boost_edge_found graph e v0 v1 :
  goes graph e v0 v1 →
  ∃ e', boost_edge v0 v1 graph = Some e' ∧ goes graph e' v0 v1.
Proof.
intros (se & He & Hsrc & Htgt). unfold boost_edge.
destruct (edgesWhere _ graph) as [|e' l] eqn:Hwhere.
- assert (Hin : e ∈ edgesWhere
            (λ _ se, bool_decide (source se = v0 ∧ target se = v1)) graph).
  { apply edgesWhere_elem. exists se. split; [done|].
    by apply bool_decide_eq_true. }
  rewrite Hwhere in Hin. by apply elem_of_nil in Hin.
- exists e'. split; [done|].
  apply boost_edge_Some. unfold boost_edge. by rewrite Hwhere.
Qed.

(** Edge [e] goes from [u] to [v], and so does an edge of the spanning
    tree. *)
Definition along (graph : LocalMarkerGraph2) (e : edge_descriptor)
    (u v : vertex_descriptor) : Prop :=
  goes graph e u v ∧ spanningTreeArc graph u v.

(** "Construct the longest path, beginning at the end": from a vertex at
    distance [d] the loop collects [d] edges, which, read from the last
    to the first, lead to that vertex. *)
Lemma longestPathLoop_spec graph table :
  tableOk graph table →
  ∀ fuel v1 entry acc,
    table !! v1 = Some entry → N.to_nat (snd entry) < fuel →
    ∃ collected v0,
      longestPathLoop fuel graph table (Some v1) acc
      = returned (acc ++ collected)
      ∧ length collected = N.to_nat (snd entry)
      ∧ directedWalk (along graph) v0 (reverse collected) v1.
Proof.
intros Htable. induction fuel as [|fuel IH]; intros v1 entry acc Hv1 Hfuel;
  [lia|].
cbn [longestPathLoop]. rewrite Hv1. simpl.
destruct (Htable _ _ Hv1) as [_ Hentry].
destruct entry as [[v0|] d]; simpl in *.
- destruct Hentry as (entry0 & Hv0 & Hd & Harc).
  pose proof Harc as Harc'. apply arc_spanningTreeArc in Harc' as [e Hgo].
  apply arc_goes in Hgo.
  destruct (boost_edge_found _ _ _ _ Hgo) as (e' & -> & Hgo'). simpl.
  destruct (IH v0 entry0 (acc ++ [e']) Hv0 ltac:(lia))
    as (collected & start & -> & Hlen & Hw).
  exists (e' :: collected), start.
  split; [by rewrite <- (assoc_L (++))|]. split; [simpl; lia|].
  rewrite reverse_cons. by eapply directedWalk_snoc.
- subst d. exists [], v1. split; [by rewrite app_nil_r|].
  split; [done|constructor].
Qed.

(** The distance of a vertex is at least the number of edges of a
    directed walk of the spanning tree that leads to it. *)
Lemma directedWalk_distance graph order table u es v entry :
  wellFormed graph →
  (∀ x, x ∈ order ↔ x < num_vertices graph) →
  tableInv graph order table →
  directedWalk (arc graph) u es v →
  table !! v = Some entry →
  (N.of_nat (length es) ≤ snd entry)%N.
Proof.
intros Hwf Horder [Hdom _ Hlongest _] Hw.
assert (Hgen : ∀ entryU, table !! u = Some entryU →
          ∀ entryV, table !! v = Some entryV →
          (snd entryU + N.of_nat (length es) ≤ snd entryV)%N).
{ induction Hw as [u|u x w e es Harc Hw IH]; intros entryU Hu entryV Hv.
  - assert (entryV = entryU) as -> by congruence. simpl. lia.
  - destruct (arc_lt _ _ _ _ Hwf Harc) as [_ Hx].
    destruct (proj2 (Hdom x)) as [entryX HentryX]; [by apply Horder|].
    specialize (IH entryX HentryX entryV Hv).
    pose proof (Hlongest _ _ _ _ _ Harc Hu HentryX). simpl. lia. }
intros Hv.
assert (Hu : u < num_vertices graph).
{ destruct Hw as [u|u x w e es Harc _].
  - apply Horder, Hdom. eauto.
  - by destruct (arc_lt _ _ _ _ Hwf Harc). }
destruct (proj2 (Hdom u)) as [entryU HentryU]; [by apply Horder|].
specialize (Hgen entryU HentryU entry Hv). lia.
Qed.

Lemma directedWalk_end_lt graph u es v :
  wellFormed graph → directedWalk (arc graph) u es v → es ≠ [] →
  v < num_vertices graph.
Proof.
intros Hwf. induction 1 as [|u x w e es Harc Hw IH]; [done|]. intros _.
destruct es as [|e' es]; [|by apply IH].
inversion Hw; subst. by destruct (arc_lt _ _ _ _ Hwf Harc).
Qed.

Section LongestPath.

Local Arguments longestPathLoop : simpl never.

(** The path that [computeOptimalSpanningTreeBestPath] marks: it leads
    from vertex to vertex along edges of the spanning tree, or parallel
    to them, and no directed walk of the spanning tree has more edges. *)
Lemma longestPath_spec graph :
  wellFormed graph →
  (N.of_nat (num_vertices graph) ≤ two32)%N →
  match longestPath graph with
  | returned path =>
      (∃ u v, directedWalk (along graph) u path v)
      ∧ ∀ u es v, directedWalk (arc graph) u es v → length es ≤ length path
  | thrown not_a_dag => directedCycle graph
  | thrown assertion_failed => False
  | out_of_fuel => False
  end.
Proof.
intros Hwf Hsmall. unfold longestPath.
pose proof (topological_sort_spec graph Hwf) as Hsort.
destruct (topological_sort graph) as [sorted|[]|]; simpl; try done.
destruct Hsort as (Hnd & Hall & Harcs).
assert (Hlen : length sorted = num_vertices graph).
{ assert (Hperm : sorted ≡ₚ seq 0 (num_vertices graph)).
  { apply NoDup_Permutation; [done|apply NoDup_seq|].
    intros x. rewrite Hall, elem_of_seq. lia. }
  rewrite Hperm. apply length_seq. }
assert (Hall' : ∀ x, x ∈ reverse sorted ↔ x < num_vertices graph).
{ intros x. by rewrite elem_of_reverse. }
destruct (computeVertexTable_inv graph (reverse sorted))
  as (table & -> & Hinv).
{ by rewrite reverse_Permutation. }
{ intros e a b Harc. by apply earlier_reverse, (Harcs e). }
{ by rewrite length_reverse, Hlen. }
simpl.
assert (Hdom : ∀ v, v < num_vertices graph → is_Some (table !! v)).
{ intros v Hv. apply (table_dom _ _ _ Hinv). by apply Hall'. }
destruct (findLastPathVertex_spec graph table Hdom)
  as ([lastVertex lastDistance] & -> & Hmax & Hfrom).
simpl in *.
assert (Hbound : ∀ path : list nat, length path = N.to_nat lastDistance →
          ∀ u es v, directedWalk (arc graph) u es v →
                    length es ≤ length (reverse path)).
{ intros path Hpath u es v Hw. rewrite length_reverse, Hpath.
  destruct (decide (es = [])) as [->|Hne]; [simpl; lia|].
  pose proof (directedWalk_end_lt _ _ _ _ Hwf Hw Hne) as Hv.
  destruct (Hdom v Hv) as [entry Hentry].
  pose proof (directedWalk_distance _ _ _ _ _ _ _ Hwf Hall' Hinv Hw Hentry).
  pose proof (Hmax _ _ Hv Hentry). lia. }
destruct lastVertex as [v1|].
- destruct Hfrom as (entry & Hentry & Hd).
  destruct (longestPathLoop_spec graph table (table_entries _ _ _ Hinv)
              (S (N.to_nat lastDistance)) v1 entry [] Hentry ltac:(lia))
    as (collected & start & -> & Hcollected & Hw).
  simpl. split; [by exists start, v1|].
  apply Hbound. by rewrite Hcollected, Hd.
- subst lastDistance. change (N.to_nat 0) with 0.
  change (longestPathLoop 1 graph table None []) with
    (returned (X := list nat) []).
  simpl. split; [exists 0, 0; constructor|]. by apply (Hbound []).
Qed.

End LongestPath.

(** ** Further properties of the best path *)

(** *** No directed cycle in a forest *)

Lemma not_NoDup_split (l : list nat) :
  ¬ NoDup l → ∃ l1 x l2 l3, l = l1 ++ x :: l2 ++ x :: l3.
Proof.
induction l as [|a l IH]; intros Hnot.
- exfalso. apply Hnot. constructor.
- destruct (decide (a ∈ l)) as [Hin|Hnotin].
  + apply list_elem_of_split in Hin as (l2 & l3 & ->).
    by exists [], a, l2, l3.
  + destruct IH as (l1 & x & l2 & l3 & ->).
    { intros Hnd. apply Hnot. by constructor. }
    by exists (a :: l1), x, l2, l3.
Qed.

Lemma arc_functional graph e u v u' v' :
  arc graph e u v → arc graph e u' v' → u = u' ∧ v = v'.
Proof.
intros (se & He & _ & <- & <-) (se' & He' & _ & <- & <-).
by assert (se' = se) as -> by congruence.
Qed.

Lemma directedCycle_simple graph n :
  ∀ v es, length es ≤ n → es ≠ [] → directedWalk (arc graph) v es v →
  ∃ v' es', es' ≠ [] ∧ NoDup es' ∧ directedWalk (arc graph) v' es' v'.
Proof.
induction n as [|n IH]; intros v es Hlen Hne Hw.
{ destruct es; [done|simpl in Hlen; lia]. }
destruct (decide (NoDup es)) as [Hnd|Hdup]; [by exists v, es|].
apply not_NoDup_split in Hdup as (l1 & x & l2 & l3 & ->).
apply directedWalk_app_inv in Hw as (a & _ & Hw).
inversion Hw as [|? b ? ? ? Harc Hw']; subst.
apply directedWalk_app_inv in Hw' as (c & Hmid & Hw'').
inversion Hw'' as [|? d ? ? ? Harc' _]; subst.
destruct (arc_functional _ _ _ _ _ _ Harc Harc') as [<- _].
apply (IH a (x :: l2)); [|done|exact (directedWalk_cons _ _ _ _ _ _ Harc Hmid)].
rewrite length_app in Hlen. simpl in *. rewrite length_app in Hlen.
simpl in Hlen. lia.
Qed.

Lemma directedWalk_walk graph u es v :
  directedWalk (arc graph) u es v →
  walk graph (spanningTreeEdge graph) u es v.
Proof.
induction 1 as [|u v w e es (se & He & Hflag & Hsrc & Htgt) Hw IH];
  [constructor|].
eapply walk_cons; [by exists se| |done].
exists se. split; [done|]. by left.
Qed.

(** A spanning tree without cycles, directions ignored, has no directed
    cycle. *)
Lemma acyclic_no_directedCycle graph :
  acyclic graph (spanningTreeEdge graph) → ¬ directedCycle graph.
Proof.
intros Hacyc (v & es & Hne & Hw).
destruct (directedCycle_simple graph (length es) v es ltac:(done) Hne Hw)
  as (v' & es' & Hne' & Hnd' & Hw').
apply directedWalk_walk in Hw'. by pose proof (Hacyc _ _ Hw' Hnd').
Qed.

Lemma wellFormed_computeOptimalSpanningTree graph :
  wellFormed graph → wellFormed (computeOptimalSpanningTree graph).
Proof.
intros Hwf e se' He.
pose proof (spanningTreeLoop_same graph
              (edgeTable (clearSpanningTree graph))) as Hsame.
fold (computeOptimalSpanningTree graph) in Hsame.
destruct (sameUpToSpanningTree_lookup _ _ _ _ Hsame He) as (se & He0 & Heq).
apply setSpanningTreeEdge_ends in Heq as (-> & -> & _).
destruct Hsame as (Hv & _). unfold num_vertices. rewrite Hv.
by apply (Hwf e).
Qed.

Lemma computeOptimalSpanningTree_no_directedCycle graph :
  wellFormed graph →
  (N.of_nat (num_vertices graph) ≤ two32)%N →
  ¬ directedCycle (computeOptimalSpanningTree graph).
Proof.
intros Hwf Hsmall. apply acyclic_no_directedCycle.
destruct (computeOptimalSpanningTree_invariant graph Hwf Hsmall)
  as [[Hsame _ _ _ _ Hacyc _] Heq].
rewrite <- Heq in *.
intros u es Hw. apply (Hacyc u).
eapply walk_impl; [|exact Hw]. intros e0 x y He0 Hj. split; [done|].
by apply (sameUpToSpanningTree_joins _ _ _ _ _ Hsame).
Qed.

(** *** When the routine returns *)

Lemma computeOptimalSpanningTreeBestPath_cases graph :
  wellFormed graph →
  (N.of_nat (num_vertices graph) ≤ two32)%N →
  match computeOptimalSpanningTreeBestPath graph with
  | returned graph' =>
      ∃ path u v,
        longestPath graph = returned path
        ∧ graph' = markPath path graph
        ∧ directedWalk (along graph) u path v
        ∧ ∀ u' es v', directedWalk (arc graph) u' es v' →
                      length es ≤ length path
  | thrown not_a_dag => directedCycle graph
  | thrown assertion_failed => False
  | out_of_fuel => False
  end.
Proof.
intros Hwf Hsmall. unfold computeOptimalSpanningTreeBestPath.
pose proof (longestPath_spec graph Hwf Hsmall) as Hspec.
destruct (longestPath graph) as [path|[]|]; simpl; try done.
destruct Hspec as ((u & v & Hw) & Hlongest). by exists path, u, v.
Qed.

Lemma no_cycle_if_returned graph sorted :
  wellFormed graph → topological_sort graph = returned sorted →
  ¬ directedCycle graph.
Proof.
intros Hwf Hsorted Hcycle.
apply (topological_sort_not_a_dag graph Hwf) in Hcycle. congruence.
Qed.

(** X11.  [computeOptimalSpanningTreeBestPath] throws [not_a_dag]
    exactly when the edges that carry [isSpanningTreeEdge] contain a
    directed cycle; when they contain none it returns; and none of its
    assertions ever fails. *)
Theorem computeOptimalSpanningTreeBestPath_not_a_dag graph :
  wellFormed graph →
  (N.of_nat (num_vertices graph) ≤ two32)%N →
  (computeOptimalSpanningTreeBestPath graph = thrown not_a_dag
   ↔ directedCycle graph)
  ∧ (¬ directedCycle graph →
     ∃ graph', computeOptimalSpanningTreeBestPath graph = returned graph')
  ∧ computeOptimalSpanningTreeBestPath graph ≠ thrown assertion_failed.
Proof.
intros Hwf Hsmall.
pose proof (computeOptimalSpanningTreeBestPath_cases graph Hwf Hsmall)
  as Hcases.
assert (Hret : ∀ graph', computeOptimalSpanningTreeBestPath graph
                         = returned graph' → ¬ directedCycle graph).
{ intros graph' Hgraph'. unfold computeOptimalSpanningTreeBestPath,
    longestPath in Hgraph'.
  destruct (topological_sort graph) as [sorted| |] eqn:Hsorted;
    simpl in Hgraph'; [|done..].
  by eapply no_cycle_if_returned. }
destruct (computeOptimalSpanningTreeBestPath graph) as [graph'|[]|];
  [| |done|done].
- split; [|split; [|done]].
  + split; [done|]. intros Hcycle. by destruct (Hret graph' eq_refl).
  + intros _. by exists graph'.
- split; [done|]. split; [|done]. intros Hno. by destruct Hno.
Qed.

(** X12.  After [computeOptimalSpanningTree],
    [computeOptimalSpanningTreeBestPath] returns: the topological sort
    "always succeeds as the spanning tree is acyclic", and no assertion
    fails. *)
Theorem computeOptimalSpanningTreeBestPath_after_tree graph :
  wellFormed graph →
  (N.of_nat (num_vertices graph) ≤ two32)%N →
  ∃ graph',
    computeOptimalSpanningTreeBestPath (computeOptimalSpanningTree graph)
    = returned graph'.
Proof.
intros Hwf Hsmall.
pose proof (wellFormed_computeOptimalSpanningTree graph Hwf) as Hwf'.
assert (Hsmall' : (N.of_nat (num_vertices (computeOptimalSpanningTree graph))
                   ≤ two32)%N).
{ destruct (spanningTreeLoop_same graph
              (edgeTable (clearSpanningTree graph))) as (Hv & _).
  fold (computeOptimalSpanningTree graph) in Hv.
  unfold num_vertices in *. by rewrite Hv. }
pose proof (computeOptimalSpanningTreeBestPath_cases _ Hwf' Hsmall')
  as Hcases.
destruct (computeOptimalSpanningTreeBestPath
            (computeOptimalSpanningTree graph)) as [graph'|[]|];
  try done; [by exists graph'|].
by apply computeOptimalSpanningTree_no_directedCycle in Hcases.
Qed.

Lemma markPath_flag path graph e :
  (∀ e', e' ∈ path → is_Some (edges graph !! e')) →
  spanningTreeBestPathEdge (markPath path graph) e
  ↔ spanningTreeBestPathEdge graph e ∨ e ∈ path.
Proof.
intros Hpath. unfold spanningTreeBestPathEdge.
rewrite markPath_lookup. split.
- intros (se' & Hse' & Hflag).
  destruct (edges graph !! e) as [se|] eqn:He; simpl in Hse'; [|done].
  injection Hse' as <-. case_bool_decide; [by right|].
  left. by exists se.
- intros [(se & He & Hflag)|Hin].
  + rewrite He. simpl. eexists. split; [done|]. by case_bool_decide.
  + destruct (Hpath e Hin) as [se He]. rewrite He. simpl.
    eexists. split; [done|]. by rewrite bool_decide_eq_true_2.
Qed.

Lemma directedWalk_along_edges graph u path v e :
  directedWalk (along graph) u path v → e ∈ path →
  is_Some (edges graph !! e).
Proof.
induction 1 as [|u x w e' es [(se & He & _) _] Hw IH]; intros Hin.
- by apply elem_of_nil in Hin.
- apply elem_of_cons in Hin as [->|Hin]; [eauto|by apply IH].
Qed.

(** X13.  The edges that [computeOptimalSpanningTreeBestPath] marks form
    one directed path, each of its edges going from a vertex to the next
    as an edge of the spanning tree does, and no directed walk along
    edges of the spanning tree has more edges than this path: the path
    is as long as the longest directed path of the spanning tree.  An
    edge carries [isSpanningTreeBestPathEdge] afterwards exactly when it
    carried it before or is on the path. *)
Theorem computeOptimalSpanningTreeBestPath_longest graph graph' :
  wellFormed graph →
  (N.of_nat (num_vertices graph) ≤ two32)%N →
  computeOptimalSpanningTreeBestPath graph = returned graph' →
  ∃ path u v,
    longestPath graph = returned path
    ∧ (∀ e, spanningTreeBestPathEdge graph' e
            ↔ spanningTreeBestPathEdge graph e ∨ e ∈ path)
    ∧ directedWalk (along graph) u path v
    ∧ ∀ u' es v', directedWalk (arc graph) u' es v' →
                  length es ≤ length path.
Proof.
intros Hwf Hsmall Hgraph'.
pose proof (computeOptimalSpanningTreeBestPath_cases graph Hwf Hsmall)
  as Hcases.
rewrite Hgraph' in Hcases.
destruct Hcases as (path & u & v & Hpath & -> & Hw & Hlongest).
exists path, u, v. split; [done|]. split; [|done].
intros e. apply markPath_flag. intros e' He'.
by eapply directedWalk_along_edges.
Qed.

Lemma along_arc graph e u v :
  noParallelEdges graph → along graph e u v → arc graph e u v.
Proof.
intros Hno [(se & He & Hsrc & Htgt) (se' & Hin & Hflag & Hsrc' & Htgt')].
apply list_elem_of_lookup in Hin as [e' He'].
assert (e = e') as <-
  by (apply (Hno e e' se se'); [done|done|congruence|congruence]).
assert (se' = se) as -> by congruence. by exists se.
Qed.

(** X14.  On a graph in which no two edges have the same source and the
    same target, the path that [computeOptimalSpanningTreeBestPath]
    marks is a directed walk along edges of the spanning tree, and a
    longest one; if every edge that carried
    [isSpanningTreeBestPathEdge] before the call was an edge of the
    spanning tree, every edge that carries it afterwards is one. *)
Theorem computeOptimalSpanningTreeBestPath_in_tree graph graph' :
  noParallelEdges graph →
  wellFormed graph →
  (N.of_nat (num_vertices graph) ≤ two32)%N →
  computeOptimalSpanningTreeBestPath graph = returned graph' →
  (∃ path u v,
     longestPath graph = returned path
     ∧ directedWalk (arc graph) u path v
     ∧ ∀ u' es v', directedWalk (arc graph) u' es v' →
                   length es ≤ length path)
  ∧ ((∀ e, spanningTreeBestPathEdge graph e → spanningTreeEdge graph e) →
     ∀ e, spanningTreeBestPathEdge graph' e → spanningTreeEdge graph' e).
Proof.
intros Hno Hwf Hsmall Hgraph'.
pose proof (computeOptimalSpanningTreeBestPath_cases graph Hwf Hsmall)
  as Hcases.
rewrite Hgraph' in Hcases.
destruct Hcases as (path & u & v & Hpath & -> & Hw & Hlongest).
assert (Hw' : directedWalk (arc graph) u path v).
{ eapply directedWalk_impl; [|exact Hw]. intros e x y. by apply along_arc. }
split; [by exists path, u, v|].
intros Hbefore e He.
assert (Htree : spanningTreeEdge graph e).
{ apply markPath_flag in He as [He|He].
  - by apply Hbefore.
  - pose proof (longestPath_spanningTree graph path Hno Hpath) as Hall.
    rewrite Forall_forall in Hall. by apply Hall.
  - intros e' He'. by eapply directedWalk_along_edges. }
destruct Htree as (se & Hse & Hflag). unfold spanningTreeEdge.
rewrite markPath_lookup, Hse. simpl. eexists. split; [done|].
by case_bool_decide.
Qed.

(** X15.  On a graph none of whose edges carries [isSpanningTreeEdge],
    as before [computeOptimalSpanningTree] has run on a new graph,
    [computeOptimalSpanningTreeBestPath] marks nothing and returns the
    graph as it is. *)
Theorem computeOptimalSpanningTreeBestPath_no_tree graph :
  wellFormed graph →
  (N.of_nat (num_vertices graph) ≤ two32)%N →
  (∀ e, ¬ spanningTreeEdge graph e) →
  computeOptimalSpanningTreeBestPath graph = returned graph.
Proof.
intros Hwf Hsmall Hnone.
pose proof (computeOptimalSpanningTreeBestPath_cases graph Hwf Hsmall)
  as Hcases.
assert (Hnoarc : ∀ e u v, ¬ arc graph e u v).
{ intros e u v (se & He & Hflag & _). apply (Hnone e). by exists se. }
destruct (computeOptimalSpanningTreeBestPath graph) as [graph'|[]|];
  try done.
- destruct Hcases as (path & u & v & _ & -> & Hw & _).
  destruct Hw as [u|u x w e es [_ Harc] _]; [done|].
  apply arc_spanningTreeArc in Harc as [e' Harc]. by apply Hnoarc in Harc.
- destruct Hcases as (v & es & Hne & Hw).
  destruct Hw as [|u x w e es Harc _]; [done|]. by apply Hnoarc in Harc.
Qed.

(** ** The further properties on small graphs *)

(** *** A graph without parallel edges

    Four vertices and the edges 0 -> 1 (coverage 3), 1 -> 2 (coverage 2),
    0 -> 2 (coverage 1) and 3 -> 1 (coverage 1).  The spanning tree
    leaves the edge 0 -> 2 out, and its longest directed path is
    0 -> 1 -> 2. *)
Module Fork.

Definition graph : LocalMarkerGraph2 :=
  {| vertices := Tangle.vertex <$> [20; 21; 22; 23]%N;
     edges := [mkStoredEdge 0 1 (Tangle.observations 3);
               mkStoredEdge 1 2 (Tangle.observations 2);
               mkStoredEdge 0 2 (Tangle.observations 1);
               mkStoredEdge 3 1 (Tangle.observations 1)];
     vertexMap := {[ 20%N := 0; 21%N := 1; 22%N := 2; 23%N := 3 ]} |}.

Definition tree : LocalMarkerGraph2 := computeOptimalSpanningTree graph.

(** The same graph with the flags of the spanning tree written out. *)
Definition marked : LocalMarkerGraph2 :=
  {| vertices := vertices graph;
     edges := [setSpanningTreeEdge true
                 (mkStoredEdge 0 1 (Tangle.observations 3));
               setSpanningTreeEdge true
                 (mkStoredEdge 1 2 (Tangle.observations 2));
               mkStoredEdge 0 2 (Tangle.observations 1);
               setSpanningTreeEdge true
                 (mkStoredEdge 3 1 (Tangle.observations 1))];
     vertexMap := vertexMap graph |}.

End Fork.

Example fork_bestPath :
  (spanningTreeFlags Fork.tree, longestPath Fork.tree)
  = ([true; true; false; true], returned [0; 1]).
Proof. vm_compute. reflexivity. Qed.

Lemma fork_tree : Fork.tree = Fork.marked.
Proof. vm_compute. reflexivity. Qed.

Lemma fork_wellFormed : wellFormed Fork.tree.
Proof.
rewrite fork_tree. intros e se He.
apply list_elem_of_lookup_2, list_elem_of_In in He.
unfold num_vertices. simpl in *.
repeat (destruct He as [<-|He]; [simpl; lia|]). done.
Defined.

Lemma fork_noParallelEdges : noParallelEdges Fork.tree.
Proof.
rewrite fork_tree. intros e e' se se' He He'.
destruct e as [|[|[|[|e]]]]; simpl in He; try discriminate He;
destruct e' as [|[|[|[|e']]]]; simpl in He'; try discriminate He';
injection He as <-; injection He' as <-; simpl; intros; congruence.
Defined.

(** The tangled graph with the flags of its spanning tree written out. *)
Definition tangle_marked : LocalMarkerGraph2 :=
  {| vertices := vertices Tangle.graph;
     edges := [mkStoredEdge 0 1 (Tangle.observations 1);
               setSpanningTreeEdge true
                 (mkStoredEdge 0 1 (Tangle.observations 3));
               mkStoredEdge 1 2 (Tangle.observations 2);
               setSpanningTreeEdge true
                 (mkStoredEdge 2 0 (Tangle.observations 5));
               mkStoredEdge 2 2 (Tangle.observations 9);
               setSpanningTreeEdge true
                 (mkStoredEdge 3 1 (Tangle.observations 1))];
     vertexMap := vertexMap Tangle.graph |}.

Lemma tangle_tree : computeOptimalSpanningTree Tangle.graph = tangle_marked.
Proof. vm_compute. reflexivity. Qed.

Lemma tangle_tree_wellFormed :
  wellFormed (computeOptimalSpanningTree Tangle.graph).
Proof.
rewrite tangle_tree. intros e se He.
apply list_elem_of_lookup_2, list_elem_of_In in He.
unfold num_vertices. simpl in *.
repeat (destruct He as [<-|He]; [simpl; lia|]). done.
Defined.

(** X7 on the tangled graph, for the vertices 3 and 2. *)
Lemma computeOptimalSpanningTree_spans_witness :
  connected Tangle.graph anyEdge 3 2
  ↔ connected (computeOptimalSpanningTree Tangle.graph)
      (spanningTreeEdge (computeOptimalSpanningTree Tangle.graph)) 3 2.
Proof.
apply (computeOptimalSpanningTree_spans Tangle.graph 3 2).
- exact tangle_wellFormed.
- vm_compute. discriminate.
Defined.

(** X8 on the tangled graph, for the second of the two edges from 0 to 1,
    which is the one the spanning tree takes. *)
Lemma computeOptimalSpanningTree_simple_witness :
  source (setSpanningTreeEdge true (mkStoredEdge 0 1 (Tangle.observations 3)))
  ≠ target (setSpanningTreeEdge true (mkStoredEdge 0 1 (Tangle.observations 3)))
  ∧ ∀ e' se',
      edges (computeOptimalSpanningTree Tangle.graph) !! e' = Some se' →
      isSpanningTreeEdge (property se') = true →
      (source se' = 0 ∧ target se' = 1) ∨ (source se' = 1 ∧ target se' = 0) →
      e' = 1.
Proof.
apply (computeOptimalSpanningTree_simple Tangle.graph 1
         (setSpanningTreeEdge true (mkStoredEdge 0 1 (Tangle.observations 3)))).
- exact tangle_wellFormed.
- vm_compute. discriminate.
- vm_compute. reflexivity.
- reflexivity.
Defined.

(** X9 on the tangled graph, for the first of the two edges from 0 to 1,
    which the spanning tree leaves out. *)
Lemma computeOptimalSpanningTree_heaviest_witness :
  connected (computeOptimalSpanningTree Tangle.graph)
    (λ e', spanningTreeEdge (computeOptimalSpanningTree Tangle.graph) e'
           ∧ ∃ se', edges Tangle.graph !! e' = Some se'
                    ∧ coverage (property
                                  (mkStoredEdge 0 1 (Tangle.observations 1)))
                      ≤ coverage (property se'))
    0 1.
Proof.
apply (computeOptimalSpanningTree_heaviest Tangle.graph 0
         (mkStoredEdge 0 1 (Tangle.observations 1))).
- exact tangle_wellFormed.
- vm_compute. discriminate.
- reflexivity.
- rewrite tangle_tree. intros (se' & He' & Hflag). simpl in He'.
  injection He' as <-. discriminate Hflag.
Defined.

(** X10 on the tangled graph and the graph with its spanning tree
    marked. *)
Lemma computeOptimalSpanningTree_afresh_witness :
  computeOptimalSpanningTree (computeOptimalSpanningTree Tangle.graph)
  = computeOptimalSpanningTree Tangle.graph
  ∧ computeOptimalSpanningTree
      (computeOptimalSpanningTree (computeOptimalSpanningTree Tangle.graph))
    = computeOptimalSpanningTree Tangle.graph.
Proof.
apply (computeOptimalSpanningTree_afresh Tangle.graph
         (computeOptimalSpanningTree Tangle.graph)).
split; [|split]; vm_compute; reflexivity.
Defined.

(** X11 on the tangled graph with its spanning tree marked. *)
Lemma computeOptimalSpanningTreeBestPath_not_a_dag_witness :
  (computeOptimalSpanningTreeBestPath (computeOptimalSpanningTree Tangle.graph)
   = thrown not_a_dag
   ↔ directedCycle (computeOptimalSpanningTree Tangle.graph))
  ∧ (¬ directedCycle (computeOptimalSpanningTree Tangle.graph) →
     ∃ graph',
       computeOptimalSpanningTreeBestPath
         (computeOptimalSpanningTree Tangle.graph) = returned graph')
  ∧ computeOptimalSpanningTreeBestPath (computeOptimalSpanningTree Tangle.graph)
    ≠ thrown assertion_failed.
Proof.
apply (computeOptimalSpanningTreeBestPath_not_a_dag
         (computeOptimalSpanningTree Tangle.graph)).
- exact tangle_tree_wellFormed.
- vm_compute. discriminate.
Defined.

(** X12 on the tangled graph. *)
Lemma computeOptimalSpanningTreeBestPath_after_tree_witness :
  ∃ graph',
    computeOptimalSpanningTreeBestPath (computeOptimalSpanningTree Tangle.graph)
    = returned graph'.
Proof.
apply (computeOptimalSpanningTreeBestPath_after_tree Tangle.graph).
- exact tangle_wellFormed.
- vm_compute. discriminate.
Defined.

(** X13 on the tangled graph with its spanning tree marked. *)
Lemma computeOptimalSpanningTreeBestPath_longest_witness :
  ∃ path u v,
    longestPath (computeOptimalSpanningTree Tangle.graph) = returned path
    ∧ (∀ e, spanningTreeBestPathEdge
              (markPath [3; 0] (computeOptimalSpanningTree Tangle.graph)) e
            ↔ spanningTreeBestPathEdge
                (computeOptimalSpanningTree Tangle.graph) e
              ∨ e ∈ path)
    ∧ directedWalk (along (computeOptimalSpanningTree Tangle.graph)) u path v
    ∧ ∀ u' es v',
        directedWalk (arc (computeOptimalSpanningTree Tangle.graph)) u' es v' →
        length es ≤ length path.
Proof.
apply (computeOptimalSpanningTreeBestPath_longest
         (computeOptimalSpanningTree Tangle.graph)
         (markPath [3; 0] (computeOptimalSpanningTree Tangle.graph))).
- exact tangle_tree_wellFormed.
- vm_compute. discriminate.
- vm_compute. reflexivity.
Defined.

(** X14 on the graph without parallel edges. *)
Lemma computeOptimalSpanningTreeBestPath_in_tree_witness :
  (∃ path u v,
     longestPath Fork.tree = returned path
     ∧ directedWalk (arc Fork.tree) u path v
     ∧ ∀ u' es v', directedWalk (arc Fork.tree) u' es v' →
                   length es ≤ length path)
  ∧ ((∀ e, spanningTreeBestPathEdge Fork.tree e →
           spanningTreeEdge Fork.tree e) →
     ∀ e, spanningTreeBestPathEdge (markPath [0; 1] Fork.tree) e →
          spanningTreeEdge (markPath [0; 1] Fork.tree) e).
Proof.
apply (computeOptimalSpanningTreeBestPath_in_tree Fork.tree
         (markPath [0; 1] Fork.tree)).
- exact fork_noParallelEdges.
- exact fork_wellFormed.
- vm_compute. discriminate.
- vm_compute. reflexivity.
Defined.

(** X15 on the tangled graph as it is built, no edge marked. *)
Lemma computeOptimalSpanningTreeBestPath_no_tree_witness :
  computeOptimalSpanningTreeBestPath Tangle.graph = returned Tangle.graph.
Proof.
apply (computeOptimalSpanningTreeBestPath_no_tree Tangle.graph).
- exact tangle_wellFormed.
- vm_compute. discriminate.
- intros e (se & He & Hflag).
  apply list_elem_of_lookup_2, list_elem_of_In in He. simpl in He.
  repeat (destruct He as [<-|He]; [discriminate Hflag|]). done.
Defined.

(** ** Graphviz output: [write] and [Writer] *)

From stdpp Require Import strings.

(** What is written to the stream, one piece for each insertion [s << x]:
    a string, an unsigned integer or an [int] in decimal, the text of a
    k-mer ([kmer.write(s, k)]), an oriented read id, a run of base
    letters, and the two numbers of type [double], which are written with
    precision 4: [width c] is [0.05 * sqrt(double(c))] and
    [penwidth t c] is [0.t * double(c)]. *)
Inductive chunk :=
| text (s : string)
| number (n : N)
| integer (z : Z)
| kmerText (kmerId k : N)
| orientedReadText (o : OrientedReadId)
| letters (bases : list Base)
| width (c : N)
| penwidth (tenths c : N).

(** A string literal as the C++ source has it, with the quote inside a
    literal written ['] and the line feed written [\n]. *)
Definition quoteMark : Ascii.ascii := Ascii.ascii_of_nat 39.
Definition backslash : Ascii.ascii := Ascii.ascii_of_nat 92.
Definition letterN : Ascii.ascii := Ascii.ascii_of_nat 110.
Definition doubleQuote : Ascii.ascii := Ascii.ascii_of_nat 34.
Definition lineFeed : Ascii.ascii := Ascii.ascii_of_nat 10.

Fixpoint lit (s : string) : string :=
  match s with
  | EmptyString => EmptyString
  | String c s' =>
      if Ascii.eqb c quoteMark then String doubleQuote (lit s')
      else if Ascii.eqb c backslash then
        match s' with
        | String c' s'' =>
            if Ascii.eqb c' letterN then String lineFeed (lit s'')
            else String c (lit s')
        | EmptyString => String c EmptyString
        end
      else String c (lit s')
  end.

(** [std::endl]. *)
Definition endl : chunk := text (lit "\n").

(** Modelled from the spec: [consensus()] is declared in
    [LocalMarkerGraph2.hpp], which is not among the sources; it is the
    size of the largest group of the edge. *)
Definition consensus (edge : LocalMarkerGraph2Edge) : nat :=
  foldr (λ p m, length (snd p) `max` m) 0 (infos edge).

(** The number of characters of [to_string] of a [uint8_t]. *)
Definition decimalDigits (n : N) : nat :=
  if (n <? 10)%N then 1 else if (n <? 100)%N then 2 else 3.

Section Writer.

(** The members of the graph the writer reads, and the members of the
    writer. *)
Variable k : N.
Variable markers : N → CompressedMarker.
Variable minCoverage : N.
Variable maxDistance : Z.
Variable detailed : bool.
Variable showVertexId : bool.

(** [Writer::operator()(std::ostream&)]: the properties of the graph. *)
Definition writeGraphProperties : list chunk :=
  [text (lit "tooltip = ' ';\n")]
  ++ (if detailed then
        [text (lit "layout=dot;\n");
         text (lit "ratio=expand;\n");
         text (lit "node [fontname = 'Courier New' shape=rectangle];\n");
         text (lit "edge [fontname = 'Courier New'];\n")]
      else
        [text (lit "layout=sfdp;\n");
         text (lit "smoothing=triangle;\n");
         text (lit "ratio=expand;\n");
         text (lit "node [shape=point];\n")]).

(** The color of a vertex; [ordinary] is the color of a vertex with
    enough coverage, black in the compact output and green in the
    detailed one. *)
Definition vertexColor (vertex : LocalMarkerGraph2Vertex) (coverage : N)
    (ordinary : string) : string :=
  if decide (distance vertex = maxDistance) then "cyan"
  else if decide (distance vertex = 0%Z) then "lightGreen"
  else if (minCoverage <=? coverage)%N then ordinary
  else "red".

(** "A row for each marker of this vertex." *)
Definition markerRow (markerInfo : MarkerInfo) : list chunk :=
  let marker := markers (markerId markerInfo) in
  [text (lit "<tr><td align='right'");
   text (lit " href='exploreRead?readId&amp;");
   number (getReadId (orientedReadId markerInfo));
   text "&amp;strand="; number (getStrand (orientedReadId markerInfo));
   text (lit "'");
   text (lit "><font color='blue'><b><u>");
   orientedReadText (orientedReadId markerInfo);
   text "</u></b></font></td>";
   text (lit "<td align='right'");
   text (lit " href='exploreRead?readId=");
   number (getReadId (orientedReadId markerInfo));
   text "&amp;strand="; number (getStrand (orientedReadId markerInfo));
   text "&amp;highlightMarker="; number (ordinal markerInfo);
   text (lit "'");
   text (lit "><font color='blue'><b><u>"); number (ordinal markerInfo);
   text "</u></b></font></td>";
   text (lit "<td align='right'><b>"); number (position marker);
   text "</b></td></tr>"].

(** [Writer::operator()(std::ostream&, vertex_descriptor)].  The result
    is [None] when [v] is not a vertex of the graph. *)
Definition writeVertex (graph : LocalMarkerGraph2) (v : vertex_descriptor)
  : option (result (list chunk)) :=
  vertex ← vertices graph !! v;
  let coverage := N.of_nat (length (markerInfos vertex)) in
  Some
    (if decide (0 < coverage)%N then
       if negb detailed then
         let color := vertexColor vertex coverage "black" in
         returned
           ([text "["]
            ++ [text "id=vertex"; number (vertexId vertex)]
            ++ [text (lit " tooltip='")]
            ++ (if showVertexId
                then [text "Vertex "; number (vertexId vertex);
                      text ", coverage "]
                else [text "Coverage "])
            ++ [number coverage; text ", distance ";
                integer (distance vertex)]
            ++ [text (lit ", click to recenter graph here, right click for detail'")]
            ++ [text (lit " width='")]
            ++ [width coverage]
            ++ [text (lit "'")]
            ++ [text (lit " fillcolor='"); text color;
                text (lit "' color='"); text color; text (lit "'")]
            ++ [text "]"])
       else
         kmerId ← default (thrown assertion_failed) (getKmerId markers v graph);
         let color := vertexColor vertex coverage "green" in
         returned
           ([text "["]
            ++ [text " style=filled"]
            ++ [text (lit " fillcolor='"); text color; text (lit "'")]
            ++ [text " id=vertex"; number (vertexId vertex)]
            ++ [text (lit " tooltip='")]
            ++ (if showVertexId
                then [text "Vertex "; number (vertexId vertex);
                      text ", coverage "]
                else [text "Coverage "])
            ++ [number coverage; text ", distance ";
                integer (distance vertex); text (lit "'")]
            ++ [text (lit " label=<<font><table border='0'>")]
            ++ (if showVertexId
                then [text (lit "<tr><td colspan='3'><b>");
                      text "Vertex "; number (vertexId vertex);
                      text "</b></td></tr>"]
                else [])
            ++ [text (lit "<tr><td colspan='3'><b>");
                kmerText kmerId k;
                text "</b></td></tr>"]
            ++ [text (lit "<tr><td colspan='3'><b>");
                text "Coverage "; number coverage;
                text "</b></td></tr>"]
            ++ [text (lit "<tr><td colspan='3' ");
                text (lit " href=''");
                text (lit " id='vertexDistance"); number (vertexId vertex);
                text (lit "' tooltip='Click to recenter graph here'>");
                text (lit "<font color='blue'><b><u>Distance ");
                integer (distance vertex);
                text "</u></b></font></td></tr>"]
            ++ [text "<tr><td><b>Read</b></td><td><b>Ord</b></td><td><b>Pos</b></td></tr>"]
            ++ (markerInfos vertex ≫= markerRow)
            ++ [text "</table></font>>"]
            ++ [text "]"])
     else thrown assertion_failed).

(** The color of an edge, the same in the compact and in the detailed
    output. *)
Definition edgeColor (edge : LocalMarkerGraph2Edge) (coverage : N) : string :=
  if isSpanningTreeEdge edge then "violet"
  else if (minCoverage <=? coverage)%N then "black"
  else "red".

(** "Style". *)
Definition edgeStyle (edge : LocalMarkerGraph2Edge) : list chunk :=
  if isSpanningTreeEdge edge && negb (isSpanningTreeBestPathEdge edge)
  then [text " style=dashed"] else [].

(** "Construct the string representing this sequence": the overlap
    count in decimal, or the letters of the bases; and the size of this
    string. *)
Definition sequenceString (key : Sequence) : chunk :=
  if decide (sequence key = []) then number (overlappingBaseCount key)
  else letters (sequence key).

Definition sequenceStringSize (key : Sequence) : nat :=
  if decide (sequence key = []) then decimalDigits (overlappingBaseCount key)
  else length (sequence key).

(** The row of one observation; [first] tells whether it is the first
    observation of its group. *)
Definition infoRow (key : Sequence) (first : bool) (info : Info)
  : list chunk :=
  [text (lit "<tr><td align='right'");
   text (lit " href='exploreRead?readId&amp;");
   number (getReadId (info_orientedReadId info));
   text "&amp;strand="; number (getStrand (info_orientedReadId info));
   text (lit "'");
   text (lit "><font color='blue'><b><u>");
   orientedReadText (info_orientedReadId info);
   text "</u></b></font></td>";
   text (lit "<td align='right'");
   text (lit " href='exploreRead?readId&amp;");
   number (getReadId (info_orientedReadId info));
   text "&amp;strand="; number (getStrand (info_orientedReadId info));
   text "&amp;highlightMarker="; number (ordinals0 info);
   text "&amp;highlightMarker="; number (ordinals1 info);
   text "#"; number (ordinals1 info); text (lit "'");
   text (lit "><font color='blue'><b><u>"); number (ordinals0 info);
   text "</u></b></font></td>";
   text (lit "<td align='right'");
   text (lit " href='exploreRead?readId&amp;");
   number (getReadId (info_orientedReadId info));
   text "&amp;strand="; number (getStrand (info_orientedReadId info));
   text "&amp;highlightMarker="; number (ordinals0 info);
   text "&amp;highlightMarker="; number (ordinals1 info);
   text (lit "'");
   text (lit "><font color='blue'><b><u>"); number (ordinals1 info);
   text "</u></b></font></td>";
   text (lit "<td align='center'><b>")]
  ++ (if first then
        if decide (100 < sequenceStringSize key) then [text "Too long"]
        else [sequenceString key]
      else [text "="])
  ++ [text "</b></td></tr>"].

(** "Loop over the infos table for this edge." *)
Definition infoRows (edge : LocalMarkerGraph2Edge) : list chunk :=
  infos edge ≫= λ p,
    concat (imap (λ j info, infoRow (fst p) (bool_decide (j = 0)) info)
              (snd p)).

(** [Writer::operator()(std::ostream&, edge_descriptor)].  The result is
    [None] when [e] is not an edge of the graph.  The tooltip text of the
    detailed output, which the code builds as one string with
    [to_string], is written here as its parts. *)
Definition writeEdge (graph : LocalMarkerGraph2) (e : edge_descriptor)
  : option (result (list chunk)) :=
  se ← edges graph !! e;
  let edge := property se in
  let coverage' := N.of_nat (coverage edge) in
  Some
    (if decide (0 < coverage')%N then
       let consensus' := N.of_nat (consensus edge) in
       let color := edgeColor edge coverage' in
       if negb detailed then
         returned
           ([text "["]
            ++ [text (lit "tooltip='Coverage "); number coverage';
                text ", consensus "; number consensus'; text (lit "'")]
            ++ [text (lit " fillcolor='"); text color; text (lit "'")]
            ++ [text (lit " color='"); text color; text (lit "'")]
            ++ [text " penwidth="]
            ++ [penwidth 2 (if (coverage' =? 0)%N then 1%N else coverage')]
            ++ edgeStyle edge
            ++ [text " weight="; number coverage']
            ++ [text "]"])
       else
         let tooltipText :=
           [text "Coverage "; number coverage'; text ", consensus ";
            number consensus'] in
         let labelColor :=
           if decide (color = "black") then "green" else color in
         returned
           ([text "["]
            ++ [text (lit " tooltip='")] ++ tooltipText ++ [text (lit "'")]
            ++ [text (lit " labeltooltip='")] ++ tooltipText
            ++ [text (lit "'")]
            ++ [text " penwidth="]
            ++ [penwidth 5 (if (coverage' =? 0)%N then 1%N else coverage')]
            ++ edgeStyle edge
            ++ [text (lit " fillcolor='"); text color; text (lit "'")]
            ++ [text (lit " color='"); text color; text (lit "'")]
            ++ [text " weight="; number coverage']
            ++ [text (lit " label=<<font color='black'>")]
            ++ [text "<table"]
            ++ [text (lit " color='black'")]
            ++ [text (lit " bgcolor='"); text labelColor; text (lit "'")]
            ++ [text (lit " border='0'")]
            ++ [text (lit " cellborder='1'")]
            ++ [text (lit " cellspacing='0'")]
            ++ [text ">"]
            ++ [text (lit "<tr><td colspan='4'><b>Coverage ");
                number coverage'; text "</b></td></tr>"]
            ++ [text (lit "<tr><td colspan='4'><b>Consensus ");
                number consensus'; text "</b></td></tr>"]
            ++ [text (lit "<tr><td align='center'><b>Read</b></td><td align='center'><b>Ord0</b></td><td align='center'><b>Ord1</b></td><td align='center'><b>Seq</b></td></tr>")]
            ++ infoRows edge
            ++ [text "</table></font>> decorate=true"]
            ++ [text "]"])
     else thrown assertion_failed).

(** The texts of a list of calls, up to the first one that throws. *)
Definition allOf (rs : list (result (list chunk))) : result (list chunk) :=
  foldr (λ r rest, x ← r; xs ← rest; returned (x ++ xs)) (returned []) rs.

(** [write(ostream&, ...)]: [boost::write_graphviz] with the writer for
    the vertices, the edges and the graph, and the vertex id as the name
    of a vertex.  It writes the opening line, the properties of the graph,
    a line for each vertex and a line for each edge, in the order of the
    vertex list and of the edge list, and the closing line.  The result
    is the text that has been written when the call returns; it is [None]
    when an edge has an end that is not a vertex of the graph. *)
Definition write (graph : LocalMarkerGraph2)
  : option (result (list chunk)) :=
  vertexLines ←
    mapM (λ v,
            vertex ← vertices graph !! v;
            attributes ← writeVertex graph v;
            Some (chunks ← attributes;
                  returned ([number (vertexId vertex)] ++ chunks
                            ++ [text ";"; endl])))
      (seq 0 (num_vertices graph));
  edgeLines ←
    mapM (λ e,
            se ← edges graph !! e;
            id0 ← vertexIdAt graph (source se);
            id1 ← vertexIdAt graph (target se);
            attributes ← writeEdge graph e;
            Some (chunks ← attributes;
                  returned ([number id0; text "->"; number id1; text " "]
                            ++ chunks ++ [text ";"; endl])))
      (seq 0 (num_edges graph));
  Some (vertexText ← allOf vertexLines;
        edgeText ← allOf edgeLines;
        returned ([text "digraph G {"; endl]
                  ++ writeGraphProperties
                  ++ vertexText ++ edgeText
                  ++ [text "}"; endl])).

End Writer.

(** *** When [write] fails *)

Example lit_example :
  lit "a='b';\n"
  = "a=" +:+ String doubleQuote ("b" +:+ String doubleQuote
                                   (";" +:+ String lineFeed "")).
Proof. reflexivity. Qed.

(** The call fails its assertion when [bad] holds, and returns when it
    does not. *)
Definition failsIff (r : result (list chunk)) (bad : Prop) : Prop :=
  (bad ∧ r = thrown assertion_failed) ∨ (¬ bad ∧ ∃ out, r = returned out).

Lemma failsIff_bind r bad (f : list chunk → list chunk) :
  failsIff r bad → failsIff (chunks ← r; returned (f chunks)) bad.
Proof.
intros [[Hbad ->]|[Hgood (out & ->)]]; [by left|].
right. split; [done|]. by eexists.
Qed.

Lemma failsIff_iff r bad bad' : (bad ↔ bad') → failsIff r bad → failsIff r bad'.
Proof. intros Hiff [[? ?]|[? ?]]; [left|right]; split; tauto. Qed.

Lemma allOf_fails (f : nat → option (result (list chunk))) (l : list nat)
    (bad : nat → Prop) :
  (∀ i, i ∈ l → ∃ r, f i = Some r ∧ failsIff r (bad i)) →
  ∃ lines, mapM f l = Some lines
           ∧ failsIff (allOf lines) (∃ i, i ∈ l ∧ bad i).
Proof.
induction l as [|a l IH]; intros Hall.
- exists []. split; [done|]. right. split; [|by exists []].
  intros (i & Hi & _). by apply elem_of_nil in Hi.
- destruct (Hall a) as (r & Hr & Hfails); [apply elem_of_cons; by left|].
  destruct IH as (lines & Hlines & Hrest).
  { intros i Hi. apply Hall. apply elem_of_cons. by right. }
  exists (r :: lines). split; [simpl; by rewrite Hr, Hlines|].
  simpl. destruct Hfails as [[Hbad ->]|[Hgood (out & ->)]].
  + left. split; [|done]. exists a. split; [apply elem_of_cons; by left|done].
  + simpl. destruct Hrest as [[(i & Hi & Hbad) ->]|[Hnone (outs & ->)]].
    * left. split; [|done]. exists i. split; [apply elem_of_cons; by right|done].
    * right. split; [|by eexists].
      intros (i & Hi & Hbad). apply elem_of_cons in Hi as [->|Hi]; [done|].
      apply Hnone. by exists i.
Qed.

Section WriterLaws.

Variable k : N.
Variable markers : N → CompressedMarker.
Variable minCoverage : N.
Variable maxDistance : Z.
Variable detailed : bool.
Variable showVertexId : bool.

Set Default Proof Using "Type".

Lemma getKmerId_cases graph v vertex :
  vertices graph !! v = Some vertex →
  getKmerId markers v graph = Some (thrown assertion_failed)
  ∨ ∃ x, getKmerId markers v graph = Some (returned x).
Proof.
intros Hv. unfold getKmerId. rewrite Hv. simpl.
destruct (markerInfos vertex) as [|front rest]; [by left|].
rewrite sameKmer_foldl. case_decide; simpl; [right; by eexists|by left].
Qed.

(** The vertex cannot be written: it has no marker or, for the detailed
    output, [getKmerId] fails on it. *)
Definition unwritableVertex (graph : LocalMarkerGraph2)
    (v : vertex_descriptor) : Prop :=
  ∃ vertex, vertices graph !! v = Some vertex
    ∧ (markerInfos vertex = []
       ∨ (detailed = true
          ∧ getKmerId markers v graph = Some (thrown assertion_failed))).

(** The edge cannot be written: its coverage is zero. *)
Definition unwritableEdge (graph : LocalMarkerGraph2) (e : edge_descriptor)
  : Prop :=
  ∃ se, edges graph !! e = Some se ∧ coverage (property se) = 0.

Lemma writeVertex_fails graph v vertex :
  vertices graph !! v = Some vertex →
  ∃ r, writeVertex k markers minCoverage maxDistance detailed showVertexId
         graph v = Some r
       ∧ failsIff r (unwritableVertex graph v).
Proof.
intros Hv. unfold writeVertex, unwritableVertex. rewrite Hv. simpl.
eexists. split; [done|].
destruct (markerInfos vertex) as [|front rest] eqn:Hinfos.
{ left. split; [|done]. exists vertex. split; [done|]. by left. }
rewrite decide_True by (simpl; lia).
destruct detailed; simpl.
- destruct (getKmerId_cases graph v vertex Hv) as [Hkmer|[x Hkmer]];
    rewrite Hkmer; simpl.
  + left. split; [|done]. exists vertex. split; [done|]. by right.
  + right. split; [|by eexists].
    intros (vertex' & Hv' & [Hnone|[_ Hfail]]); [|congruence].
    assert (vertex' = vertex) as -> by congruence. congruence.
- right. split; [|by eexists].
  intros (vertex' & Hv' & [Hnone|[? _]]); [|done].
  assert (vertex' = vertex) as -> by congruence. congruence.
Qed.

Lemma writeEdge_fails graph e se :
  edges graph !! e = Some se →
  ∃ r, writeEdge minCoverage detailed graph e = Some r
       ∧ failsIff r (unwritableEdge graph e).
Proof.
intros He. unfold writeEdge, unwritableEdge. rewrite He. simpl.
eexists. split; [done|].
destruct (decide (0 < N.of_nat (coverage (property se)))%N) as [Hpos|Hzero].
- right. split.
  + intros (se' & He' & Hcov). assert (se' = se) as -> by congruence. lia.
  + destruct detailed; simpl; by eexists.
- left. split; [|done]. exists se. split; [done|]. lia.
Qed.

(** X17.  [write] fails with an assertion failure exactly when the graph
    has a vertex without markers or an edge of coverage zero, or, for the
    detailed output, a vertex on which [getKmerId] fails; on every other
    graph it returns. *)
Theorem write_fails graph :
  wellFormed graph →
  ∃ r, write k markers minCoverage maxDistance detailed showVertexId graph
       = Some r
    ∧ (r = thrown assertion_failed
       ↔ (∃ v, unwritableVertex graph v) ∨ (∃ e, unwritableEdge graph e))
    ∧ (r = thrown assertion_failed ∨ ∃ out, r = returned out).
Proof.
intros Hwf. unfold write.
set (vertexLine := λ v : nat, vertices graph !! v ≫= _).
set (edgeLine := λ e : nat, edges graph !! e ≫= _).
destruct (allOf_fails vertexLine (seq 0 (num_vertices graph))
            (unwritableVertex graph)) as (vertexLines & -> & Hvertices).
{ intros v Hv. apply elem_of_seq in Hv.
  destruct (lookup_lt_is_Some_2 (vertices graph) v ltac:(unfold num_vertices in *; lia))
    as [vertex Hvertex].
  destruct (writeVertex_fails graph v vertex Hvertex) as (r & Hr & Hfails).
  unfold vertexLine. rewrite Hvertex. simpl. rewrite Hr. simpl.
  eexists. split; [done|]. by apply failsIff_bind. }
destruct (allOf_fails edgeLine (seq 0 (num_edges graph))
            (unwritableEdge graph)) as (edgeLines & -> & Hedges).
{ intros e He. apply elem_of_seq in He.
  destruct (lookup_lt_is_Some_2 (edges graph) e ltac:(unfold num_edges in *; lia))
    as [se Hse].
  destruct (writeEdge_fails graph e se Hse) as (r & Hr & Hfails).
  destruct (Hwf e se Hse) as [Hsrc Htgt].
  destruct (lookup_lt_is_Some_2 (vertices graph) (source se) Hsrc)
    as [vertex0 Hvertex0].
  destruct (lookup_lt_is_Some_2 (vertices graph) (target se) Htgt)
    as [vertex1 Hvertex1].
  unfold edgeLine, vertexIdAt. rewrite Hse. simpl.
  rewrite Hvertex0, Hvertex1. simpl. rewrite Hr. simpl.
  eexists. split; [done|]. by apply failsIff_bind. }
simpl. eexists. split; [done|].
assert (Hin_v : (∃ v, v ∈ seq 0 (num_vertices graph) ∧ unwritableVertex graph v)
                ↔ ∃ v, unwritableVertex graph v).
{ split; intros (v & H); [exists v; tauto|]. exists v. split; [|done].
  destruct H as (vertex & Hv & _). apply elem_of_seq.
  apply lookup_lt_Some in Hv. unfold num_vertices. lia. }
assert (Hin_e : (∃ e, e ∈ seq 0 (num_edges graph) ∧ unwritableEdge graph e)
                ↔ ∃ e, unwritableEdge graph e).
{ split; intros (e & H); [exists e; tauto|]. exists e. split; [|done].
  destruct H as (se & He & _). apply elem_of_seq.
  apply lookup_lt_Some in He. unfold num_edges. lia. }
apply (failsIff_iff _ _ _ Hin_v) in Hvertices.
apply (failsIff_iff _ _ _ Hin_e) in Hedges.
destruct Hvertices as [[Hbad ->]|[Hgood (vertexText & ->)]]; simpl.
{ split; [|by left]. split; [by left|done]. }
destruct Hedges as [[Hbad ->]|[Hgood' (edgeText & ->)]]; simpl.
{ split; [|by left]. split; [by right|done]. }
split; [|right; by eexists]. split; [done|]. tauto.
Qed.

End WriterLaws.

(** *** Colors and styles *)

(** Whether the text [t] is one of the pieces written. *)
Definition isText (t : string) (c : chunk) : bool :=
  match c with text s => String.eqb s t | _ => false end.

Definition hasText (t : string) (out : list chunk) : bool :=
  existsb (isText t) out.

Lemma hasText_elem t out : hasText t out = true ↔ text t ∈ out.
Proof.
unfold hasText. rewrite existsb_exists. split.
- intros (c & Hc & Heq). destruct c; try done.
  apply String.eqb_eq in Heq as ->. by apply list_elem_of_In.
- intros Hin. exists (text t). split; [by apply list_elem_of_In|].
  apply String.eqb_refl.
Qed.

Lemma hasText_false t out : hasText t out = false ↔ text t ∉ out.
Proof.
rewrite <- hasText_elem. destruct (hasText t out); split; try done.
Qed.

Lemma hasText_app t l1 l2 :
  hasText t (l1 ++ l2) = hasText t l1 || hasText t l2.
Proof. apply existsb_app. Qed.

Lemma hasText_cons t c l : hasText t (c :: l) = isText t c || hasText t l.
Proof. reflexivity. Qed.

Lemma hasText_bind {A} t (f : A → list chunk) (l : list A) :
  (∀ x, hasText t (f x) = false) → hasText t (l ≫= f) = false.
Proof.
intros Hf. induction l as [|x l IH]; [done|].
change ((x :: l) ≫= f) with (f x ++ (l ≫= f)).
by rewrite hasText_app, Hf, IH.
Qed.

Lemma hasText_concat_imap {A} t (f : nat → A → list chunk) (l : list A) :
  (∀ j x, hasText t (f j x) = false) → hasText t (concat (imap f l)) = false.
Proof.
revert f. induction l as [|x l IH]; intros f Hf; [done|].
simpl. rewrite hasText_app, Hf. simpl. apply IH. intros j y. apply Hf.
Qed.

Lemma bind_Some_eq {A B} (f : A → option B) (x : A) : Some x ≫= f = f x.
Proof. reflexivity. Qed.

Lemma returned_Some_inj {A} (x y : A) :
  Some (returned x) = Some (returned y) → x = y.
Proof. congruence. Qed.

(** The pieces written right after the piece [key]. *)
Fixpoint writtenAfter (key : string) (out : list chunk) : list chunk :=
  match out with
  | [] => []
  | c :: rest => (if isText key c then take 1 rest else []) ++ writtenAfter key rest
  end.

Definition endsWith (key : string) (out : list chunk) : bool :=
  match last out with Some c => isText key c | None => false end.

Lemma writtenAfter_app key l1 l2 :
  endsWith key l1 = false →
  writtenAfter key (l1 ++ l2) = writtenAfter key l1 ++ writtenAfter key l2.
Proof.
induction l1 as [|c l1 IH]; intros Hlast; [done|].
destruct l1 as [|c' l1].
- unfold endsWith in Hlast. simpl in Hlast. simpl. by rewrite Hlast.
- change (endsWith key (c' :: l1) = false) in Hlast.
  change ((c :: c' :: l1) ++ l2) with (c :: (c' :: l1) ++ l2).
  change (writtenAfter key (c :: (c' :: l1) ++ l2))
    with ((if isText key c then [c'] else [])
          ++ writtenAfter key ((c' :: l1) ++ l2)).
  change (writtenAfter key (c :: c' :: l1))
    with ((if isText key c then [c'] else []) ++ writtenAfter key (c' :: l1)).
  rewrite IH by done. by rewrite app_assoc.
Qed.

Lemma writtenAfter_without key l1 l2 :
  hasText key l1 = false → writtenAfter key (l1 ++ l2) = writtenAfter key l2.
Proof.
induction l1 as [|c l1 IH]; intros Hno; [done|].
rewrite hasText_cons in Hno. apply orb_false_elim in Hno as [Hc Hno].
simpl. rewrite Hc. simpl. by apply IH.
Qed.

(** The texts that tell the color of a vertex or of an edge and the style
    of an edge, and the texts that open the color attributes. *)
Definition styleTexts : list string :=
  [" style=dashed"; "violet"; "black"; "red"; "green"; "cyan"; "lightGreen";
   lit " fillcolor='"; lit " color='"; lit " bgcolor='"].

Ltac styleText_cases H :=
  unfold styleTexts in H; simpl in H;
  repeat (destruct H as [<-|H]); [..|destruct H].

(** No row of the table of an edge and no row of the table of a vertex is
    one of these texts. *)
Lemma hasText_infoRow t key first info :
  In t styleTexts → hasText t (infoRow key first info) = false.
Proof.
intros Ht. unfold infoRow, sequenceString.
destruct first; repeat case_decide; styleText_cases Ht; reflexivity.
Qed.

Lemma hasText_infoRows t edge :
  In t styleTexts → hasText t (infoRows edge) = false.
Proof.
intros Ht. unfold infoRows. apply hasText_bind. intros p.
apply hasText_concat_imap. intros j info. by apply hasText_infoRow.
Qed.

Lemma hasText_markerRows markers t (markerInfos : list MarkerInfo) :
  In t styleTexts → hasText t (markerInfos ≫= markerRow markers) = false.
Proof.
intros Ht. apply hasText_bind. intros markerInfo. unfold markerRow.
styleText_cases Ht; reflexivity.
Qed.

(** Which of the texts an edge is written with, as a Boolean. *)
Lemma writeEdge_hasText minCoverage detailed graph e se out :
  edges graph !! e = Some se →
  writeEdge minCoverage detailed graph e = Some (returned out) →
  let edge := property se in
  let enough := (minCoverage <=? N.of_nat (coverage edge))%N in
  hasText " style=dashed" out
  = isSpanningTreeEdge edge && negb (isSpanningTreeBestPathEdge edge)
  ∧ hasText "violet" out = isSpanningTreeEdge edge
  ∧ hasText "red" out = negb (isSpanningTreeEdge edge) && negb enough
  ∧ hasText "green" out
    = detailed && negb (isSpanningTreeEdge edge) && enough.
Proof.
intros He Hw edge enough. unfold writeEdge in Hw. rewrite He in Hw.
rewrite bind_Some_eq in Hw. cbv beta zeta in Hw.
change (property se) with edge in Hw.
destruct (decide (0 < N.of_nat (coverage edge))%N); [|done].
unfold edgeColor, edgeStyle in Hw.
change (minCoverage <=? N.of_nat (coverage edge))%N with enough in Hw.
destruct detailed; cbn [negb] in Hw; apply returned_Some_inj in Hw as <-;
  repeat split;
  rewrite ?hasText_app, ?hasText_infoRows
    by (unfold styleTexts; simpl; tauto);
  destruct (isSpanningTreeEdge edge), (isSpanningTreeBestPathEdge edge),
    enough;
  vm_compute; reflexivity.
Qed.

Lemma hasText_edgeStyle t edge :
  t ≠ " style=dashed" → hasText t (edgeStyle edge) = false.
Proof.
intros Ht. unfold edgeStyle. case_match; [|done].
apply hasText_false. intros Hin. apply list_elem_of_singleton in Hin.
congruence.
Qed.

(** The color attributes of an edge: what is written right after the
    texts that open them. *)
Lemma writeEdge_writtenAfter minCoverage detailed graph e se out :
  edges graph !! e = Some se →
  writeEdge minCoverage detailed graph e = Some (returned out) →
  let edge := property se in
  let color := edgeColor minCoverage edge (N.of_nat (coverage edge)) in
  writtenAfter (lit " fillcolor='") out = [text color]
  ∧ writtenAfter (lit " color='") out = [text color]
  ∧ writtenAfter (lit " bgcolor='") out
    = if detailed
      then [text (if decide (color = "black") then "green" else color)]
      else [].
Proof.
intros He Hw edge color. unfold writeEdge in Hw. rewrite He in Hw.
rewrite bind_Some_eq in Hw. cbv beta zeta in Hw.
change (property se) with edge in Hw.
destruct (decide (0 < N.of_nat (coverage edge))%N); [|done].
change (edgeColor minCoverage edge (N.of_nat (coverage edge))) with color
  in Hw.
destruct detailed; cbn [negb] in Hw; apply returned_Some_inj in Hw as <-;
  repeat split;
  repeat first
    [ rewrite writtenAfter_app by reflexivity
    | rewrite (writtenAfter_without _ (edgeStyle edge))
        by (apply hasText_edgeStyle; vm_compute; discriminate)
    | rewrite (writtenAfter_without _ (infoRows edge))
        by (apply hasText_infoRows; unfold styleTexts; simpl; tauto) ];
  unfold color, edgeColor;
  destruct (isSpanningTreeEdge edge),
    (minCoverage <=? N.of_nat (coverage edge))%N;
  vm_compute; reflexivity.
Qed.

(** X18.  How an edge is drawn.  The texts are the pieces the writer
    inserts into the stream.  The edge is written with [style=dashed]
    exactly when it is an edge of the spanning tree that is not on the
    best path.  Its [fillcolor] and its [color] are each written once,
    with the same value: violet exactly when it is an edge of the
    spanning tree, whatever its coverage, and for any other edge black
    when its coverage is at least [minCoverage] and red when it is less.
    The piece [violet] is written exactly for the edges of the spanning
    tree and the piece [red] exactly for the other edges of low coverage.
    In the detailed output the background of the label is written once:
    green for a black edge, else the color of the edge; the compact
    output has none.  (The label of the detailed output names black as
    the color of its font and of its table for every edge, so black is
    stated through the attribute.) *)
Theorem writeEdge_style minCoverage detailed graph e se out :
  edges graph !! e = Some se →
  writeEdge minCoverage detailed graph e = Some (returned out) →
  (text " style=dashed" ∈ out
   ↔ isSpanningTreeEdge (property se) = true
     ∧ isSpanningTreeBestPathEdge (property se) = false)
  ∧ (text "violet" ∈ out ↔ isSpanningTreeEdge (property se) = true)
  ∧ (text "red" ∈ out
     ↔ isSpanningTreeEdge (property se) = false
       ∧ (N.of_nat (coverage (property se)) < minCoverage)%N)
  ∧ (text "green" ∈ out
     ↔ detailed = true
       ∧ isSpanningTreeEdge (property se) = false
       ∧ (minCoverage ≤ N.of_nat (coverage (property se)))%N)
  ∧ ∃ color : string,
      writtenAfter (lit " fillcolor='") out = [text color]
      ∧ writtenAfter (lit " color='") out = [text color]
      ∧ writtenAfter (lit " bgcolor='") out
        = (if detailed
           then [text (if decide (color = "black") then "green" else color)]
           else [])
      ∧ (color = "violet" ↔ isSpanningTreeEdge (property se) = true)
      ∧ (color = "black"
         ↔ isSpanningTreeEdge (property se) = false
           ∧ (minCoverage ≤ N.of_nat (coverage (property se)))%N)
      ∧ (color = "red"
         ↔ isSpanningTreeEdge (property se) = false
           ∧ (N.of_nat (coverage (property se)) < minCoverage)%N).
Proof.
intros He Hw.
destruct (writeEdge_hasText minCoverage detailed graph e se out He Hw)
  as (Hdashed & Hviolet & Hred & Hgreen).
destruct (writeEdge_writtenAfter minCoverage detailed graph e se out He Hw)
  as (Hfill & Hcolor & Hbg).
rewrite <- !hasText_elem, Hdashed, Hviolet, Hred, Hgreen.
rewrite <- N.leb_le, <- N.leb_gt.
split; [|split; [|split; [|split]]];
  [destruct detailed, (isSpanningTreeEdge (property se)),
     (isSpanningTreeBestPathEdge (property se)),
     (minCoverage <=? N.of_nat (coverage (property se)))%N;
   simpl; intuition congruence..|].
eexists. split; [exact Hfill|]. split; [exact Hcolor|]. split; [exact Hbg|].
clear. unfold edgeColor.
destruct (isSpanningTreeEdge (property se)),
  (N.leb_spec minCoverage (N.of_nat (coverage (property se))));
  simpl; repeat split; intros; try done; try discriminate; try lia;
  try (match goal with
       | H : _ ∧ _ |- _ => destruct H; (discriminate || lia)
       end).
Qed.

Section WriterStyle.

Variable k : N.
Variable markers : N → CompressedMarker.
Variable minCoverage : N.
Variable maxDistance : Z.
Variable detailed : bool.
Variable showVertexId : bool.

Set Default Proof Using "Type".

(** Which of the texts a vertex is written with, as a Boolean. *)
Lemma writeVertex_hasText graph v vertex out :
  vertices graph !! v = Some vertex →
  writeVertex k markers minCoverage maxDistance detailed showVertexId graph v
  = Some (returned out) →
  let last := bool_decide (distance vertex = maxDistance) in
  let start := bool_decide (distance vertex = 0%Z) in
  let enough := (minCoverage <=? N.of_nat (length (markerInfos vertex)))%N in
  hasText "cyan" out = last
  ∧ hasText "lightGreen" out = negb last && start
  ∧ hasText "red" out = negb last && negb start && negb enough
  ∧ hasText "black" out
    = negb detailed && negb last && negb start && enough
  ∧ hasText "green" out = detailed && negb last && negb start && enough.
Proof.
intros Hv Hw last start enough. unfold writeVertex in Hw. rewrite Hv in Hw.
rewrite bind_Some_eq in Hw. cbv beta zeta in Hw.
destruct (decide (0 < N.of_nat (length (markerInfos vertex)))%N); [|done].
unfold vertexColor in Hw.
change (minCoverage <=? N.of_nat (length (markerInfos vertex)))%N
  with enough in Hw.
unfold last, start.
destruct detailed; cbn [negb] in Hw.
- destruct (default (thrown assertion_failed) (getKmerId markers v graph))
    as [kmerId'| |]; [|done|done].
  cbn [mbind result_bind] in Hw.
  apply returned_Some_inj in Hw as <-; repeat split;
  rewrite ?hasText_app, ?hasText_markerRows
    by (unfold styleTexts; simpl; tauto);
  destruct showVertexId;
  (destruct (decide (distance vertex = maxDistance)) as [Hlast|Hlast];
   [rewrite ?(bool_decide_eq_true_2 _ Hlast)
   |rewrite ?(bool_decide_eq_false_2 _ Hlast)]);
  (destruct (decide (distance vertex = 0%Z)) as [Hstart|Hstart];
   [rewrite ?(bool_decide_eq_true_2 _ Hstart)
   |rewrite ?(bool_decide_eq_false_2 _ Hstart)]);
  destruct enough; vm_compute; reflexivity.
- apply returned_Some_inj in Hw as <-; repeat split;
  destruct showVertexId;
  (destruct (decide (distance vertex = maxDistance)) as [Hlast|Hlast];
   [rewrite ?(bool_decide_eq_true_2 _ Hlast)
   |rewrite ?(bool_decide_eq_false_2 _ Hlast)]);
  (destruct (decide (distance vertex = 0%Z)) as [Hstart|Hstart];
   [rewrite ?(bool_decide_eq_true_2 _ Hstart)
   |rewrite ?(bool_decide_eq_false_2 _ Hstart)]);
  destruct enough; vm_compute; reflexivity.
Qed.

(** X19.  How a vertex is colored, in this order of precedence: cyan
    when its distance is [maxDistance]; else light green when its
    distance is zero; else red when its coverage is less than
    [minCoverage]; else black in the compact output and green in the
    detailed one.  So the start vertex is light green only when
    [maxDistance] is not zero, and none of these texts is written
    anywhere else in the line of the vertex. *)
Theorem writeVertex_color graph v vertex out :
  vertices graph !! v = Some vertex →
  writeVertex k markers minCoverage maxDistance detailed showVertexId graph v
  = Some (returned out) →
  (text "cyan" ∈ out ↔ distance vertex = maxDistance)
  ∧ (text "lightGreen" ∈ out
     ↔ distance vertex ≠ maxDistance ∧ distance vertex = 0%Z)
  ∧ (text "red" ∈ out
     ↔ distance vertex ≠ maxDistance ∧ distance vertex ≠ 0%Z
       ∧ (N.of_nat (length (markerInfos vertex)) < minCoverage)%N)
  ∧ (text (if detailed then "green" else "black") ∈ out
     ↔ distance vertex ≠ maxDistance ∧ distance vertex ≠ 0%Z
       ∧ (minCoverage ≤ N.of_nat (length (markerInfos vertex)))%N)
  ∧ text (if detailed then "black" else "green") ∉ out.
Proof.
intros Hv Hw.
destruct (writeVertex_hasText graph v vertex out Hv Hw)
  as (Hcyan & Hlight & Hred & Hblack & Hgreen).
rewrite <- hasText_false.
assert (Hordinary :
  text (if detailed then "green" else "black") ∈ out
  ↔ hasText (if detailed then "green" else "black") out = true)
  by (by rewrite hasText_elem).
rewrite Hordinary. rewrite <- !hasText_elem, Hcyan, Hlight, Hred.
rewrite <- N.leb_le, <- N.leb_gt.
destruct detailed; rewrite ?Hblack, ?Hgreen;
  repeat case_bool_decide;
  destruct (minCoverage <=? N.of_nat (length (markerInfos vertex)))%N;
  simpl; intuition congruence.
Qed.

End WriterStyle.
(** *** The writer on the small graphs *)

(** X17 on the tangled graph, whose vertices have no markers. *)
Lemma write_fails_witness :
  ∃ r, write Fixture.k Fixture.markers 2 3 true true Tangle.graph = Some r
    ∧ (r = thrown assertion_failed
       ↔ (∃ v, unwritableVertex Fixture.markers true Tangle.graph v)
         ∨ (∃ e, unwritableEdge Tangle.graph e))
    ∧ (r = thrown assertion_failed ∨ ∃ out, r = returned out).
Proof.
exact (write_fails Fixture.k Fixture.markers 2 3 true true Tangle.graph
         tangle_wellFormed).
Defined.

(** The edge from 1 to 2 of the tangled graph, which the spanning tree
    leaves out and which has coverage 2. *)
Definition tangle_sideEdge : StoredEdge :=
  mkStoredEdge 1 2 (Tangle.observations 2).

(** X18 on this edge of the tangled graph with its spanning tree marked,
    for the detailed output and [minCoverage] 2: the edge is black and
    its label green. *)
Lemma writeEdge_style_witness :
  ∃ out,
    writeEdge 2 true tangle_marked 2 = Some (returned out)
    ∧ (text " style=dashed" ∈ out
       ↔ isSpanningTreeEdge (property tangle_sideEdge) = true
         ∧ isSpanningTreeBestPathEdge (property tangle_sideEdge) = false)
    ∧ (text "violet" ∈ out
       ↔ isSpanningTreeEdge (property tangle_sideEdge) = true)
    ∧ (text "red" ∈ out
       ↔ isSpanningTreeEdge (property tangle_sideEdge) = false
         ∧ (N.of_nat (coverage (property tangle_sideEdge)) < 2)%N)
    ∧ (text "green" ∈ out
       ↔ true = true
         ∧ isSpanningTreeEdge (property tangle_sideEdge) = false
         ∧ (2 ≤ N.of_nat (coverage (property tangle_sideEdge)))%N)
    ∧ ∃ color : string,
        writtenAfter (lit " fillcolor='") out = [text color]
        ∧ writtenAfter (lit " color='") out = [text color]
        ∧ writtenAfter (lit " bgcolor='") out
          = [text (if decide (color = "black") then "green" else color)]
        ∧ (color = "violet"
           ↔ isSpanningTreeEdge (property tangle_sideEdge) = true)
        ∧ (color = "black"
           ↔ isSpanningTreeEdge (property tangle_sideEdge) = false
             ∧ (2 ≤ N.of_nat (coverage (property tangle_sideEdge)))%N)
        ∧ (color = "red"
           ↔ isSpanningTreeEdge (property tangle_sideEdge) = false
             ∧ (N.of_nat (coverage (property tangle_sideEdge)) < 2)%N).
Proof.
eexists. split; [reflexivity|].
apply (writeEdge_style 2 true tangle_marked 2 tangle_sideEdge);
  reflexivity.
Defined.

(** X19 on the second vertex of the small data set, at distance 1 and
    with one marker, for the detailed output, [minCoverage] 1 and
    [maxDistance] 2. *)
Lemma writeVertex_color_witness :
  ∃ out,
    writeVertex Fixture.k Fixture.markers 1 2 true false Fixture.graph 1
    = Some (returned out)
    ∧ (text "cyan" ∈ out ↔ distance (Fixture.vertexB 0%N) = 2%Z)
    ∧ (text "lightGreen" ∈ out
       ↔ distance (Fixture.vertexB 0%N) ≠ 2%Z
         ∧ distance (Fixture.vertexB 0%N) = 0%Z)
    ∧ (text "red" ∈ out
       ↔ distance (Fixture.vertexB 0%N) ≠ 2%Z
         ∧ distance (Fixture.vertexB 0%N) ≠ 0%Z
         ∧ (N.of_nat (length (markerInfos (Fixture.vertexB 0%N))) < 1)%N)
    ∧ (text "green" ∈ out
       ↔ distance (Fixture.vertexB 0%N) ≠ 2%Z
         ∧ distance (Fixture.vertexB 0%N) ≠ 0%Z
         ∧ (1 ≤ N.of_nat (length (markerInfos (Fixture.vertexB 0%N))))%N)
    ∧ text "black" ∉ out.
Proof.
eexists. split; [reflexivity|].
apply (writeVertex_color Fixture.k Fixture.markers 1 2 true false
         Fixture.graph 1 (Fixture.vertexB 0%N));
  reflexivity.
Defined.
